(** * Gallery maintenance scripts: categorizer, fragment renderer, splice.

    A shallow embedding of the decision logic of
    [generate_gallery.py], [generate_gallery_urls.py],
    [generate_image_list.py] and [update_gallery_in_html.py], with the
    theorems that relate it to the written specification.

    Modelling conventions.
    - A Python [str] is a [string]. [lower], [upper] and [title] below are
      [str.lower], [str.upper] and [str.title] on ASCII text: they act on
      the letters A-Z / a-z and leave every other character alone. A
      theorem about the case of the letters or the length of a result is
      stated for ASCII strings ([ascii_only]).
    - A file opened for reading in text mode is read with the line endings
      translated ([universal_newlines]); a file opened for writing stores
      the text as it is given (POSIX).
    - A Python [dict] that is iterated is an association list in insertion
      order; a [dict] that is only indexed is a [gmap]; a [set] is a [gset].
    - A [Path] of the converted directory is represented by its [name]; all
      paths of one scan share the directory, so that ordering paths is
      ordering names.
    - [pathlib] matching is the POSIX one (case-sensitive), as the
      [#!/usr/bin/env python3] line of the scripts suggests.
    - An uncaught exception is [None] (or [Raised]) in the result. *)

From stdpp Require Import gmap strings list fin_maps pretty sorting.
From Stdlib Require Import ZArith Ascii.

Open Scope string_scope.
Open Scope list_scope.

(** ** Python string primitives *)

Module PyStr.

(** A single character as a string. *)
Definition chr (n : nat) : string := String (ascii_of_nat n) "".

(** The double quote and the newline, which the literals below splice in. *)
Definition dq : string := chr 34.
Definition nl : string := chr 10.

(** An attribute value between double quotes. *)
Definition q (s : string) : string := dq +:+ s +:+ dq.

Definition is_upper (c : ascii) : bool :=
  let n := nat_of_ascii c in (65 <=? n)%nat && (n <=? 90)%nat.

Definition is_lower (c : ascii) : bool :=
  let n := nat_of_ascii c in (97 <=? n)%nat && (n <=? 122)%nat.

Definition lower_char (c : ascii) : ascii :=
  if is_upper c then ascii_of_nat (nat_of_ascii c + 32) else c.

Definition upper_char (c : ascii) : ascii :=
  if is_lower c then ascii_of_nat (nat_of_ascii c - 32) else c.

(** [s.lower()] on ASCII text: the letters A-Z are lower-cased. *)
Fixpoint lower (s : string) : string :=
  match s with
  | "" => ""
  | String c s' => String (lower_char c) (lower s')
  end.

(** [s.upper()] on ASCII text: the letters a-z are upper-cased. *)
Fixpoint upper (s : string) : string :=
  match s with
  | "" => ""
  | String c s' => String (upper_char c) (upper s')
  end.

(** [s.startswith(p)] *)
Fixpoint startswith (p s : string) : bool :=
  match p, s with
  | "", _ => true
  | String _ _, "" => false
  | String a p', String b s' => if Ascii.eqb a b then startswith p' s' else false
  end.

(** [p in s]: [p] occurs at some position of [s]. *)
Fixpoint contains (p s : string) : bool :=
  startswith p s ||
  match s with
  | "" => false
  | String _ s' => contains p s'
  end.

(** [s.find(p)]: the lowest index at which [p] occurs, [-1] if none. *)
Fixpoint find (s p : string) : Z :=
  if startswith p s then 0%Z
  else match s with
       | "" => (-1)%Z
       | String _ s' =>
           let r := find s' p in
           if (r =? -1)%Z then (-1)%Z else (r + 1)%Z
       end.

(** [s.endswith(p)]: some tail of [s] is [p]. *)
Fixpoint endswith (p s : string) : bool :=
  String.eqb s p ||
  match s with
  | "" => false
  | String _ s' => endswith p s'
  end.

(** [s[:i]] and [s[i:]] for a non-negative [i]. *)
Fixpoint slice_to (i : nat) (s : string) : string :=
  match i, s with
  | O, _ => ""
  | S _, "" => ""
  | S i', String c s' => String c (slice_to i' s')
  end.

Fixpoint slice_from (i : nat) (s : string) : string :=
  match i, s with
  | O, _ => s
  | S _, "" => ""
  | S i', String _ s' => slice_from i' s'
  end.

(** [s.replace(a, b)] for single characters [a] and [b]. *)
Fixpoint replace_char (a b : ascii) (s : string) : string :=
  match s with
  | "" => ""
  | String c s' =>
      String (if Ascii.eqb c a then b else c) (replace_char a b s')
  end.

(** [s.title()] on ASCII text: a letter that follows a letter is
    lower-cased, any other letter is upper-cased. *)
Fixpoint title_from (prev_cased : bool) (s : string) : string :=
  match s with
  | "" => ""
  | String c s' =>
      if is_upper c || is_lower c
      then String (if prev_cased then lower_char c else upper_char c)
                  (title_from true s')
      else String c (title_from false s')
  end.

Definition title (s : string) : string := title_from false s.

(** [s.rfind(c)] for a character, as an index from the left. *)
Fixpoint rfind_char (c : ascii) (s : string) : option nat :=
  match s with
  | "" => None
  | String a s' =>
      match rfind_char c s' with
      | Some i => Some (S i)
      | None => if Ascii.eqb a c then Some O else None
      end
  end.

(** ['\n'.join(parts)] *)
Fixpoint join (sep : string) (parts : list string) : string :=
  match parts with
  | [] => ""
  | [x] => x
  | x :: rest => x +:+ sep +:+ join sep rest
  end.

End PyStr.

Import PyStr.

(** ** The categorizer of [generate_gallery.py] *)

Record cat_info := CatInfo {
  name : string;
  icon : string;
  patterns : list string
}.

(** The rule table, a [dict] iterated in insertion order. *)
Definition CATEGORIES : list (string * cat_info) :=
  [ ("members",
      CatInfo "Group Members" "people-fill" ["members-"; "member-"]);
    ("temple",
      CatInfo "Temple & Premises" "building"
              ["temple-"; "head-temple-"; "salmon-gate-"]);
    ("fuji",
      CatInfo "Mount Fuji" "mountain" ["mount-fuji-"; "fuji-"]);
    ("travel",
      CatInfo "Journey & Travel" "airplane"
              ["cathay-"; "hongkong-"; "narita-"; "airport"; "CX-"; "wagon-"]);
    ("accommodation",
      CatInfo "Hotel & Dining" "house-heart"
              ["fujiyen-hotel"; "dinner-"; "meal-"; "food"]);
    ("local",
      CatInfo "Local Sights" "geo-alt"
              ["fujinomiya-"; "waterfall"; "vending"; "streets"]);
    ("misc",
      CatInfo "Other Moments" "camera" []) ].

(** [CATEGORIES.keys()] *)
Definition keys (table : list (string * cat_info)) : list string := table.*1.

(** The inner loop of [categorize_image]: [true] when a pattern is found in
    the lower-cased filename (the loop returns from the function there). *)
Fixpoint any_pattern_in (pats : list string) (filename_lower : string) : bool :=
  match pats with
  | [] => false
  | pattern :: rest =>
      if contains pattern filename_lower then true
      else any_pattern_in rest filename_lower
  end.

(** The outer loop: [Some cat_id] when the function returns inside the loop,
    [None] when the loop runs to its end. *)
Fixpoint categorize_loop (items : list (string * cat_info))
    (filename_lower : string) : option string :=
  match items with
  | [] => None
  | (cat_id, info) :: rest =>
      if String.eqb cat_id "misc" then categorize_loop rest filename_lower
      else if any_pattern_in (patterns info) filename_lower then Some cat_id
      else categorize_loop rest filename_lower
  end.

Definition categorize_image_in (table : list (string * cat_info))
    (filename : string) : string :=
  let filename_lower := lower filename in
  match categorize_loop table filename_lower with
  | Some cat_id => cat_id
  | None => "misc"
  end.

Definition categorize_image (filename : string) : string :=
  categorize_image_in CATEGORIES filename.

(** A rule matches a lower-cased filename when one of its keywords occurs in
    it. *)
Definition rule_matches (rule : string * cat_info) (filename_lower : string) : Prop :=
  ∃ kw, kw ∈ patterns rule.2 ∧ contains kw filename_lower = true.

(** ** The fragment renderer of [generate_gallery.py] *)

(** The files and the console the scripts act on. [converted_dir] lists the
    entry names of [assets/images/gallery/converted], [None] when the
    directory does not exist; [files] holds the text files of the working
    directory; [stdout] is what has been printed, oldest line first. *)
Record world := World {
  converted_dir : option (list string);
  files : gmap string string;
  stdout : list string
}.

Definition print (line : string) (w : world) : world :=
  World (converted_dir w) (files w) (stdout w ++ [line]).

(** [open(path, 'w').write(text)]: the file is replaced as a whole and
    holds the text as it is given. *)
Definition write_file (path text : string) (w : world) : world :=
  World (converted_dir w) (<[path := text]> (files w)) (stdout w).

(** [converted_dir.glob('*' + suffix)]: the entries whose name ends with
    [suffix], in listing order. *)
Definition glob_suffix (suffix : string) (entries : list string) : list string :=
  filter (λ entry, endswith suffix entry = true) entries.

(** The order of [sorted] on paths of one directory. *)
Definition path_le (a b : string) : Prop := String.leb a b = true.

#[global] Instance path_le_dec : RelDecision path_le.
Proof. intros a b. unfold path_le. apply _. Defined.

(** [sorted(...)], a merge sort. *)
Definition sorted (l : list string) : list string := merge_sort path_le l.

(** [img.as_posix()] *)
Definition as_posix (img : string) : string :=
  "assets/images/gallery/converted/" +:+ img.

(** [img.stem]: the name without its last suffix. *)
Definition stem (img : string) : string :=
  match rfind_char (ascii_of_nat 46) img with
  | Some i =>
      if (0 <? i)%nat && (i <? String.length img - 1)%nat then slice_to i img
      else img
  | None => img
  end.

(** [img.stem.replace('-', ' ').replace('_', ' ').title()] *)
Definition alt_text (img : string) : string :=
  title (replace_char (ascii_of_nat 95) (ascii_of_nat 32)
           (replace_char (ascii_of_nat 45) (ascii_of_nat 32) (stem img))).

(** The elements of [html_parts]: each is one template of the script with
    the arguments of its [format] call. *)
Inductive part :=
| FiltersOpen (total : nat)
| FilterButton (cat_id icon_name display_name : string) (count : nat)
| FiltersClose
| GridOpen
| GalleryItem (cat_id href src alt : string)
| GridClose.

(** The text of each template. *)
Definition render_part (p : part) : string :=
  match p with
  | FiltersOpen total =>
      "      <div class=" +:+ q "gallery-filters mb-4 text-center" +:+ ">" +:+ nl +:+
      "        <button class=" +:+ q "btn btn-outline-primary active" +:+
        " data-filter=" +:+ q "all" +:+ ">" +:+ nl +:+
      "          <i class=" +:+ q "bi bi-grid-3x3" +:+ "></i> All (" +:+
        pretty total +:+ ")" +:+ nl +:+
      "        </button>"
  | FilterButton cat_id icon_name display_name count =>
      "        <button class=" +:+ q "btn btn-outline-primary" +:+
        " data-filter=" +:+ q cat_id +:+ ">" +:+ nl +:+
      "          <i class=" +:+ q ("bi bi-" +:+ icon_name) +:+ "></i> " +:+
        display_name +:+ " (" +:+ pretty count +:+ ")" +:+ nl +:+
      "        </button>"
  | FiltersClose => "      </div>" +:+ nl
  | GridOpen => "      <div class=" +:+ q "gallery-grid" +:+ ">" +:+ nl
  | GalleryItem cat_id href src alt =>
      "        <div class=" +:+ q "gallery-item" +:+
        " data-category=" +:+ q cat_id +:+ ">" +:+ nl +:+
      "          <a href=" +:+ q href +:+ " class=" +:+ q "glightbox" +:+
        " data-gallery=" +:+ q "tozan-gallery" +:+ ">" +:+ nl +:+
      "            <img src=" +:+ q src +:+ " alt=" +:+ q alt +:+
        " loading=" +:+ q "lazy" +:+ " />" +:+ nl +:+
      "            <div class=" +:+ q "gallery-overlay" +:+ ">" +:+ nl +:+
      "              <i class=" +:+ q "bi bi-zoom-in" +:+ "></i>" +:+ nl +:+
      "            </div>" +:+ nl +:+
      "          </a>" +:+ nl +:+
      "        </div>" +:+ nl
  | GridClose => "      </div>"
  end.

(** [{cat: [] for cat in CATEGORIES.keys()}] *)
Definition empty_groups (table : list (string * cat_info)) : gmap string (list string) :=
  foldl (λ m cat, <[cat := []]> m) ∅ (keys table).

(** [categorized[category].append(img)]; a missing key raises [KeyError]. *)
Definition append_to (categorized : gmap string (list string))
    (category img : string) : option (gmap string (list string)) :=
  group ← categorized !! category;
  Some (<[category := group ++ [img]]> categorized).

(** The loop over [images] that fills the groups. *)
Fixpoint categorize_into (categorized : gmap string (list string))
    (images : list string) : option (gmap string (list string)) :=
  match images with
  | [] => Some categorized
  | img :: rest =>
      categorized' ← append_to categorized (categorize_image img) img;
      categorize_into categorized' rest
  end.

Definition categorize_all (images : list string) : option (gmap string (list string)) :=
  categorize_into (empty_groups CATEGORIES) images.

(** The loop that appends one control per category with a non-zero count. *)
Fixpoint filter_buttons (items : list (string * cat_info))
    (categorized : gmap string (list string)) : option (list part) :=
  match items with
  | [] => Some []
  | (cat_id, info) :: rest =>
      group ← categorized !! cat_id;
      let count := length group in
      later ← filter_buttons rest categorized;
      Some (if (0 <? count)%nat
            then FilterButton cat_id (icon info) (name info) count :: later
            else later)
  end.

Definition gallery_item (cat_id img : string) : part :=
  GalleryItem cat_id (as_posix img) (as_posix img) (alt_text img).

(** The nested loop that appends one block per image. *)
Fixpoint gallery_items (cat_ids : list string)
    (categorized : gmap string (list string)) : option (list part) :=
  match cat_ids with
  | [] => Some []
  | cat_id :: rest =>
      group ← categorized !! cat_id;
      later ← gallery_items rest categorized;
      Some ((gallery_item cat_id <$> group) ++ later)
  end.

(** [html_parts] as it stands before it is joined, from the groups. *)
Definition build_html_parts (images : list string)
    (categorized : gmap string (list string)) : option (list part) :=
  buttons ← filter_buttons CATEGORIES categorized;
  items ← gallery_items (keys CATEGORIES) categorized;
  Some ([FiltersOpen (length images)] ++ buttons ++
        [FiltersClose; GridOpen] ++ items ++ [GridClose]).

(** Grouping and rendering of a list of images, the pure part of
    [generate_gallery_html]. *)
Definition html_parts (images : list string) : option (list part) :=
  categorized ← categorize_all images;
  build_html_parts images categorized.

(** The closing loop that prints the category breakdown. *)
Fixpoint print_breakdown (items : list (string * cat_info))
    (categorized : gmap string (list string)) (w : world) : option world :=
  match items with
  | [] => Some w
  | (cat_id, info) :: rest =>
      group ← categorized !! cat_id;
      let count := length group in
      print_breakdown rest categorized
        (if (0 <? count)%nat
         then print ("   " +:+ name info +:+ ": " +:+ pretty count +:+ " images") w
         else w)
  end.

Definition output_file : string := "gallery_generated.html".

(** [generate_gallery_html()]; [None] is an uncaught exception. *)
Definition generate_gallery_html (w : world) : option world :=
  match converted_dir w with
  | None => Some (print "❌ Converted directory not found!" w)
  | Some entries =>
      let images := sorted (glob_suffix ".jpg" entries) in
      match images with
      | [] => Some (print "❌ No images found!" w)
      | _ :: _ =>
          let w1 := print ("📸 Found " +:+ pretty (length images) +:+ " images") w in
          categorized ← categorize_all images;
          parts ← build_html_parts images categorized;
          let w2 := write_file output_file (join nl (render_part <$> parts)) w1 in
          let w3 := print (nl +:+ "✅ Gallery HTML generated: " +:+ output_file) w2 in
          let w4 := print (nl +:+ "📊 Category breakdown:") w3 in
          print_breakdown CATEGORIES categorized w4
      end
  end.

(** What a reader finds in the parts. *)
Definition all_counts (parts : list part) : list nat :=
  omap (λ p, match p with FiltersOpen n => Some n | _ => None end) parts.

Definition button_ids (parts : list part) : list string :=
  omap (λ p, match p with FilterButton c _ _ _ => Some c | _ => None end) parts.

Definition button_counts (parts : list part) : list nat :=
  omap (λ p, match p with FilterButton _ _ _ n => Some n | _ => None end) parts.

Definition is_item (p : part) : bool :=
  match p with GalleryItem _ _ _ _ => true | _ => false end.

Definition item_blocks (parts : list part) : list part :=
  filter (λ p, is_item p = true) parts.

(** The images of [images] that the categorizer sends to [cat]. *)
Definition group_of (cat : string) (images : list string) : list string :=
  filter (λ img, categorize_image img = cat) images.

(** The control a rule is expected to produce for a list of images: none
    when its group is empty. *)
Definition control_for (images : list string) (rule : string * cat_info) : option part :=
  let count := length (group_of rule.1 images) in
  if (0 <? count)%nat
  then Some (FilterButton rule.1 (icon rule.2) (name rule.2) count)
  else None.

(** The blocks a category is expected to produce: one per image of its
    group, in the order of the input. *)
Definition blocks_for (images : list string) (cat_id : string) : list part :=
  gallery_item cat_id <$> group_of cat_id images.

(** The sum of the sizes of the groups of a [dict]. *)
Definition total_size (categorized : gmap string (list string)) : nat :=
  sum_list ((λ kv, length kv.2) <$> map_to_list categorized).

(** ** The directory scan of [generate_image_list.py] *)

Definition image_extensions : list string :=
  [".jpg"; ".jpeg"; ".png"; ".webp"; ".gif"].

(** The loop over the extensions: each one is globbed as written and in
    upper case, and the matches are appended. *)
Fixpoint scan_extensions (exts : list string) (entries : list string) : list string :=
  match exts with
  | [] => []
  | ext :: rest =>
      glob_suffix ext entries ++ glob_suffix (upper ext) entries ++
      scan_extensions rest entries
  end.

(** [image_names] *)
Definition image_names (entries : list string) : list string :=
  sorted (scan_extensions image_extensions entries).

(** The text of [image_list.js]. *)
Fixpoint js_lines (names : list string) : string :=
  match names with
  | [] => ""
  | img :: rest => "  '" +:+ img +:+ "'," +:+ nl +:+ js_lines rest
  end.

Definition js_array (names : list string) : string :=
  "const ACTUAL_IMAGES = [" +:+ nl +:+ js_lines names +:+ "];".

Fixpoint print_all (lines : list string) (w : world) : world :=
  match lines with
  | [] => w
  | l :: rest => print_all rest (print l w)
  end.

(** [generate_image_list()] *)
Definition generate_image_list (w : world) : world :=
  match converted_dir w with
  | None => print "❌ Converted directory not found!" w
  | Some entries =>
      let names := image_names entries in
      let w1 := print ("📸 Found " +:+ pretty (length names) +:+ " images") w in
      let w2 := write_file "image_list.js" (js_array names) w1 in
      let w3 := print ("✅ Generated image_list.js with " +:+
                       pretty (length names) +:+ " images") w2 in
      let w4 := print (nl +:+ "📋 First 10 images:") w3 in
      print_all ((λ img, "   " +:+ img) <$> firstn 10 names) w4
  end.

(** A name carries one of the five extensions in some mix of upper and lower
    case. *)
Definition has_image_extension (img : string) : Prop :=
  ∃ ext, ext ∈ image_extensions ∧ endswith ext (lower img) = true.

(** ** The list handling of [generate_gallery_urls.py] *)

(** The loop that removes duplicates: [unique_images] grows at its end,
    [seen] records what has been appended. *)
Fixpoint dedup_loop (images : list string) (unique_images : list string)
    (seen : gset string) : list string :=
  match images with
  | [] => unique_images
  | img :: rest =>
      if decide (img ∈ seen) then dedup_loop rest unique_images seen
      else dedup_loop rest (unique_images ++ [img]) (seen ∪ {[img]})
  end.

Definition unique_images (images : list string) : list string :=
  dedup_loop images [] ∅.

(** The first occurrences of the elements of a list, in order: the head,
    then the first occurrences of the rest without the head. The loop above
    is compared with it. *)
Fixpoint first_occurrences (l : list string) : list string :=
  match l with
  | [] => []
  | x :: rest => x :: filter (λ y, y ≠ x) (first_occurrences rest)
  end.

(** [a] comes before [b] in [l]. *)
Definition comes_before (a b : string) (l : list string) : Prop :=
  [a; b] `sublist_of` l.

(** The index of the first occurrence of [x] in [l] ([length l] if none). *)
Fixpoint first_index (x : string) (l : list string) : nat :=
  match l with
  | [] => 0
  | y :: rest => if String.eqb y x then 0 else S (first_index x rest)
  end.

(** [any(keyword in img_lower for keyword in keywords)] *)
Definition any_in (keywords : list string) (img_lower : string) : bool :=
  existsb (λ keyword, contains keyword img_lower) keywords.

(** The [if]/[elif] chain of the script: the key of [categories] the image is
    appended to. *)
Definition url_category (img : string) : string :=
  let img_lower := lower img in
  if any_in ["members-"; "member-"] img_lower then
    if contains "ceremony" img_lower then "Ceremony & Special Events"
    else "Members & Group Photos"
  else if any_in ["headtemple-"; "head-temple-"; "temple-premises-"; "temple-";
                  "tokohibo-"; "seikado-"; "treasury-hall-"; "salmon-gate-";
                  "pagoda-"] img_lower then "Head Temple & Premises"
  else if contains "mount-fuji" img_lower || contains "fuji-" img_lower then
    "Mount Fuji Views"
  else if any_in ["hotel-"; "fujiyen-"] img_lower then "Hotels & Accommodation"
  else if any_in ["hongkong-"; "narita-"; "cathay-"; "cx-"; "airport"] img_lower then
    "Travel & Journey"
  else if any_in ["gokai-"; "map-"; "butsugu-"] img_lower then "Temple Activities"
  else if any_in ["ceremony-day-"] img_lower then "Ceremony & Special Events"
  else "Local Places & Food".

(** ** The splice of [update_gallery_in_html.py] *)

Definition start_marker : string :=
  "<div class=" +:+ dq +:+ "gallery-filters mb-4".

Definition end_marker : string :=
  "</div>" +:+ nl +:+ "    </div>" +:+ nl +:+ "  </section>" +:+ nl +:+ nl +:+
  "  <!-- Visa Information Section -->".

(** The text the script puts back after the fragment. *)
Definition closing_text : string :=
  nl +:+ "      </div>" +:+ nl +:+ "    </div>" +:+ nl +:+ "  </section>" +:+
  nl +:+ nl +:+ "  <!-- Visa Information Section -->".

(** How a call ends: it returns a value or raises the exception whose text is
    given. *)
Inductive outcome (A : Type) :=
| Returned (a : A)
| Raised (message : string).
Arguments Returned {A} a.
Arguments Raised {A} message.

(** The translation of line endings that a file opened for reading in text
    mode applies: a carriage return followed by a line feed, and a carriage
    return alone, are read as one line feed. *)
Fixpoint universal_newlines (s : string) : string :=
  match s with
  | "" => ""
  | String c s' =>
      if Ascii.eqb c (ascii_of_nat 13) then
        match s' with
        | "" => String (ascii_of_nat 10) ""
        | String d _ =>
            if Ascii.eqb d (ascii_of_nat 10) then universal_newlines s'
            else String (ascii_of_nat 10) (universal_newlines s')
        end
      else String c (universal_newlines s')
  end.

(** [open(path, 'r').read()]: the text of the file with its line endings
    translated. *)
Definition read_file (path : string) (w : world) : outcome string :=
  match files w !! path with
  | Some text => Returned (universal_newlines text)
  | None => Raised ("[Errno 2] No such file or directory: '" +:+ path +:+ "'")
  end.

(** [update_gallery()] *)
Definition update_gallery (w : world) : outcome bool * world :=
  match read_file "gallery_generated.html" w with
  | Raised e => (Raised e, w)
  | Returned gallery_html =>
      match read_file "index.html" w with
      | Raised e => (Raised e, w)
      | Returned html_content =>
          let start_idx := find html_content start_marker in
          let end_idx := find html_content end_marker in
          if ((start_idx =? -1) || (end_idx =? -1))%Z then
            (Returned false, print "❌ Could not find gallery section markers!" w)
          else
            let new_html :=
              slice_to (Z.to_nat start_idx) html_content +:+
              gallery_html +:+
              closing_text +:+
              slice_from (Z.to_nat (end_idx + Z.of_nat (String.length end_marker)))
                   html_content in
            let w1 := write_file "index.html" new_html w in
            let w2 := print "✅ Gallery section updated successfully!" w1 in
            let w3 := print "📸 Added 134 images organized into 7 categories" w2 in
            (Returned true, w3)
      end
  end.

(** The [__main__] block, which catches what [update_gallery] raises. *)
Definition update_gallery_main (w : world) : world :=
  match update_gallery w with
  | (Returned true, w') =>
      print "   Refresh your browser to see the changes!"
        (print (nl +:+ "🎉 Gallery is now beautiful and immersive!") w')
  | (Returned false, w') => w'
  | (Raised e, w') => print ("❌ Error: " +:+ e) w'
  end.

(** Two working directories used as examples: a page that has the start
    marker and lacks the end marker, and a page that has both. *)
Definition page_without_end_marker : world :=
  World None
    (<["index.html" := "<body>" +:+ start_marker +:+ "</body>"]>
       (<["gallery_generated.html" := "<div></div>"]> ∅)) [].

Definition page_with_markers : world :=
  World None
    (<["index.html" := "<body>" +:+ start_marker +:+ " old" +:+
                        end_marker +:+ "</body>"]>
       (<["gallery_generated.html" := "NEW"]> ∅)) [].

(** A marker is absent from a document when it occurs at no position. *)
Definition marker_absent (marker document : string) : Prop :=
  contains marker document = false.


(** ** Further example directories *)

(** The end marker as it stands in a file whose lines end with a carriage
    return and a line feed. *)
Definition end_marker_crlf : string :=
  "</div>" +:+ chr 13 +:+ nl +:+ "    </div>" +:+ chr 13 +:+ nl +:+
  "  </section>" +:+ chr 13 +:+ nl +:+ chr 13 +:+ nl +:+
  "  <!-- Visa Information Section -->".

(** A page whose lines end with a carriage return and a line feed: the end
    marker, which is written with line feeds, does not occur in it. *)
Definition page_with_crlf : world :=
  World None
    (<["index.html" := "<body>" +:+ chr 13 +:+ nl +:+ start_marker +:+ " old" +:+
                        end_marker_crlf +:+ "</body>"]>
       (<["gallery_generated.html" := "NEW"]> ∅)) [].

(** A page in which the end marker stands before the start marker, with
    lines that end with a carriage return and a line feed, and a fragment
    that ends with a carriage return. *)
Definition page_with_swapped_markers : world :=
  World None
    (<["index.html" := "<body>" +:+ end_marker_crlf +:+ " mid " +:+
                        start_marker +:+ "</body>"]>
       (<["gallery_generated.html" := "NEW" +:+ chr 13]> ∅)) [].

(** A page with both markers and a fragment that opens with the start
    marker. *)
Definition page_with_marked_fragment : world :=
  World None
    (<["index.html" := "<body>" +:+ start_marker +:+ " old" +:+
                        end_marker +:+ "</body>"]>
       (<["gallery_generated.html" := start_marker +:+ ">pictures</div>"]> ∅)) [].

(** A site with two pictures, a text file and a page that has both markers. *)
Definition site_with_pictures : world :=
  World (Some ["temple-gate.jpg"; "notes.txt"; "fuji-view.jpg"])
    (<["index.html" := "<body>" +:+ start_marker +:+ " old" +:+
                        end_marker +:+ "</body>"]> ∅) [].

(** The rule table without the keywords that never decide: ['head-temple-']
    and ['mount-fuji-'], which hold another keyword of their own rule, and
    ['CX-'], which is not lower case. [categorize_image] is compared with
    the categorizer over this table. *)
Definition CATEGORIES_effective : list (string * cat_info) :=
  [ ("members",
      CatInfo "Group Members" "people-fill" ["members-"; "member-"]);
    ("temple",
      CatInfo "Temple & Premises" "building" ["temple-"; "salmon-gate-"]);
    ("fuji",
      CatInfo "Mount Fuji" "mountain" ["fuji-"]);
    ("travel",
      CatInfo "Journey & Travel" "airplane"
              ["cathay-"; "hongkong-"; "narita-"; "airport"; "wagon-"]);
    ("accommodation",
      CatInfo "Hotel & Dining" "house-heart"
              ["fujiyen-hotel"; "dinner-"; "meal-"; "food"]);
    ("local",
      CatInfo "Local Sights" "geo-alt"
              ["fujinomiya-"; "waterfall"; "vending"; "streets"]);
    ("misc",
      CatInfo "Other Moments" "camera" []) ].

(** ** The parser of [generate_gallery_urls.py] *)

(** The characters [str.strip()] removes, among the ASCII ones. *)
Definition is_space (c : ascii) : bool :=
  let n := nat_of_ascii c in
  ((9 <=? n)%nat && (n <=? 13)%nat) || ((28 <=? n)%nat && (n <=? 32)%nat).

(** [s.lstrip()] *)
Fixpoint lstrip (s : string) : string :=
  match s with
  | "" => ""
  | String c s' => if is_space c then lstrip s' else s
  end.

(** [s.rstrip()] *)
Fixpoint rstrip (s : string) : string :=
  match s with
  | "" => ""
  | String c s' =>
      match rstrip s' with
      | "" => if is_space c then "" else String c ""
      | String _ _ as r => String c r
      end
  end.

(** [s.strip()] *)
Definition strip (s : string) : string := rstrip (lstrip s).

(** [s.split(c)] for a single character [c]. *)
Fixpoint split_on (c : ascii) (s : string) : list string :=
  match s with
  | "" => [""]
  | String x s' =>
      match split_on c s' with
      | [] => [String x ""]
      | piece :: pieces =>
          if Ascii.eqb x c then "" :: piece :: pieces
          else String x piece :: pieces
      end
  end.

(** [s[a:-b]] for [a] and [b] that are not negative, [b] positive. *)
Definition slice_inner (a b : nat) (s : string) : string :=
  slice_to (String.length s - b - a) (slice_from a s).

Definition array_opening : string := "const ACTUAL_IMAGES = [".
Definition array_closing : string := "];".

(** [re.search(r'const ACTUAL_IMAGES = \[(.*?)\];', content, re.DOTALL)]
    and [group(1)]. The pattern is a literal, a lazy [.*?] that with
    [DOTALL] takes any character, and a literal: the leftmost match starts
    at the first occurrence of the opening (if no closing follows the first
    one, none follows a later one), and the lazy group stops at the first
    closing after it. [None] when there is no match. *)
Definition array_match (content : string) : option string :=
  let i := find content array_opening in
  if (i =? -1)%Z then None
  else
    let rest := slice_from (Z.to_nat i + String.length array_opening) content in
    let j := find rest array_closing in
    if (j =? -1)%Z then None else Some (slice_to (Z.to_nat j) rest).

(** The loop over the lines of the array. *)
Fixpoint parse_lines (lines : list string) : list string :=
  match lines with
  | [] => []
  | line0 :: rest =>
      let line := strip line0 in
      if startswith "'" line && endswith "'," line then
        slice_inner 1 2 line :: parse_lines rest
      else if startswith "'" line && endswith "'" line then
        slice_inner 1 1 line :: parse_lines rest
      else parse_lines rest
  end.

(** [images] after the parsing; [None] when the name is never bound, which
    raises [NameError] at its first use. *)
Definition parse_image_list (content : string) : option (list string) :=
  array_content ← array_match content;
  Some (parse_lines (split_on (ascii_of_nat 10) array_content)).

(** The opening lines of the script, which read [image_list.js] in text
    mode and parse it; [None] is [FileNotFoundError] or the [NameError]. *)
Definition read_image_list (w : world) : option (list string) :=
  content ← universal_newlines <$> files w !! "image_list.js";
  parse_image_list content.

(** No occurrence of [p] starts inside [a], whatever follows [a]. *)
Definition no_start (p a : string) : Prop :=
  ∀ b j, j < String.length a → startswith p (slice_from j (a +:+ b)) = false.

(** The line written for a name, without its newline. *)
Definition js_line (img : string) : string := "  '" +:+ img +:+ "',".

(** A name that survives the writing and the parsing: no line feed, no
    carriage return and no closing of the array in it. *)
Definition plain_name (img : string) : Prop :=
  contains nl img = false ∧ contains array_closing img = false ∧
  contains (chr 13) img = false.

(** ** The sections of [generate_gallery_urls.py] *)

Definition BASE_URL : string :=
  "https://pub-b6d85dc4453b487d879f35b1669c3da2.r2.dev/images/".

(** [s.replace(old, new)] for a non-empty [old]: the occurrences of [old]
    are replaced from left to right, without overlap. [skip] counts the
    characters of an occurrence that are still to be passed over. *)
Fixpoint replace_from (old new : string) (skip : nat) (s : string) : string :=
  match s with
  | "" => ""
  | String c s' =>
      match skip with
      | S k => replace_from old new k s'
      | O =>
          if startswith old s
          then new +:+ replace_from old new (String.length old - 1) s'
          else String c (replace_from old new 0 s')
      end
  end.

Definition replace (old new s : string) : string := replace_from old new 0 s.

(** The [categories] dict as the script creates it, in insertion order. *)
Definition url_categories : list (string * list string) :=
  [ ("Members & Group Photos", []);
    ("Head Temple & Premises", []);
    ("Mount Fuji Views", []);
    ("Hotels & Accommodation", []);
    ("Travel & Journey", []);
    ("Temple Activities", []);
    ("Local Places & Food", []);
    ("Ceremony & Special Events", []) ].

(** [categories[key].append(img)]; a missing key raises [KeyError]. *)
Fixpoint dict_append (key img : string) (d : list (string * list string))
    : option (list (string * list string)) :=
  match d with
  | [] => None
  | (k, v) :: rest =>
      if String.eqb k key then Some ((k, v ++ [img]) :: rest)
      else rest' ← dict_append key img rest; Some ((k, v) :: rest')
  end.

(** The loop over [unique_images] that fills [categories]. *)
Fixpoint url_categorize_into (d : list (string * list string))
    (images : list string) : option (list (string * list string)) :=
  match images with
  | [] => Some d
  | img :: rest =>
      d' ← dict_append (url_category img) img d;
      url_categorize_into d' rest
  end.

(** The elements of [html_sections]. *)
Inductive section_part :=
| SectionOpen (category : string) (count : nat)
| SectionItem (category img : string)
| SectionClose.

(** [category.lower().replace(' ', '-').replace('&', 'and')] *)
Definition section_id (category : string) : string :=
  replace "&" "and"
    (replace_char (ascii_of_nat 32) (ascii_of_nat 45) (lower category)).

(** [category.lower().replace(' ', '-')] *)
Definition section_gallery (category : string) : string :=
  replace_char (ascii_of_nat 32) (ascii_of_nat 45) (lower category).

(** [img.replace('-', ' ').replace('.jpg', '').replace('.PNG', '').title()] *)
Definition url_alt_text (img : string) : string :=
  title (replace ".PNG" ""
           (replace ".jpg" ""
              (replace_char (ascii_of_nat 45) (ascii_of_nat 32) img))).

(** The text of each element. *)
Definition render_section_part (p : section_part) : string :=
  match p with
  | SectionOpen category count =>
      nl +:+
      "    <!-- " +:+ category +:+ " -->" +:+ nl +:+
      "    <div class=" +:+ q "gallery-category" +:+
        " id=" +:+ q (section_id category) +:+ ">" +:+ nl +:+
      "      <h3 class=" +:+ q "category-title" +:+ ">" +:+ nl +:+
      "        <i class=" +:+ q "bi bi-collection" +:+ "></i> " +:+
        category +:+ nl +:+
      "        <span class=" +:+ q "photo-count" +:+ ">(" +:+
        pretty count +:+ " photos)</span>" +:+ nl +:+
      "      </h3>" +:+ nl +:+
      "      <div class=" +:+ q "gallery-grid" +:+ ">"
  | SectionItem category img =>
      "        <div class=" +:+ q "gallery-item" +:+ ">" +:+ nl +:+
      "          <a href=" +:+ q (BASE_URL +:+ img) +:+
        " class=" +:+ q "glightbox" +:+
        " data-gallery=" +:+ q (section_gallery category) +:+ ">" +:+ nl +:+
      "            <img src=" +:+ q (BASE_URL +:+ img) +:+
        " alt=" +:+ q (url_alt_text img) +:+
        " loading=" +:+ q "lazy" +:+ " />" +:+ nl +:+
      "            <div class=" +:+ q "gallery-overlay" +:+ ">" +:+ nl +:+
      "              <i class=" +:+ q "bi bi-zoom-in" +:+ "></i>" +:+ nl +:+
      "            </div>" +:+ nl +:+
      "          </a>" +:+ nl +:+
      "        </div>"
  | SectionClose =>
      "      </div>" +:+ nl +:+
      "    </div>"
  end.

(** The loop over [categories.items()] that fills [html_sections]: a
    category without image is passed over. *)
Fixpoint html_sections (d : list (string * list string)) : list section_part :=
  match d with
  | [] => []
  | (category, images) :: rest =>
      match images with
      | [] => html_sections rest
      | _ :: _ =>
          [SectionOpen category (length images)] ++
          (SectionItem category <$> images) ++
          [SectionClose] ++ html_sections rest
      end
  end.

(** The closing loop that prints the summary. *)
Fixpoint print_summary (d : list (string * list string)) (w : world) : world :=
  match d with
  | [] => w
  | (category, images) :: rest =>
      print_summary rest
        (match images with
         | [] => w
         | _ :: _ =>
             print ("  " +:+ category +:+ ": " +:+ pretty (length images) +:+
                    " photos") w
         end)
  end.

(** The script as a whole; [None] is an uncaught exception
    ([FileNotFoundError], [NameError] or [KeyError]). *)
Definition generate_gallery_urls (w : world) : option world :=
  images ← read_image_list w;
  let unique := unique_images images in
  categories ← url_categorize_into url_categories unique;
  let sections := html_sections categories in
  let w1 := write_file "gallery_sections.html"
              (join nl (render_section_part <$> sections)) w in
  let w2 := print ("Generated gallery HTML for " +:+ pretty (length unique) +:+
                   " unique images across " +:+
                   pretty (length (filter (λ kv, kv.2 ≠ []) categories)) +:+
                   " categories") w1 in
  let w3 := print "Output saved to gallery_sections.html" w2 in
  let w4 := print (nl +:+ "Category Summary:") w3 in
  Some (print_summary categories w4).

(** What a reader finds in the sections. *)
Definition section_titles (parts : list section_part) : list string :=
  omap (λ p, match p with SectionOpen c _ => Some c | _ => None end) parts.

Definition section_counts (parts : list section_part) : list nat :=
  omap (λ p, match p with SectionOpen _ n => Some n | _ => None end) parts.

Definition section_items (parts : list section_part) : list (string * string) :=
  omap (λ p, match p with SectionItem c img => Some (c, img) | _ => None end)
       parts.

(** The images of a list that the chain sends to a category. *)
Definition url_group_of (category : string) (images : list string) : list string :=
  filter (λ img, url_category img = category) images.

(** A directory with pictures whose names repeat nothing. *)
Definition picture_directory : world :=
  World (Some ["members-2.jpg"; "notes.txt"; "CX-100.JPG"; "temple-gate.jpg";
               "members-ceremony-1.jpg"; "street.png"])
    ∅ [].

(** ** The counting scripts and [force_regenerate.py] *)

(** [converted_dir.glob(...)] on a directory that may be missing: a missing
    directory yields nothing. *)
Definition glob_in (dir : option (list string)) (suffix : string) : list string :=
  match dir with
  | Some entries => glob_suffix suffix entries
  | None => []
  end.

(** [force_regenerate.py]: the three counts are printed, then the text of
    [generate_gallery.py] is executed as the main module, which runs
    [generate_gallery_html()]. The file [generate_gallery.py] is taken to
    be present and to hold the script modelled above. *)
Definition force_regenerate (w : world) : option world :=
  let jpg_files := glob_in (converted_dir w) ".jpg" in
  let png_files := glob_in (converted_dir w) ".png" ++
                   glob_in (converted_dir w) ".PNG" in
  let all_images := sorted (jpg_files ++ png_files) in
  let w1 := print ("Found " +:+ pretty (length all_images) +:+ " total images") w in
  let w2 := print ("  - JPG: " +:+ pretty (length jpg_files)) w1 in
  let w3 := print ("  - PNG: " +:+ pretty (length png_files)) w2 in
  generate_gallery_html w3.

(** The lines ["  {name}\n"] of a report. *)
Fixpoint report_lines (names : list string) : string :=
  match names with
  | [] => ""
  | name :: rest => "  " +:+ name +:+ nl +:+ report_lines rest
  end.

(** The text [count_and_save.py] writes for the three numbers and the two
    lists. *)
Definition count_report (jpg png total : nat) (png_files first_files : list string)
    : string :=
  "JPG files: " +:+ pretty jpg +:+ nl +:+
  "PNG files: " +:+ pretty png +:+ nl +:+
  "Total: " +:+ pretty total +:+ nl +:+ nl +:+
  "PNG Files:" +:+ nl +:+
  report_lines png_files +:+
  nl +:+ "All files (first 20):" +:+ nl +:+
  report_lines first_files.

(** [count_and_save.py] *)
Definition count_and_save (w : world) : world :=
  let jpg_files := sorted (glob_in (converted_dir w) ".jpg") in
  let png_files := sorted (glob_in (converted_dir w) ".png" ++
                           glob_in (converted_dir w) ".PNG") in
  let all_files := sorted (jpg_files ++ png_files) in
  let w1 := write_file "image_count_result.txt"
              (count_report (length jpg_files) (length png_files)
                 (length all_files) png_files (firstn 20 all_files)) w in
  print "Results written to image_count_result.txt" w1.

(** An entry the counting scripts count. *)
Definition counted (entry : string) : Prop :=
  endswith ".jpg" entry = true ∨ endswith ".png" entry = true ∨
  endswith ".PNG" entry = true.

(** ** The conversion loop of [convert_heic_to_jpg.py] *)

Definition heic_suffixes : list string := [".heic"; ".HEIC"; ".heif"; ".HEIF"].

(** The loop over the four patterns. *)
Fixpoint glob_all (suffixes entries : list string) : list string :=
  match suffixes with
  | [] => []
  | suffix :: rest => glob_suffix suffix entries ++ glob_all rest entries
  end.

(** ['=' * n] *)
Fixpoint rule (n : nat) : string :=
  match n with
  | O => ""
  | S n' => String (ascii_of_nat 61) (rule n')
  end.

(** What a run of the converter leaves: the two counters, the names of the
    files written by the conversions that succeeded, and the lines
    printed. *)
Record conversion := Conversion {
  converted_count : nat;
  failed_count : nat;
  written : list string;
  printed : list string
}.

(** The loop over the files. The body of the [try] after the first [print]
    is the work of the imaging library: [convert_image] stands for it and
    answers the text of the two sizes when the file has been written, or
    the text of the exception. *)
Fixpoint convert_loop (convert_image : string → string + string)
    (heic_files : list string) (st : conversion) : conversion :=
  match heic_files with
  | [] => st
  | heic_file :: rest =>
      let output_filename := stem heic_file +:+ ".jpg" in
      let announced :=
        printed st ++
        ["🔄 Converting: " +:+ heic_file +:+ " → " +:+ output_filename] in
      match convert_image heic_file with
      | inl sizes =>
          convert_loop convert_image rest
            (Conversion (S (converted_count st)) (failed_count st)
               (written st ++ [output_filename])
               (announced ++ ["   ✅ Success! (" +:+ sizes +:+ ")"]))
      | inr e =>
          convert_loop convert_image rest
            (Conversion (converted_count st) (S (failed_count st))
               (written st)
               (announced ++ ["   ❌ Failed: " +:+ e]))
      end
  end.

(** [convert_heic_to_jpg(input_dir, output_dir, quality)]; [input_entries]
    lists the input directory ([None] when it does not exist) and
    [output_location] is the text of [output_path.absolute()]. The result
    records the counters, the names written and the lines printed; the
    creation of the output directory and the quality handed to the library
    have no part in them. *)
Definition convert_heic_to_jpg (convert_image : string → string + string)
    (input_dir : string) (input_entries : option (list string))
    (output_location : string) : conversion :=
  match input_entries with
  | None =>
      Conversion 0 0 []
        ["❌ Error: Input directory '" +:+ input_dir +:+ "' does not exist!"]
  | Some entries =>
      let line1 := "📁 Output directory: " +:+ output_location in
      let heic_files := glob_all heic_suffixes entries in
      match heic_files with
      | [] =>
          Conversion 0 0 []
            [line1; "⚠️  No HEIC files found in '" +:+ input_dir +:+ "'"]
      | _ :: _ =>
          let st :=
            convert_loop convert_image heic_files
              (Conversion 0 0 []
                 [line1;
                  nl +:+ "🔍 Found " +:+ pretty (length heic_files) +:+
                    " HEIC file(s) to convert" +:+ nl]) in
          Conversion (converted_count st) (failed_count st) (written st)
            (printed st ++
             [nl +:+ rule 60;
              "📊 Conversion Summary:";
              "   ✅ Successfully converted: " +:+ pretty (converted_count st)] ++
             (if (0 <? failed_count st)%nat
              then ["   ❌ Failed: " +:+ pretty (failed_count st)]
              else []) ++
             ["   📁 Output location: " +:+ output_location;
              rule 60 +:+ nl])
      end
  end.

(** The conversions that succeed. *)
Definition succeeds (convert_image : string → string + string)
    (heic_file : string) : Prop :=
  ∃ sizes, convert_image heic_file = inl sizes.

#[global] Instance succeeds_dec convert_image heic_file :
  Decision (succeeds convert_image heic_file).
Proof.
  unfold succeeds. destruct (convert_image heic_file) as [sizes|e].
  - left. by exists sizes.
  - right. intros [sizes Hs]. discriminate Hs.
Defined.

(** A converter for the examples: files named [bad...] fail. *)
Definition example_converter (heic_file : string) : string + string :=
  if startswith "bad" heic_file then inr "cannot identify image file"
  else inl "10.0 KB → 20.0 KB".

(** ** The written files as a reader meets them

    The texts of the controls, the blocks, the sections and the report are
    spelled out here on their own, apart from the templates of the scripts:
    the theorems compare the files the scripts write with them. *)

(** A string of ASCII characters, on which [lower], [upper] and [title] are
    the methods of Python. *)
Definition is_ascii (c : ascii) : bool := (nat_of_ascii c <? 128)%nat.

Fixpoint ascii_only (s : string) : bool :=
  match s with
  | "" => true
  | String c s' => is_ascii c && ascii_only s'
  end.

(** A text without carriage return, which is read as it is stored. *)
Fixpoint no_carriage_return (s : string) : bool :=
  match s with
  | "" => true
  | String c s' =>
      negb (Ascii.eqb c (ascii_of_nat 13)) && no_carriage_return s'
  end.

(** A text on one line: neither carriage return nor line feed. *)
Fixpoint one_line (s : string) : bool :=
  match s with
  | "" => true
  | String c s' =>
      negb (Ascii.eqb c (ascii_of_nat 13)) &&
      negb (Ascii.eqb c (ascii_of_nat 10)) && one_line s'
  end.

(** A filter control other than the first: the category it selects, its
    icon, the name and the count it displays. *)
Record control := Control {
  control_id : string;
  control_icon : string;
  control_name : string;
  control_count : nat
}.

(** A block of the grid: the category it is filed under, the path of the
    picture (link target and source), the alternative text. *)
Record block := Block {
  block_category : string;
  block_path : string;
  block_alt : string
}.

(** The opening of the filters with the first control, which displays
    [All (total)]. *)
Definition shown_all_control (total : nat) : string :=
  "      <div class=" +:+ dq +:+ "gallery-filters mb-4 text-center" +:+ dq +:+
    ">" +:+ nl +:+
  "        <button class=" +:+ dq +:+ "btn btn-outline-primary active" +:+ dq +:+
    " data-filter=" +:+ dq +:+ "all" +:+ dq +:+ ">" +:+ nl +:+
  "          <i class=" +:+ dq +:+ "bi bi-grid-3x3" +:+ dq +:+ "></i> All (" +:+
    pretty total +:+ ")" +:+ nl +:+
  "        </button>".

(** A control, which displays [name (count)]. *)
Definition shown_control (c : control) : string :=
  "        <button class=" +:+ dq +:+ "btn btn-outline-primary" +:+ dq +:+
    " data-filter=" +:+ dq +:+ control_id c +:+ dq +:+ ">" +:+ nl +:+
  "          <i class=" +:+ dq +:+ "bi bi-" +:+ control_icon c +:+ dq +:+
    "></i> " +:+ control_name c +:+ " (" +:+ pretty (control_count c) +:+ ")" +:+
    nl +:+
  "        </button>".

(** A block. *)
Definition shown_block (b : block) : string :=
  "        <div class=" +:+ dq +:+ "gallery-item" +:+ dq +:+
    " data-category=" +:+ dq +:+ block_category b +:+ dq +:+ ">" +:+ nl +:+
  "          <a href=" +:+ dq +:+ block_path b +:+ dq +:+
    " class=" +:+ dq +:+ "glightbox" +:+ dq +:+
    " data-gallery=" +:+ dq +:+ "tozan-gallery" +:+ dq +:+ ">" +:+ nl +:+
  "            <img src=" +:+ dq +:+ block_path b +:+ dq +:+
    " alt=" +:+ dq +:+ block_alt b +:+ dq +:+
    " loading=" +:+ dq +:+ "lazy" +:+ dq +:+ " />" +:+ nl +:+
  "            <div class=" +:+ dq +:+ "gallery-overlay" +:+ dq +:+ ">" +:+ nl +:+
  "              <i class=" +:+ dq +:+ "bi bi-zoom-in" +:+ dq +:+ "></i>" +:+ nl +:+
  "            </div>" +:+ nl +:+
  "          </a>" +:+ nl +:+
  "        </div>" +:+ nl.

(** The fragment: the first control with the total, the controls, the end
    of the filters and the start of the grid, the blocks, the end of the
    grid, one after the other with a newline between two of them. *)
Definition shown_page (total : nat) (controls : list control)
    (blocks : list block) : string :=
  join nl
    ([shown_all_control total] ++
     (shown_control <$> controls) ++
     ["      </div>" +:+ nl;
      "      <div class=" +:+ dq +:+ "gallery-grid" +:+ dq +:+ ">" +:+ nl] ++
     (shown_block <$> blocks) ++
     ["      </div>"]).

(** The controls expected for a list of images: one per rule of the table
    whose group is not empty, in the order of the table, with the size of
    the group. *)
Definition control_of (images : list string) (rule : string * cat_info)
    : option control :=
  let count := length (group_of rule.1 images) in
  if (0 <? count)%nat
  then Some (Control rule.1 (icon rule.2) (name rule.2) count)
  else None.

Definition controls_of (images : list string) : list control :=
  omap (control_of images) CATEGORIES.

(** The blocks expected for a list of images: category after category in
    the order of the table, and within a category in the order of the
    list. *)
Definition blocks_in_table_order (alt_of : string → string)
    (images : list string) : list block :=
  mjoin ((λ cat_id, (λ img, Block cat_id
                              ("assets/images/gallery/converted/" +:+ img)
                              (alt_of img)) <$> group_of cat_id images)
         <$> ["members"; "temple"; "fuji"; "travel"; "accommodation"; "local";
              "misc"]).

(** A section of the second gallery: its heading, which displays the
    category and [(n photos)] for its [n] images, the items, the end. *)
Definition shown_section (alt_of : string → string)
    (section : string * list string) : list string :=
  [nl +:+
   "    <!-- " +:+ section.1 +:+ " -->" +:+ nl +:+
   "    <div class=" +:+ dq +:+ "gallery-category" +:+ dq +:+
     " id=" +:+ dq +:+ section_id section.1 +:+ dq +:+ ">" +:+ nl +:+
   "      <h3 class=" +:+ dq +:+ "category-title" +:+ dq +:+ ">" +:+ nl +:+
   "        <i class=" +:+ dq +:+ "bi bi-collection" +:+ dq +:+ "></i> " +:+
     section.1 +:+ nl +:+
   "        <span class=" +:+ dq +:+ "photo-count" +:+ dq +:+ ">(" +:+
     pretty (length section.2) +:+ " photos)</span>" +:+ nl +:+
   "      </h3>" +:+ nl +:+
   "      <div class=" +:+ dq +:+ "gallery-grid" +:+ dq +:+ ">"] ++
  ((λ img,
      "        <div class=" +:+ dq +:+ "gallery-item" +:+ dq +:+ ">" +:+ nl +:+
      "          <a href=" +:+ dq +:+
        "https://pub-b6d85dc4453b487d879f35b1669c3da2.r2.dev/images/" +:+ img +:+
        dq +:+ " class=" +:+ dq +:+ "glightbox" +:+ dq +:+
        " data-gallery=" +:+ dq +:+ section_gallery section.1 +:+ dq +:+ ">" +:+
        nl +:+
      "            <img src=" +:+ dq +:+
        "https://pub-b6d85dc4453b487d879f35b1669c3da2.r2.dev/images/" +:+ img +:+
        dq +:+ " alt=" +:+ dq +:+ alt_of img +:+ dq +:+
        " loading=" +:+ dq +:+ "lazy" +:+ dq +:+ " />" +:+ nl +:+
      "            <div class=" +:+ dq +:+ "gallery-overlay" +:+ dq +:+ ">" +:+ nl +:+
      "              <i class=" +:+ dq +:+ "bi bi-zoom-in" +:+ dq +:+ "></i>" +:+ nl +:+
      "            </div>" +:+ nl +:+
      "          </a>" +:+ nl +:+
      "        </div>") <$> section.2) ++
  ["      </div>" +:+ nl +:+
   "    </div>"].

(** The sections one after the other. *)
Definition shown_sections (alt_of : string → string)
    (sections : list (string * list string)) : string :=
  join nl (mjoin (shown_section alt_of <$> sections)).

(** The sections expected for a list of images: one per key of the dict
    whose group is not empty, in the order of the dict. *)
Definition sections_of (images : list string) : list (string * list string) :=
  filter (λ section, section.2 ≠ [])
         ((λ k, (k, url_group_of k images)) <$> url_categories.*1).

(** The pairs of category and image that the sections show. *)
Definition shown_images (sections : list (string * list string))
    : list (string * string) :=
  mjoin ((λ section, (λ img, (section.1, img)) <$> section.2) <$> sections).

(** The lines of names of the report of [count_and_save.py]. *)
Definition shown_names (names : list string) : string :=
  foldr (λ name rest, "  " +:+ name +:+ nl +:+ rest) "" names.

(** * Theorems *)

(** ** Facts about the string primitives *)

Section string_facts.

Lemma lower_char_not_upper (c : ascii) : is_upper (lower_char c) = false.
Proof. destruct c as [[] [] [] [] [] [] [] []]; reflexivity. Qed.

(** A keyword that starts with a capital letter occurs in no lower-cased
    string. *)
Lemma contains_lower_capital (c : ascii) (p s : string) :
  is_upper c = true → contains (String c p) (lower s) = false.
Proof.
  intros Hc. induction s as [|a s IH]; [done|].
  cbn [lower contains startswith]. rewrite IH, orb_false_r.
  destruct (Ascii.eqb_spec c (lower_char a)) as [->|]; [|done].
  by rewrite lower_char_not_upper in Hc.
Qed.

(** [find] answers [-1] or a position. *)
Lemma find_range (s p : string) : (-1 ≤ find s p)%Z.
Proof.
  induction s as [|a s IH]; cbn [find].
  - destruct (startswith p ""); lia.
  - destruct (startswith p (String a s)); [lia|].
    destruct (Z.eqb_spec (find s p) (-1)); lia.
Qed.

(** [find] answers [-1] exactly when the pattern does not occur. *)
Lemma find_absent (s p : string) :
  find s p = (-1)%Z ↔ contains p s = false.
Proof.
  induction s as [|a s IH]; cbn [find contains].
  - destruct (startswith p ""); cbn; split; (done || lia).
  - destruct (startswith p (String a s)); cbn; [split; (done || lia)|].
    rewrite <- IH. pose proof (find_range s p).
    destruct (Z.eqb_spec (find s p) (-1)); split; (done || lia).
Qed.

End string_facts.

(** ** More facts about the string primitives *)

Section more_string_facts.

Lemma string_app_cons (x : ascii) (a b : string) :
  String x a +:+ b = String x (a +:+ b).
Proof. reflexivity. Qed.

Lemma string_app_assoc (a b c : string) : (a +:+ b) +:+ c = a +:+ b +:+ c.
Proof.
  induction a as [|x a IH]; [done|]. rewrite !string_app_cons. by rewrite IH.
Qed.

Lemma string_app_nil_r (a : string) : a +:+ "" = a.
Proof.
  induction a as [|x a IH]; [done|]. rewrite string_app_cons. by rewrite IH.
Qed.

Lemma string_length_app (a b : string) :
  String.length (a +:+ b) = String.length a + String.length b.
Proof.
  induction a as [|x a IH]; [done|]. rewrite string_app_cons. cbn.
  by rewrite IH.
Qed.

Lemma slice_to_app (a b : string) : slice_to (String.length a) (a +:+ b) = a.
Proof.
  induction a as [|x a IH]; [by destruct b|]. rewrite string_app_cons. cbn.
  by rewrite IH.
Qed.

Lemma slice_from_app (a b : string) : slice_from (String.length a) (a +:+ b) = b.
Proof.
  induction a as [|x a IH]; [by destruct b|]. rewrite string_app_cons.
  apply IH.
Qed.

Lemma slice_to_from (i : nat) (s : string) : slice_to i s +:+ slice_from i s = s.
Proof.
  revert s. induction i as [|i IH]; intros [|c s]; try done.
  cbn [slice_to slice_from]. rewrite string_app_cons. by rewrite IH.
Qed.

Lemma startswith_app (p r : string) : startswith p (p +:+ r) = true.
Proof.
  induction p as [|x p IH]; [done|]. rewrite string_app_cons. cbn.
  by rewrite Ascii.eqb_refl.
Qed.

Lemma startswith_refl (p : string) : startswith p p = true.
Proof. induction p as [|x p IH]; [done|]. cbn. by rewrite Ascii.eqb_refl. Qed.

Lemma startswith_app_l (p a b : string) :
  startswith p a = true → startswith p (a +:+ b) = true.
Proof.
  revert a. induction p as [|x p IH]; intros [|y a]; try done.
  rewrite string_app_cons. cbn.
  destruct (Ascii.eqb x y); [apply IH|done].
Qed.

Lemma startswith_inv (p s : string) :
  startswith p s = true → ∃ r, s = p +:+ r.
Proof.
  revert s. induction p as [|x p IH]; intros s Hs; [by exists s|].
  destruct s as [|y s]; [done|]. cbn in Hs.
  destruct (Ascii.eqb_spec x y) as [->|]; [|done].
  destruct (IH s Hs) as [r ->]. by exists r.
Qed.

Lemma contains_app_r (p a b : string) :
  contains p b = true → contains p (a +:+ b) = true.
Proof.
  intros Hb. induction a as [|x a IH]; [done|]. rewrite string_app_cons.
  cbn [contains]. rewrite IH. apply orb_true_r.
Qed.

Lemma contains_app_l (p a b : string) :
  contains p a = true → contains p (a +:+ b) = true.
Proof.
  induction a as [|x a IH]; intros Ha.
  - cbn in Ha. rewrite orb_false_r in Ha.
    apply (startswith_app_l p "" b) in Ha.
    change ("" +:+ b) with b in *.
    destruct b; cbn [contains]; by rewrite Ha.
  - rewrite string_app_cons. cbn [contains] in *.
    apply orb_true_iff in Ha as [Ha|Ha].
    + apply (startswith_app_l _ _ b) in Ha. rewrite string_app_cons in Ha.
      by rewrite Ha.
    + rewrite IH by done. apply orb_true_r.
Qed.

Lemma contains_refl (p : string) : contains p p = true.
Proof. destruct p; cbn [contains]; by rewrite startswith_refl. Qed.

Lemma contains_app_mid (p a b : string) : contains p (a +:+ p +:+ b) = true.
Proof. apply contains_app_r, contains_app_l, contains_refl. Qed.

(** [find] answers the first position at which the pattern occurs. *)
Lemma find_first (s p : string) (i : nat) :
  startswith p (slice_from i s) = true →
  (∀ j, j < i → startswith p (slice_from j s) = false) →
  (i ≤ String.length s)%nat →
  find s p = Z.of_nat i.
Proof.
  revert s. induction i as [|i IH]; intros s Hat Hbefore Hlen.
  - cbn in Hat. destruct s; cbn [find]; by rewrite Hat.
  - destruct s as [|c s]; [cbn in Hlen; lia|].
    cbn [find]. pose proof (Hbefore 0 ltac:(lia)) as H0. cbn in H0.
    rewrite H0, (IH s); [| done | | cbn in Hlen; lia].
    + destruct (Z.eqb_spec (Z.of_nat i) (-1)); lia.
    + intros j Hj. apply (Hbefore (S j)). lia.
Qed.

(** Conversely, what [find] answers is a position of the pattern, and no
    earlier position is. *)
Lemma find_found (s p : string) (z : Z) :
  find s p = z → z ≠ (-1)%Z →
  startswith p (slice_from (Z.to_nat z) s) = true ∧
  (∀ j, j < Z.to_nat z → startswith p (slice_from j s) = false) ∧
  (Z.to_nat z ≤ String.length s)%nat ∧ (0 ≤ z)%Z.
Proof.
  revert z. induction s as [|c s IH]; intros z; cbn [find].
  - destruct (startswith p "") eqn:Hp; intros <- Hne; [|done].
    repeat split; (done || lia).
  - destruct (startswith p (String c s)) eqn:Hp.
    + intros <- _. repeat split; (done || cbn; lia).
    + destruct (Z.eqb_spec (find s p) (-1)) as [|Hne]; [by intros <-|].
      intros <- _. destruct (IH _ eq_refl Hne) as (Hat & Hbefore & Hlen & Hpos).
      replace (Z.to_nat (find s p + 1)) with (S (Z.to_nat (find s p))) by lia.
      repeat split; [done| |cbn; lia|lia].
      intros [|j] Hj; [done|]. apply Hbefore. lia.
Qed.

Lemma find_present (s p : string) :
  find s p ≠ (-1)%Z ↔ contains p s = true.
Proof.
  rewrite find_absent. by destruct (contains p s).
Qed.

(** A pattern occurs in a string exactly when the string splits around
    it. *)
Lemma contains_inv (p s : string) :
  contains p s = true → ∃ pre post, s = pre +:+ p +:+ post.
Proof.
  induction s as [|c s IH]; cbn [contains].
  - rewrite orb_false_r. intros [r ->]%startswith_inv. by exists "", r.
  - intros [[r ->]%startswith_inv|Hs]%orb_true_iff; [by exists "", r|].
    destruct (IH Hs) as (pre & post & ->). by exists (String c pre), post.
Qed.

End more_string_facts.

(** ** Reading in text mode *)

Section newlines.

Lemma universal_newlines_cons (c : ascii) (s : string) :
  universal_newlines (String c s) =
  if Ascii.eqb c (ascii_of_nat 13) then
    match s with
    | "" => String (ascii_of_nat 10) ""
    | String d _ =>
        if Ascii.eqb d (ascii_of_nat 10) then universal_newlines s
        else String (ascii_of_nat 10) (universal_newlines s)
    end
  else String c (universal_newlines s).
Proof. reflexivity. Qed.

Lemma contains_cons (p : string) (c : ascii) (s : string) :
  contains p s = true → contains p (String c s) = true.
Proof. intros Hs. cbn [contains]. rewrite Hs. apply orb_true_r. Qed.

(** A text without carriage return is read as it is stored. *)
Lemma universal_newlines_plain (s : string) :
  no_carriage_return s = true → universal_newlines s = s.
Proof.
  induction s as [|c s IH]; [done|]. cbn [no_carriage_return].
  intros [Hc Hs]%andb_true_iff. apply negb_true_iff in Hc.
  rewrite universal_newlines_cons, Hc. by rewrite IH.
Qed.

(** A text without carriage return at the head of a file is read as it is
    stored, whatever follows. *)
Lemma universal_newlines_app_plain (p r : string) :
  no_carriage_return p = true →
  universal_newlines (p +:+ r) = p +:+ universal_newlines r.
Proof.
  induction p as [|c p IH]; [done|]. cbn [no_carriage_return].
  intros [Hc Hp]%andb_true_iff. apply negb_true_iff in Hc.
  rewrite !string_app_cons, universal_newlines_cons, Hc. by rewrite IH.
Qed.

(** The translation works on each side of a cut on its own, unless the cut
    stands before a line feed. *)
Lemma universal_newlines_app (a b : string) :
  startswith nl b = false →
  universal_newlines (a +:+ b) = universal_newlines a +:+ universal_newlines b.
Proof.
  intros Hb. induction a as [|c a IH]; [done|].
  rewrite string_app_cons, !universal_newlines_cons.
  destruct (Ascii.eqb c (ascii_of_nat 13)); [|by rewrite IH].
  destruct a as [|d a].
  - change ("" +:+ b) with b. destruct b as [|e b]; [done|].
    cbn in Hb. rewrite Ascii.eqb_sym in Hb.
    destruct (Ascii.eqb e (ascii_of_nat 10)); [by destruct b|done].
  - rewrite string_app_cons in IH |- *.
    destruct (Ascii.eqb d (ascii_of_nat 10)); by rewrite IH.
Qed.

(** What is read holds no carriage return. *)
Lemma universal_newlines_no_carriage_return (s : string) :
  no_carriage_return (universal_newlines s) = true.
Proof.
  induction s as [|c s IH]; [done|]. rewrite universal_newlines_cons.
  destruct (Ascii.eqb c (ascii_of_nat 13)) eqn:Hc.
  - destruct s as [|d s]; [done|].
    destruct (Ascii.eqb d (ascii_of_nat 10)); [done|].
    cbn [no_carriage_return]. by rewrite IH.
  - cbn [no_carriage_return]. by rewrite Hc, IH.
Qed.

(** A text without carriage return that occurs in a file occurs in what is
    read from it. *)
Lemma universal_newlines_keeps (p s : string) :
  no_carriage_return p = true →
  contains p s = true → contains p (universal_newlines s) = true.
Proof.
  intros Hp (pre & post & ->)%contains_inv.
  induction pre as [|c pre IH].
  - change ("" +:+ p +:+ post) with (p +:+ post).
    rewrite universal_newlines_app_plain by done.
    apply contains_app_l, contains_refl.
  - rewrite string_app_cons, universal_newlines_cons.
    destruct (Ascii.eqb c (ascii_of_nat 13)); [|by apply contains_cons].
    destruct (pre +:+ p +:+ post) as [|d t]; [by apply contains_cons|].
    destruct (Ascii.eqb d (ascii_of_nat 10)); [done|by apply contains_cons].
Qed.

Lemma one_line_cons (c : ascii) (p : string) :
  one_line (String c p) = true →
  Ascii.eqb c (ascii_of_nat 13) = false ∧
  Ascii.eqb c (ascii_of_nat 10) = false ∧ one_line p = true.
Proof.
  cbn [one_line]. intros [[Hr Hn]%andb_true_iff Hp]%andb_true_iff.
  by apply negb_true_iff in Hr, Hn.
Qed.

Lemma one_line_no_carriage_return (p : string) :
  one_line p = true → no_carriage_return p = true.
Proof.
  induction p as [|c p IH]; [done|].
  intros (Hr & _ & Hp)%one_line_cons. cbn [no_carriage_return].
  by rewrite Hr, IH.
Qed.

(** A text on one line at the head of what is read stands at the head of
    the file. *)
Lemma universal_newlines_prefix_inv (p s r' : string) :
  one_line p = true →
  universal_newlines s = p +:+ r' →
  ∃ r, s = p +:+ r ∧ universal_newlines r = r'.
Proof.
  revert s. induction p as [|d p IH]; intros s Hp Hs; [by exists s|].
  apply one_line_cons in Hp as (Hr & Hn & Hp).
  destruct s as [|e s]; [done|].
  rewrite universal_newlines_cons, string_app_cons in Hs.
  destruct (Ascii.eqb_spec e (ascii_of_nat 13)) as [->|He].
  - exfalso. destruct s as [|f t].
    + injection Hs as <- _. done.
    + destruct (Ascii.eqb_spec f (ascii_of_nat 10)) as [->|Hf].
      * rewrite universal_newlines_cons in Hs. injection Hs as <- _. done.
      * injection Hs as <- _. done.
  - injection Hs as <- Hs. destruct (IH s Hp Hs) as (r & -> & Hread).
    by exists r.
Qed.

(** A text on one line that occurs in what is read occurs in the file, and
    what follows it is read as what follows it. *)
Lemma universal_newlines_split_inv (p s a' r' : string) :
  one_line p = true → p ≠ "" →
  universal_newlines s = a' +:+ p +:+ r' →
  ∃ a r, s = a +:+ p +:+ r ∧ universal_newlines r = r'.
Proof.
  intros Hp Hne. revert a'. induction s as [|e s IH]; intros a' Hs.
  { destruct a', p; done. }
  destruct a' as [|x a'].
  { change ("" +:+ p +:+ r') with (p +:+ r') in Hs.
    destruct (universal_newlines_prefix_inv p _ r' Hp Hs) as (r & -> & Hr).
    by exists "", r. }
  rewrite universal_newlines_cons, string_app_cons in Hs.
  assert (∀ a'', universal_newlines s = a'' +:+ p +:+ r' →
                 ∃ a r, String e s = a +:+ p +:+ r ∧ universal_newlines r = r')
    as Hstep.
  { intros a'' Hs'. destruct (IH a'' Hs') as (a & r & -> & Hr).
    by exists (String e a), r. }
  destruct (Ascii.eqb e (ascii_of_nat 13)).
  - destruct s as [|f t].
    + injection Hs as _ Hs. destruct a', p; done.
    + destruct (Ascii.eqb f (ascii_of_nat 10)).
      * apply (Hstep (String x a')). by rewrite string_app_cons.
      * injection Hs as _ Hs. by apply (Hstep a').
  - injection Hs as _ Hs. by apply (Hstep a').
Qed.

Lemma slice_from_add (i j : nat) (s : string) :
  slice_from (i + j) s = slice_from j (slice_from i s).
Proof.
  revert s. induction i as [|i IH]; intros s; [done|].
  destruct s as [|c s]; [by destruct j|]. apply IH.
Qed.

Lemma slice_from_le_app (a b : string) (j : nat) :
  (j ≤ String.length a)%nat →
  slice_from j (a +:+ b) = slice_from j a +:+ b.
Proof.
  revert j. induction a as [|x a IH]; intros j Hj.
  - cbn in Hj. by replace j with 0 by lia.
  - destruct j as [|j]; [done|]. rewrite string_app_cons. cbn [slice_from].
    apply IH. cbn in Hj. lia.
Qed.

(** The regular expression matches exactly when the opening occurs and the
    closing occurs after it. *)
Lemma array_match_defined (s : string) :
  array_match s ≠ None ↔
  ∃ a b c, s = a +:+ array_opening +:+ b +:+ array_closing +:+ c.
Proof.
  unfold array_match. split.
  - destruct (Z.eqb_spec (find s array_opening) (-1)) as [|Hi]; [done|].
    destruct (find_found _ _ _ eq_refl Hi) as (Hat & _ & _ & _).
    apply startswith_inv in Hat as [r Hr].
    rewrite slice_from_add, Hr, slice_from_app.
    destruct (Z.eqb_spec (find r array_closing) (-1)) as [|Hj]; [done|].
    intros _. apply find_present, contains_inv in Hj as (b & c & ->).
    exists (slice_to (Z.to_nat (find s array_opening)) s), b, c.
    by rewrite <- Hr, slice_to_from.
  - intros (a & b & c & ->).
    set (s := a +:+ array_opening +:+ b +:+ array_closing +:+ c).
    assert (find s array_opening ≠ (-1)%Z) as Hi
      by apply find_present, contains_app_mid.
    destruct (Z.eqb_spec (find s array_opening) (-1)) as [|_]; [done|].
    destruct (find_found _ _ _ eq_refl Hi) as (_ & Hbefore & _ & _).
    assert (Z.to_nat (find s array_opening) ≤ String.length a)%nat as Hle.
    { destruct (decide (String.length a < Z.to_nat (find s array_opening)))
        as [Hlt|]; [|lia].
      apply Hbefore in Hlt. unfold s in Hlt.
      by rewrite slice_from_app, startswith_app in Hlt. }
    assert (contains array_closing
              (slice_from (Z.to_nat (find s array_opening) +
                           String.length array_opening) s) = true) as Hc.
    { unfold s at 2.
      replace (a +:+ array_opening +:+ b +:+ array_closing +:+ c)
        with ((a +:+ array_opening) +:+ b +:+ array_closing +:+ c)
        by (by rewrite string_app_assoc).
      rewrite slice_from_le_app by (rewrite string_length_app; lia).
      apply contains_app_r, contains_app_mid. }
    apply find_present in Hc.
    by destruct (Z.eqb_spec
                   (find (slice_from (Z.to_nat (find s array_opening) +
                                      String.length array_opening) s)
                         array_closing) (-1)).
Qed.

(** The translation of the line endings neither makes nor breaks a match of
    the regular expression. *)
Lemma array_match_universal_newlines (s : string) :
  array_match (universal_newlines s) = None ↔ array_match s = None.
Proof.
  assert (array_match (universal_newlines s) ≠ None ↔ array_match s ≠ None)
    as Hiff.
  { rewrite !array_match_defined. split.
    - intros (a' & b' & c' & Hs).
      apply universal_newlines_split_inv in Hs as (a & r & -> & Hr); [|done..].
      apply universal_newlines_split_inv in Hr as (b & c & -> & _); [|done..].
      by exists a, b, c.
    - intros (a & b & c & ->).
      exists (universal_newlines a), (universal_newlines b),
        (universal_newlines c).
      rewrite universal_newlines_app by done.
      rewrite (universal_newlines_app_plain array_opening) by done.
      rewrite universal_newlines_app by done.
      by rewrite (universal_newlines_app_plain array_closing) by done. }
  destruct (array_match (universal_newlines s)), (array_match s);
    split; intros H; try done; exfalso.
  - by apply (proj1 Hiff).
  - by apply (proj2 Hiff).
Qed.

End newlines.

(** ** The categorizer *)

Section categorizer.

Lemma any_pattern_in_true (pats : list string) (fl : string) :
  any_pattern_in pats fl = true ↔ ∃ kw, kw ∈ pats ∧ contains kw fl = true.
Proof.
  induction pats as [|p pats IH]; cbn [any_pattern_in].
  - split; [done|]. intros (kw & Hin & _). by apply elem_of_nil in Hin.
  - destruct (contains p fl) eqn:Hp.
    + split; [|done]. intros _. exists p. split; [left|done].
    + rewrite IH. split.
      * intros (kw & Hin & Hkw). exists kw. split; [by right|done].
      * intros (kw & Hin & Hkw). apply elem_of_cons in Hin as [->|Hin];
          [congruence|]. by exists kw.
Qed.

Lemma any_pattern_in_rule (rule : string * cat_info) (fl : string) :
  any_pattern_in (patterns rule.2) fl = true ↔ rule_matches rule fl.
Proof. apply any_pattern_in_true. Qed.

(** The loop passes over rules that do not match. *)
Lemma categorize_loop_skip (pre rest : list (string * cat_info)) (fl : string) :
  (∀ Q, Q ∈ pre → ¬ rule_matches Q fl) →
  categorize_loop (pre ++ rest) fl = categorize_loop rest fl.
Proof.
  induction pre as [|[cat_id info] pre IH]; intros Hpre; [done|].
  cbn [app categorize_loop].
  rewrite IH by (intros Q HQ; apply Hpre; by right).
  destruct (String.eqb cat_id "misc"); [done|].
  destruct (any_pattern_in (patterns info) fl) eqn:Hany; [|done].
  exfalso. apply (Hpre (cat_id, info)); [left|].
  by apply any_pattern_in_rule.
Qed.

(** The loop stops at a rule that matches, unless it is the [misc] entry. *)
Lemma categorize_loop_hit (R : string * cat_info)
    (post : list (string * cat_info)) (fl : string) :
  R.1 ≠ "misc" → rule_matches R fl →
  categorize_loop (R :: post) fl = Some R.1.
Proof.
  destruct R as [cat_id info]; cbn [fst categorize_loop]. intros Hne HR.
  apply String.eqb_neq in Hne as ->.
  apply any_pattern_in_rule in HR. cbn [snd] in HR. by rewrite HR.
Qed.

Lemma keys_NoDup : NoDup (keys CATEGORIES).
Proof. apply (bool_decide_unpack _). vm_compute. exact I. Qed.

(** In the table only the catch-all is called [misc], and it has no
    keyword. *)
Lemma misc_never_matches (R : string * cat_info) (fl : string) :
  R ∈ CATEGORIES → rule_matches R fl → R.1 ≠ "misc".
Proof.
  intros HR (kw & Hkw & _) Hmisc. unfold CATEGORIES in HR.
  repeat (apply elem_of_cons in HR as [->|HR]; [try discriminate Hmisc|]).
  - by apply elem_of_nil in Hkw.
  - by apply elem_of_nil in HR.
Qed.

(** The returned identifier is a key of the table. *)
Lemma categorize_image_key (filename : string) :
  categorize_image filename ∈ keys CATEGORIES.
Proof.
  unfold categorize_image, categorize_image_in.
  generalize (lower filename) as fl. intros fl.
  cbn [CATEGORIES categorize_loop String.eqb Ascii.eqb Bool.eqb patterns].
  repeat match goal with
         | |- context [any_pattern_in ?ps fl] =>
             destruct (any_pattern_in ps fl)
         end;
    apply (bool_decide_unpack _); vm_compute; exact I.
Qed.

End categorizer.

Section first_match.

Lemma categorize_image_at (filename : string)
    (pre : list (string * cat_info)) (R : string * cat_info)
    (post : list (string * cat_info)) :
  CATEGORIES = pre ++ R :: post →
  rule_matches R (lower filename) →
  (∀ Q, Q ∈ pre → ¬ rule_matches Q (lower filename)) →
  categorize_image filename = R.1.
Proof.
  intros Htable HR Hpre. unfold categorize_image, categorize_image_in.
  rewrite Htable, categorize_loop_skip by done.
  rewrite categorize_loop_hit; [done| |done].
  apply (misc_never_matches R (lower filename)); [|done].
  rewrite Htable. apply elem_of_app. right. left.
Qed.

Lemma categorize_image_default (filename : string) :
  (∀ Q, Q ∈ CATEGORIES → ¬ rule_matches Q (lower filename)) →
  categorize_image filename = "misc".
Proof.
  intros Hnone. unfold categorize_image, categorize_image_in.
  rewrite <- (app_nil_r CATEGORIES). by rewrite categorize_loop_skip.
Qed.

(** C1 (as amended). [categorize_image] lower-cases the filename and returns
    the identifier of the first rule, in table order, one of whose keywords
    occurs in the lower-cased filename, and [misc] when no rule has one.
    In particular, when a keyword of rule [R] and a keyword of a later rule
    [S] both occur and no rule before [R] matches, the result is the
    identifier of [R] and not the one of [S]. *)
Theorem categorize_image_first_match (filename : string) :
  (∀ pre R post,
      CATEGORIES = pre ++ R :: post →
      rule_matches R (lower filename) →
      (∀ Q, Q ∈ pre → ¬ rule_matches Q (lower filename)) →
      categorize_image filename = R.1) ∧
  ((∀ Q, Q ∈ CATEGORIES → ¬ rule_matches Q (lower filename)) →
   categorize_image filename = "misc") ∧
  (∀ pre R mid S post,
      CATEGORIES = pre ++ R :: mid ++ S :: post →
      rule_matches R (lower filename) →
      rule_matches S (lower filename) →
      (∀ Q, Q ∈ pre → ¬ rule_matches Q (lower filename)) →
      categorize_image filename = R.1 ∧ categorize_image filename ≠ S.1).
Proof.
  split; [|split].
  - intros pre R post. apply categorize_image_at.
  - apply categorize_image_default.
  - intros pre R mid S post Htable HR HS Hpre.
    rewrite (categorize_image_at filename pre R (mid ++ S :: post)) by done.
    split; [done|]. intros Heq.
    pose proof keys_NoDup as Hnd. unfold keys in Hnd.
    rewrite Htable, fmap_app, fmap_cons, fmap_app, fmap_cons in Hnd.
    apply NoDup_app in Hnd as (_ & _ & Hnd).
    apply NoDup_cons in Hnd as [Hnotin _].
    apply Hnotin. rewrite Heq. apply elem_of_app. right. left.
Qed.

(** The theorem at ["Fuji-Temple-1.JPG"]: [temple] precedes [fuji], both
    match, [members] does not. *)
Lemma categorize_image_first_match_witness :
  categorize_image "Fuji-Temple-1.JPG" = "temple" ∧
  categorize_image "Fuji-Temple-1.JPG" ≠ "fuji".
Proof.
  destruct (categorize_image_first_match "Fuji-Temple-1.JPG") as (_ & _ & H).
  apply (H [("members", CatInfo "Group Members" "people-fill" ["members-"; "member-"])]
           ("temple", CatInfo "Temple & Premises" "building"
                        ["temple-"; "head-temple-"; "salmon-gate-"])
           []
           ("fuji", CatInfo "Mount Fuji" "mountain" ["mount-fuji-"; "fuji-"])
           (drop 3 CATEGORIES)).
  - reflexivity.
  - exists "temple-". split; [left|reflexivity].
  - exists "fuji-". split; [right; left|reflexivity].
  - intros Q HQ (kw & Hkw & Hc).
    apply list_elem_of_singleton in HQ as ->. cbn in Hkw.
    apply elem_of_cons in Hkw as [->|Hkw]; [discriminate Hc|].
    apply list_elem_of_singleton in Hkw as ->. discriminate Hc.
Defined.

(** C1, counterexample to the sentence as written: ["member-temple-fuji-.jpg"]
    contains a keyword of [temple] and a keyword of [fuji], [temple] precedes
    [fuji], and the returned category is [members], the earlier rule that
    matches as well. *)
Lemma categorize_image_earlier_rule_counterexample :
  ¬ (∀ filename pre R mid S post,
       CATEGORIES = pre ++ R :: mid ++ S :: post →
       rule_matches R (lower filename) →
       rule_matches S (lower filename) →
       categorize_image filename = R.1).
Proof.
  intros H.
  specialize (H "member-temple-fuji-.jpg"
    [("members", CatInfo "Group Members" "people-fill" ["members-"; "member-"])]
    ("temple", CatInfo "Temple & Premises" "building"
                 ["temple-"; "head-temple-"; "salmon-gate-"])
    []
    ("fuji", CatInfo "Mount Fuji" "mountain" ["mount-fuji-"; "fuji-"])
    (drop 3 CATEGORIES)).
  assert (categorize_image "member-temple-fuji-.jpg" = "members") as Hrun
    by reflexivity.
  rewrite Hrun in H. discriminate H.
  - reflexivity.
  - exists "temple-". split; [left|reflexivity].
  - exists "fuji-". split; [right; left|reflexivity].
Qed.

(** The example of the specification: three rules, three files. *)
Lemma categorize_image_in_example :
  categorize_image_in
    [("temple", CatInfo "Temple" "building" ["temple-"]);
     ("fuji", CatInfo "Fuji" "mountain" ["fuji-"]);
     ("misc", CatInfo "Misc" "camera" [])]
    <$> ["temple-gate.jpg"; "fuji-view.jpg"; "random.jpg"] =
  ["temple"; "fuji"; "misc"].
Proof. reflexivity. Qed.

(** The same files under the table of the script: one control each. *)
Lemma html_parts_example :
  (button_ids <$> html_parts ["fuji-view.jpg"; "random.jpg"; "temple-gate.jpg"]) =
    Some ["temple"; "fuji"; "misc"] ∧
  (button_counts <$> html_parts ["fuji-view.jpg"; "random.jpg"; "temple-gate.jpg"]) =
    Some [1; 1; 1] ∧
  (all_counts <$> html_parts ["fuji-view.jpg"; "random.jpg"; "temple-gate.jpg"]) =
    Some [3].
Proof. repeat split; reflexivity. Qed.

(** In [generate_gallery_urls.py] the first branch that matches decides as
    well, but its first branch has two outcomes. *)
Lemma url_category_members_ceremony :
  url_category "members-ceremony-1.jpg" = "Ceremony & Special Events" ∧
  url_category "members-temple-1.jpg" = "Members & Group Photos" ∧
  url_category "temple-fuji-1.jpg" = "Head Temple & Premises".
Proof. repeat split; reflexivity. Qed.

(** C9. The keyword ["CX-"] of the [travel] rule occurs in no lower-cased
    filename, so that [travel] is returned only through one of the other
    five keywords; ["CX-100.jpg"] has none of them and falls to [misc]. *)
Theorem CX_keyword_never_matches :
  (∃ info, ("travel", info) ∈ CATEGORIES ∧ "CX-" ∈ patterns info) ∧
  (∀ filename, contains "CX-" (lower filename) = false) ∧
  (∀ filename,
      categorize_image filename = "travel" →
      any_pattern_in ["cathay-"; "hongkong-"; "narita-"; "airport"; "wagon-"]
        (lower filename) = true) ∧
  categorize_image "CX-100.jpg" = "misc".
Proof.
  split; [|split; [|split]].
  - eexists. split.
    + do 3 right. left.
    + cbn [patterns]. do 4 right. left.
  - intros filename. by apply contains_lower_capital.
  - intros filename. unfold categorize_image, categorize_image_in.
    pose proof (contains_lower_capital "C" "X-" filename eq_refl) as HCX.
    revert HCX. generalize (lower filename) as fl. intros fl HCX.
    cbn [CATEGORIES categorize_loop String.eqb Ascii.eqb Bool.eqb patterns
         any_pattern_in].
    rewrite HCX.
    repeat match goal with
           | |- context [contains ?p fl] => destruct (contains p fl)
           end; (reflexivity || discriminate).
  - reflexivity.
Qed.

End first_match.

(** ** Grouping *)

Section grouping.

Implicit Types (m : gmap string (list string)) (images : list string).

Lemma init_groups_lookup (cats : list string) m (k : string) :
  foldl (λ m cat, <[cat := []]> m) m cats !! k =
  if decide (k ∈ cats) then Some [] else m !! k.
Proof.
  revert m. induction cats as [|c cats IH]; intros m; cbn [foldl].
  - by rewrite decide_False by apply not_elem_of_nil.
  - rewrite IH. destruct (decide (k ∈ cats)) as [Hin|Hnotin].
    + by rewrite decide_True by (by right).
    + destruct (decide (k = c)) as [->|Hne].
      * rewrite decide_True by left. apply lookup_insert_eq.
      * rewrite decide_False by (rewrite elem_of_cons; tauto).
        by apply lookup_insert_ne.
Qed.

Lemma empty_groups_lookup (k : string) :
  empty_groups CATEGORIES !! k =
  if decide (k ∈ keys CATEGORIES) then Some [] else None.
Proof. unfold empty_groups. by rewrite init_groups_lookup, lookup_empty. Qed.

Lemma group_of_cons_same (img : string) images :
  group_of (categorize_image img) (img :: images) =
  img :: group_of (categorize_image img) images.
Proof. unfold group_of. by rewrite filter_cons_True. Qed.

Lemma group_of_cons_other (k img : string) images :
  categorize_image img ≠ k → group_of k (img :: images) = group_of k images.
Proof. intros Hne. unfold group_of. by rewrite filter_cons_False. Qed.

(** The loop appends every image to the group of its category and raises
    nothing, as long as every key of the table is present. *)
Lemma categorize_into_spec m images :
  (∀ k, k ∈ keys CATEGORIES → is_Some (m !! k)) →
  ∃ m', categorize_into m images = Some m' ∧
        ∀ k, m' !! k = (λ g, g ++ group_of k images) <$> m !! k.
Proof.
  revert m. induction images as [|img images IH]; intros m Hkeys.
  - exists m. split; [done|]. intros k. destruct (m !! k); cbn; [|done].
    by rewrite app_nil_r.
  - destruct (Hkeys _ (categorize_image_key img)) as [g Hg].
    cbn [categorize_into]. unfold append_to. rewrite Hg.
    cbn [mbind option_bind].
    destruct (IH (<[categorize_image img := g ++ [img]]> m)) as (m' & Hrun & Hm').
    { intros k Hk. rewrite lookup_insert_is_Some. destruct (Hkeys k Hk).
      destruct (decide (categorize_image img = k)); eauto. }
    exists m'. split; [done|]. intros k. rewrite Hm'.
    destruct (decide (categorize_image img = k)) as [<-|Hne].
    + rewrite lookup_insert_eq, Hg, group_of_cons_same. cbn.
      by rewrite <- app_assoc.
    + by rewrite lookup_insert_ne, group_of_cons_other.
Qed.

(** [categorized] after the loop: every key of the table holds the images
    the categorizer sends to it, in input order, and there is no other
    key. *)
Lemma categorize_all_spec images :
  ∃ m, categorize_all images = Some m ∧
       ∀ k, m !! k = if decide (k ∈ keys CATEGORIES)
                     then Some (group_of k images) else None.
Proof.
  destruct (categorize_into_spec (empty_groups CATEGORIES) images)
    as (m & Hrun & Hm).
  { intros k Hk. rewrite empty_groups_lookup, decide_True by done. eauto. }
  exists m. split; [done|]. intros k. rewrite Hm, empty_groups_lookup.
  by destruct (decide (k ∈ keys CATEGORIES)).
Qed.

Lemma filter_buttons_spec (items : list (string * cat_info)) m images :
  (∀ rule, rule ∈ items → m !! rule.1 = Some (group_of rule.1 images)) →
  filter_buttons items m = Some (omap (control_for images) items).
Proof.
  induction items as [|[cat_id info] items IH]; intros Hm; [done|].
  cbn [filter_buttons omap list_omap].
  pose proof (Hm (cat_id, info) ltac:(left)) as Hhd. cbn [fst] in Hhd.
  rewrite Hhd, IH by (intros rule Hr; apply Hm; by right).
  cbn [mbind option_bind]. f_equal.
  assert (control_for images (cat_id, info) =
          if (0 <? length (group_of cat_id images))%nat
          then Some (FilterButton cat_id (icon info) (name info)
                       (length (group_of cat_id images)))
          else None) as -> by reflexivity.
  by destruct (0 <? length (group_of cat_id images))%nat.
Qed.

Lemma gallery_items_spec (cat_ids : list string) m images :
  (∀ k, k ∈ cat_ids → m !! k = Some (group_of k images)) →
  gallery_items cat_ids m = Some (mjoin (blocks_for images <$> cat_ids)).
Proof.
  induction cat_ids as [|k cat_ids IH]; intros Hm; [done|].
  cbn [gallery_items]. rewrite (Hm k) by left.
  by rewrite IH by (intros k' Hk'; apply Hm; by right).
Qed.

Lemma rule_key (rule : string * cat_info) :
  rule ∈ CATEGORIES → rule.1 ∈ keys CATEGORIES.
Proof. intros Hr. unfold keys. apply list_elem_of_fmap. by exists rule. Qed.

(** [html_parts] in closed form: the opening with the total, the controls
    in table order, the two separators, the blocks in table order, the
    closing. *)
Lemma html_parts_layout images :
  html_parts images =
  Some ([FiltersOpen (length images)] ++
        omap (control_for images) CATEGORIES ++
        [FiltersClose; GridOpen] ++
        mjoin (blocks_for images <$> keys CATEGORIES) ++
        [GridClose]).
Proof.
  unfold html_parts, build_html_parts.
  destruct (categorize_all_spec images) as (m & -> & Hm).
  cbn [mbind option_bind].
  rewrite (filter_buttons_spec CATEGORIES m images).
  - rewrite (gallery_items_spec (keys CATEGORIES) m images); [done|].
    intros k Hk. by rewrite Hm, decide_True.
  - intros rule Hr. by rewrite Hm, decide_True by by apply rule_key.
Qed.

End grouping.

(** ** Counting *)

Section counting.

Implicit Types (images : list string) (ks : list string).

Lemma indicator_sum_absent (c : string) ks :
  c ∉ ks → sum_list ((λ k, if decide (c = k) then 1 else 0) <$> ks) = 0.
Proof.
  induction ks as [|k ks IH]; intros Hc; [done|].
  apply not_elem_of_cons in Hc as [Hne Hc]. cbn.
  by rewrite decide_False, IH.
Qed.

Lemma indicator_sum_present (c : string) ks :
  NoDup ks → c ∈ ks →
  sum_list ((λ k, if decide (c = k) then 1 else 0) <$> ks) = 1.
Proof.
  induction ks as [|k ks IH]; intros Hnd Hc.
  - by apply elem_of_nil in Hc.
  - apply NoDup_cons in Hnd as [Hk Hnd]. cbn.
    destruct (decide (c = k)) as [->|Hne].
    + by rewrite indicator_sum_absent.
    + apply elem_of_cons in Hc as [?|Hc]; [done|]. by rewrite IH.
Qed.

Lemma group_sizes_cons (img : string) images ks :
  sum_list ((λ k, length (group_of k (img :: images))) <$> ks) =
  sum_list ((λ k, if decide (categorize_image img = k) then 1 else 0) <$> ks) +
  sum_list ((λ k, length (group_of k images)) <$> ks).
Proof.
  induction ks as [|k ks IH]; [done|]. cbn [fmap list_fmap sum_list_with].
  change (list_fmap _ _ ?f ks) with (f <$> ks). rewrite IH.
  destruct (decide (categorize_image img = k)) as [<-|Hne].
  - rewrite group_of_cons_same. cbn. lia.
  - rewrite group_of_cons_other by done. cbn. lia.
Qed.

(** The sizes of the groups of the keys add up to the number of images. *)
Lemma group_sizes_sum images :
  sum_list ((λ k, length (group_of k images)) <$> keys CATEGORIES) =
  length images.
Proof.
  induction images as [|img images IH].
  - generalize (keys CATEGORIES). intros ks. by induction ks.
  - rewrite group_sizes_cons, IH.
    by rewrite indicator_sum_present
      by (apply keys_NoDup || apply categorize_image_key).
Qed.

Lemma button_counts_app (l1 l2 : list part) :
  button_counts (l1 ++ l2) = button_counts l1 ++ button_counts l2.
Proof. apply omap_app. Qed.

Lemma button_ids_app (l1 l2 : list part) :
  button_ids (l1 ++ l2) = button_ids l1 ++ button_ids l2.
Proof. apply omap_app. Qed.

Lemma all_counts_app (l1 l2 : list part) :
  all_counts (l1 ++ l2) = all_counts l1 ++ all_counts l2.
Proof. apply omap_app. Qed.

Lemma item_blocks_app (l1 l2 : list part) :
  item_blocks (l1 ++ l2) = item_blocks l1 ++ item_blocks l2.
Proof. apply filter_app. Qed.

Lemma button_cons (c i n : string) (count : nat) (l : list part) :
  all_counts (FilterButton c i n count :: l) = all_counts l ∧
  button_ids (FilterButton c i n count :: l) = c :: button_ids l ∧
  button_counts (FilterButton c i n count :: l) = count :: button_counts l.
Proof. done. Qed.

(** The blocks carry no control and no total. *)
Lemma blocks_no_controls images ks :
  button_ids (mjoin (blocks_for images <$> ks)) = [] ∧
  button_counts (mjoin (blocks_for images <$> ks)) = [] ∧
  all_counts (mjoin (blocks_for images <$> ks)) = [] ∧
  item_blocks (mjoin (blocks_for images <$> ks)) =
    mjoin (blocks_for images <$> ks).
Proof.
  induction ks as [|k ks (IH1 & IH2 & IH3 & IH4)]; [done|].
  rewrite fmap_cons.
  change (mjoin (blocks_for images k :: (blocks_for images <$> ks)))
    with (blocks_for images k ++ mjoin (blocks_for images <$> ks)).
  rewrite button_ids_app, button_counts_app, all_counts_app, item_blocks_app,
    IH1, IH2, IH3, IH4.
  unfold blocks_for. generalize (group_of k images). intros g.
  assert (button_ids (gallery_item k <$> g) = [] ∧
          button_counts (gallery_item k <$> g) = [] ∧
          all_counts (gallery_item k <$> g) = [] ∧
          item_blocks (gallery_item k <$> g) = gallery_item k <$> g)
    as (-> & -> & -> & ->); [|done].
  induction g as [|img g (IHa & IHb & IHc & IHd)]; [done|].
  repeat split; [done..|].
  unfold item_blocks in *. cbn [fmap list_fmap].
  rewrite filter_cons_True by done. f_equal. apply IHd.
Qed.

(** The controls carry no block and no total; their counts are the sizes of
    the groups, the empty ones left out. *)
Lemma controls_contents images (items : list (string * cat_info)) :
  item_blocks (omap (control_for images) items) = [] ∧
  all_counts (omap (control_for images) items) = [] ∧
  button_ids (omap (control_for images) items) =
    filter (λ k, group_of k images ≠ []) items.*1 ∧
  sum_list (button_counts (omap (control_for images) items)) =
    sum_list ((λ k, length (group_of k images)) <$> items.*1) ∧
  (0 ∉ button_counts (omap (control_for images) items)).
Proof.
  induction items as [|[k info] items (IH1 & IH2 & IH3 & IH4 & IH5)].
  { repeat split; try done. apply not_elem_of_nil. }
  cbn [omap list_omap fmap list_fmap fst].
  change (list_omap _ _ ?f items) with (omap f items).
  change (list_fmap _ _ ?f items) with (f <$> items).
  destruct (group_of k images) as [|img g] eqn:Hg.
  - assert (control_for images (k, info) = None) as ->
      by (unfold control_for; cbn [fst]; by rewrite Hg).
    by rewrite filter_cons_False by (rewrite Hg; intros H; by apply H).
  - assert (control_for images (k, info) =
            Some (FilterButton k (icon info) (name info) (S (length g))))
      as -> by (unfold control_for; cbn [fst snd]; by rewrite Hg).
    rewrite filter_cons_True by (by rewrite Hg).
    unfold item_blocks in *. rewrite filter_cons_False by done.
    destruct (button_cons k (icon info) (name info) (S (length g))
                (omap (control_for images) items)) as (-> & -> & ->).
    rewrite IH2, IH3. repeat split; try done.
    + cbn. by rewrite IH4.
    + rewrite elem_of_cons. intros [?|?]; [lia|done].
Qed.

End counting.

(** ** What [generate_gallery_html] writes *)

Section writing.

Lemma print_breakdown_spec (items : list (string * cat_info))
    (m : gmap string (list string)) (w : world) :
  (∀ rule, rule ∈ items → is_Some (m !! rule.1)) →
  ∃ w', print_breakdown items m w = Some w' ∧
        files w' = files w ∧ converted_dir w' = converted_dir w.
Proof.
  revert w. induction items as [|[k info] items IH]; intros w Hm.
  - by exists w.
  - destruct (Hm (k, info)) as [g Hg]; [left|]. cbn [fst] in Hg.
    cbn [print_breakdown]. rewrite Hg. cbn [mbind option_bind].
    destruct (IH (if (0 <? length g)%nat
                  then print ("   " +:+ name info +:+ ": " +:+
                              pretty (length g) +:+ " images") w
                  else w)) as (w' & Hrun & Hfiles & Hdir).
    { intros rule Hr. apply Hm. by right. }
    exists w'. split; [done|]. rewrite Hfiles, Hdir.
    by destruct (0 <? length g)%nat.
Qed.

(** With at least one image the script writes the joined parts to the output
    file, touches no other file, and raises nothing. *)
Lemma generate_gallery_html_writes (w : world) (entries : list string) :
  converted_dir w = Some entries →
  sorted (glob_suffix ".jpg" entries) ≠ [] →
  ∃ w' parts,
    generate_gallery_html w = Some w' ∧
    html_parts (sorted (glob_suffix ".jpg" entries)) = Some parts ∧
    files w' = <[output_file := join nl (render_part <$> parts)]> (files w).
Proof.
  intros Hdir Hne. unfold generate_gallery_html. rewrite Hdir.
  destruct (sorted (glob_suffix ".jpg" entries)) as [|img images] eqn:Himgs;
    [done|].
  destruct (categorize_all_spec (img :: images)) as (m & Hm & Hlook).
  pose proof (html_parts_layout (img :: images)) as Hparts.
  unfold html_parts in Hparts. rewrite Hm in Hparts |- *.
  cbn [mbind option_bind] in Hparts |- *. rewrite Hparts.
  cbn [mbind option_bind].
  match goal with
  | |- context [print_breakdown CATEGORIES m ?w0] =>
      destruct (print_breakdown_spec CATEGORIES m w0) as (w' & -> & Hf & _)
  end.
  { intros rule Hr. rewrite Hlook, decide_True by by apply rule_key. eauto. }
  eexists w', _. split; [done|]. split; [apply html_parts_layout|].
  by rewrite Hf.
Qed.

(** The fragment in the output file is the rendering of [html_parts] at the
    sorted scan. *)
Lemma generate_gallery_html_renders (images : list string) (parts : list part)
    (w : world) (entries : list string) :
  html_parts images = Some parts →
  converted_dir w = Some entries →
  images = sorted (glob_suffix ".jpg" entries) →
  images ≠ [] →
  ∃ w', generate_gallery_html w = Some w' ∧
        files w' !! output_file = Some (join nl (render_part <$> parts)).
Proof.
  intros Hparts Hdir -> Hne.
  destruct (generate_gallery_html_writes w entries Hdir Hne)
    as (w' & parts' & Hrun & Hparts' & Hfiles).
  exists w'. split; [done|].
  rewrite Hfiles, lookup_insert_eq. congruence.
Qed.

Lemma files_print_all (lines : list string) (w : world) :
  files (print_all lines w) = files w.
Proof.
  revert w. induction lines as [|l lines IH]; intros w; [done|].
  cbn [print_all]. by rewrite IH.
Qed.

(** [generate_image_list] writes the sorted scan as a script literal and
    touches no other file. *)
Lemma generate_image_list_writes (w : world) (entries : list string) :
  converted_dir w = Some entries →
  files (generate_image_list w) =
    <["image_list.js" := js_array (image_names entries)]> (files w).
Proof.
  intros Hdir. unfold generate_image_list. rewrite Hdir.
  by rewrite files_print_all.
Qed.

End writing.

(** ** Every image in one group *)

Section partition.

Lemma keyed_fst (f : string → list string) (ks : list string) :
  ((λ k, (k, f k)) <$> ks).*1 = ks.
Proof. induction ks as [|k ks IH]; [done|]. cbn. f_equal. apply IH. Qed.

(** The sizes of the groups of [categorized] add up to the number of
    images. *)
Lemma total_size_groups (m : gmap string (list string)) (images : list string) :
  (∀ k, m !! k = if decide (k ∈ keys CATEGORIES)
                 then Some (group_of k images) else None) →
  total_size m = length images.
Proof.
  intros Hm.
  set (L := (λ k, (k, group_of k images)) <$> keys CATEGORIES).
  assert (NoDup L.*1) as Hnd by (unfold L; rewrite keyed_fst; apply keys_NoDup).
  assert (m = list_to_map L) as ->.
  { apply map_eq. intros k. rewrite Hm. symmetry.
    destruct (decide (k ∈ keys CATEGORIES)) as [Hk|Hk].
    - apply elem_of_list_to_map_1; [done|].
      unfold L. apply list_elem_of_fmap. by exists k.
    - apply not_elem_of_list_to_map_1. unfold L. by rewrite keyed_fst. }
  unfold total_size. rewrite map_to_list_to_map by done.
  unfold L. rewrite <- list_fmap_compose. apply group_sizes_sum.
Qed.

(** C2. The grouping loop raises nothing; afterwards every key of the table
    holds exactly the images the categorizer sends to it, so that every
    input image is in the group of one category and of no other, and the
    sizes of all groups add up to the number of input images. *)
Theorem every_image_in_exactly_one_group (images : list string) :
  ∃ categorized,
    categorize_all images = Some categorized ∧
    (∀ cat, is_Some (categorized !! cat) ↔ cat ∈ keys CATEGORIES) ∧
    (∀ cat group, categorized !! cat = Some group → group = group_of cat images) ∧
    (∀ img, img ∈ images →
       ∃ cat, (∃ group, categorized !! cat = Some group ∧ img ∈ group) ∧
              ∀ cat', (∃ group, categorized !! cat' = Some group ∧ img ∈ group) →
                      cat' = cat) ∧
    total_size categorized = length images.
Proof.
  destruct (categorize_all_spec images) as (m & Hrun & Hm).
  exists m. split; [done|]. repeat split.
  - intros Hsome. specialize (Hm cat).
    destruct (decide (cat ∈ keys CATEGORIES)); [done|].
    rewrite Hm in Hsome. by destruct Hsome.
  - intros Hk. rewrite Hm, decide_True by done. eauto.
  - intros cat group Hg. rewrite Hm in Hg.
    destruct (decide (cat ∈ keys CATEGORIES)); congruence.
  - intros img Himg. exists (categorize_image img). split.
    + exists (group_of (categorize_image img) images).
      rewrite Hm, decide_True by apply categorize_image_key.
      split; [done|]. by apply list_elem_of_filter.
    + intros cat' (group & Hg & Hin). rewrite Hm in Hg.
      destruct (decide (cat' ∈ keys CATEGORIES)); [|done].
      injection Hg as <-. by apply list_elem_of_filter in Hin as [? _].
  - by apply total_size_groups.
Qed.

End partition.

(** ** The rendered fragment *)

Section fragment.

Implicit Types (images : list string) (parts : list part).

Lemma html_parts_contents images parts :
  html_parts images = Some parts →
  all_counts parts = [length images] ∧
  button_ids parts = filter (λ k, group_of k images ≠ []) (keys CATEGORIES) ∧
  sum_list (button_counts parts) = length images ∧
  (0 ∉ button_counts parts) ∧
  item_blocks parts = mjoin (blocks_for images <$> keys CATEGORIES).
Proof.
  rewrite html_parts_layout. intros Heq. apply (inj Some) in Heq. subst parts.
  destruct (controls_contents images CATEGORIES) as (C1 & C2 & C3 & C4 & C5).
  destruct (blocks_no_controls images (keys CATEGORIES)) as (B1 & B2 & B3 & B4).
  rewrite !all_counts_app, !button_ids_app, !button_counts_app, !item_blocks_app.
  rewrite C1, C2, C3, B1, B2, B3, B4.
  change (button_counts [FiltersOpen (length images)]) with (@nil nat).
  change (button_counts [FiltersClose; GridOpen]) with (@nil nat).
  change (button_counts [GridClose]) with (@nil nat).
  rewrite !app_nil_l, !app_nil_r, C4, group_sizes_sum.
  repeat split; done.
Qed.

(** The controls are written as a reader meets them. *)
Lemma rendered_controls images (items : list (string * cat_info)) :
  render_part <$> omap (control_for images) items =
  shown_control <$> omap (control_of images) items.
Proof.
  induction items as [|[k info] items IH]; [done|].
  cbn [omap list_omap]. unfold control_for at 1, control_of at 1. cbn [fst snd].
  change (list_omap _ _ ?f items) with (omap f items).
  destruct (0 <? length (group_of k images))%nat; [|done].
  rewrite !fmap_cons, IH. f_equal.
  cbn [render_part shown_control control_id control_icon control_name
       control_count].
  unfold q. by rewrite !string_app_assoc.
Qed.

(** The blocks are written as a reader meets them: the category of the
    group, the path of the picture as link target and as source. *)
Lemma rendered_blocks images (ks : list string) :
  render_part <$> mjoin (blocks_for images <$> ks) =
  shown_block <$>
    mjoin ((λ cat_id, (λ img, Block cat_id
                                ("assets/images/gallery/converted/" +:+ img)
                                (alt_text img)) <$> group_of cat_id images)
           <$> ks).
Proof.
  induction ks as [|k ks IH]; [done|]. rewrite !fmap_cons.
  change (mjoin (?x :: ?l)) with (x ++ mjoin l).
  rewrite !fmap_app, IH. f_equal. unfold blocks_for.
  rewrite <- !list_fmap_compose. apply list_fmap_ext. intros _ img _.
  cbn [compose gallery_item render_part shown_block block_category block_path
       block_alt].
  unfold q, as_posix. by rewrite !string_app_assoc.
Qed.

(** The fragment that is written, character by character. *)
Lemma rendered_page images parts :
  html_parts images = Some parts →
  join nl (render_part <$> parts) =
  shown_page (length images) (controls_of images)
    (blocks_in_table_order alt_text images).
Proof.
  rewrite html_parts_layout. intros Heq. apply (inj Some) in Heq. subst parts.
  unfold shown_page, controls_of, blocks_in_table_order. f_equal.
  rewrite !fmap_app, rendered_controls, rendered_blocks. reflexivity.
Qed.

(** The counts that the controls display add up to the number of images. *)
Lemma shown_counts_sum images :
  sum_list (control_count <$> controls_of images) = length images.
Proof.
  rewrite <- (group_sizes_sum images). unfold controls_of, keys.
  generalize CATEGORIES. intros items.
  induction items as [|[k info] items IH]; [done|].
  cbn [omap list_omap fmap list_fmap fst]. unfold control_of at 1. cbn [fst snd].
  change (list_omap _ _ ?f items) with (omap f items).
  change (list_fmap _ _ ?f items) with (f <$> items).
  destruct (group_of k images) as [|img g] eqn:Hg; cbn [length Nat.ltb Nat.leb].
  - cbn [sum_list_with]. by rewrite <- IH.
  - rewrite fmap_cons. cbn [sum_list_with control_count]. by rewrite <- IH.
Qed.

(** C3. With at least one image the script writes a fragment whose first
    control displays [All (n)] for the number [n] of images, followed by
    controls that display [name (count)] with counts that add up to [n]:
    the count on the [all] control is the number of images, and it is the
    sum of the counts on the category controls. *)
Theorem all_count_is_total (w : world) (entries : list string) :
  converted_dir w = Some entries →
  sorted (glob_suffix ".jpg" entries) ≠ [] →
  ∃ w' parts blocks,
    generate_gallery_html w = Some w' ∧
    files w' !! output_file = Some (join nl (render_part <$> parts)) ∧
    html_parts (sorted (glob_suffix ".jpg" entries)) = Some parts ∧
    all_counts parts = [length (sorted (glob_suffix ".jpg" entries))] ∧
    sum_list (button_counts parts) =
      length (sorted (glob_suffix ".jpg" entries)) ∧
    files w' !! output_file =
      Some (shown_page (length (sorted (glob_suffix ".jpg" entries)))
              (controls_of (sorted (glob_suffix ".jpg" entries))) blocks) ∧
    sum_list (control_count <$>
              controls_of (sorted (glob_suffix ".jpg" entries))) =
      length (sorted (glob_suffix ".jpg" entries)).
Proof.
  intros Hdir Hne.
  destruct (generate_gallery_html_writes w entries Hdir Hne)
    as (w' & parts & Hrun & Hparts & Hfiles).
  destruct (html_parts_contents _ _ Hparts) as (Hall & _ & Hsum & _).
  exists w', parts,
    (blocks_in_table_order alt_text (sorted (glob_suffix ".jpg" entries))).
  rewrite Hfiles, lookup_insert_eq.
  rewrite <- (rendered_page _ _ Hparts), shown_counts_sum. done.
Qed.

(** The theorem at a listing with three pictures and a text file. *)
Lemma all_count_is_total_witness :
  ∃ w' parts blocks,
    generate_gallery_html
      (World (Some ["temple-gate.jpg"; "notes.txt"; "random.jpg"; "fuji-view.jpg"])
             ∅ []) = Some w' ∧
    files w' !! output_file = Some (join nl (render_part <$> parts)) ∧
    html_parts ["fuji-view.jpg"; "random.jpg"; "temple-gate.jpg"] = Some parts ∧
    all_counts parts = [3] ∧
    sum_list (button_counts parts) = 3 ∧
    files w' !! output_file =
      Some (shown_page 3
              [Control "temple" "building" "Temple & Premises" 1;
               Control "fuji" "mountain" "Mount Fuji" 1;
               Control "misc" "camera" "Other Moments" 1] blocks) ∧
    sum_list (control_count <$>
              [Control "temple" "building" "Temple & Premises" 1;
               Control "fuji" "mountain" "Mount Fuji" 1;
               Control "misc" "camera" "Other Moments" 1]) = 3.
Proof.
  apply (all_count_is_total
           (World (Some ["temple-gate.jpg"; "notes.txt"; "random.jpg"; "fuji-view.jpg"])
                  ∅ [])
           ["temple-gate.jpg"; "notes.txt"; "random.jpg"; "fuji-view.jpg"]).
  - reflexivity.
  - vm_compute. discriminate.
Defined.

(** C4. A category whose group is empty has no control among the parts
    (which are what the script joins and writes), and no control shows a
    zero count. *)
Theorem empty_category_has_no_control images parts (cat : string) :
  html_parts images = Some parts →
  group_of cat images = [] →
  (∀ icon_name display_name count,
      FilterButton cat icon_name display_name count ∉ parts) ∧
  (∀ cat_id icon_name display_name,
      FilterButton cat_id icon_name display_name 0 ∉ parts) ∧
  (∀ w entries,
      converted_dir w = Some entries →
      images = sorted (glob_suffix ".jpg" entries) →
      images ≠ [] →
      ∃ w', generate_gallery_html w = Some w' ∧
            files w' !! output_file = Some (join nl (render_part <$> parts))).
Proof.
  intros Hparts Hempty.
  destruct (html_parts_contents _ _ Hparts) as (_ & Hids & _ & Hzero & _).
  split; [|split].
  - intros i n c Hin.
    assert (cat ∈ button_ids parts) as Hcat.
    { apply list_elem_of_omap. by eexists. }
    rewrite Hids in Hcat. by apply list_elem_of_filter in Hcat as [? _].
  - intros c i n Hin. apply Hzero. apply list_elem_of_omap. by eexists.
  - intros w entries. by apply generate_gallery_html_renders.
Qed.

(** The theorem at a single picture of Mount Fuji: no [temple] control. *)
Lemma empty_category_has_no_control_witness :
  (∀ icon_name display_name count,
      FilterButton "temple" icon_name display_name count ∉
        [FiltersOpen 1; FilterButton "fuji" "mountain" "Mount Fuji" 1;
         FiltersClose; GridOpen;
         gallery_item "fuji" "fuji-view.jpg"; GridClose]) ∧
  (∀ cat_id icon_name display_name,
      FilterButton cat_id icon_name display_name 0 ∉
        [FiltersOpen 1; FilterButton "fuji" "mountain" "Mount Fuji" 1;
         FiltersClose; GridOpen;
         gallery_item "fuji" "fuji-view.jpg"; GridClose]) ∧
  (∀ w entries,
      converted_dir w = Some entries →
      ["fuji-view.jpg"] = sorted (glob_suffix ".jpg" entries) →
      ["fuji-view.jpg"] ≠ [] →
      ∃ w', generate_gallery_html w = Some w' ∧
            files w' !! output_file =
              Some (join nl (render_part <$>
                [FiltersOpen 1; FilterButton "fuji" "mountain" "Mount Fuji" 1;
                 FiltersClose; GridOpen;
                 gallery_item "fuji" "fuji-view.jpg"; GridClose]))).
Proof.
  apply (empty_category_has_no_control ["fuji-view.jpg"]).
  - reflexivity.
  - reflexivity.
Defined.

End fragment.

(** ** The order of the output *)

Section ordering.

Lemma ascii_compare_refl (a : ascii) : Ascii.compare a a = Eq.
Proof. apply N.compare_refl. Qed.

Lemma ascii_compare_lt_trans (a b c : ascii) :
  Ascii.compare a b = Lt → Ascii.compare b c = Lt → Ascii.compare a c = Lt.
Proof. unfold Ascii.compare. rewrite !N.compare_lt_iff. lia. Qed.

Lemma string_leb_trans (a b c : string) :
  String.leb a b = true → String.leb b c = true → String.leb a c = true.
Proof.
  revert b c. induction a as [|x a IH]; intros [|y b] [|z c]; try done.
  unfold String.leb in *. cbn [String.compare].
  destruct (Ascii.compare x y) eqn:Hxy; [| |done];
    (destruct (Ascii.compare y z) eqn:Hyz; [| |done]).
  - apply Ascii.compare_eq_iff in Hxy as ->.
    apply Ascii.compare_eq_iff in Hyz as ->.
    rewrite ascii_compare_refl. apply IH.
  - apply Ascii.compare_eq_iff in Hxy as ->. by rewrite Hyz.
  - apply Ascii.compare_eq_iff in Hyz as ->. by rewrite Hxy.
  - by rewrite (ascii_compare_lt_trans x y z).
Qed.

#[local] Instance path_le_trans : Transitive path_le.
Proof. intros a b c. apply string_leb_trans. Qed.

#[local] Instance path_le_total : Total path_le.
Proof. intros a b. apply String.leb_total. Qed.

(** [sorted] rearranges its argument into ascending order. *)
Lemma sorted_spec (l : list string) :
  sorted l ≡ₚ l ∧ StronglySorted path_le (sorted l).
Proof.
  split; [apply merge_sort_Permutation|].
  apply StronglySorted_merge_sort; apply _.
Qed.

Lemma StronglySorted_sublist (l1 l2 : list string) :
  l1 `sublist_of` l2 → StronglySorted path_le l2 → StronglySorted path_le l1.
Proof.
  induction 1 as [|x l1 l2 Hsub IH|x l1 l2 Hsub IH]; intros Hs; [done|..].
  - apply StronglySorted_inv in Hs as [Hs Hall]. constructor; [by apply IH|].
    apply Forall_forall. intros y Hy.
    eapply Forall_forall; [exact Hall|]. by eapply elem_of_sublist.
  - apply StronglySorted_inv in Hs as [Hs _]. by apply IH.
Qed.

Lemma omap_sublist_keys (images : list string) (items : list (string * cat_info)) :
  button_ids (omap (control_for images) items) `sublist_of` items.*1.
Proof.
  destruct (controls_contents images items) as (_ & _ & -> & _).
  apply sublist_filter.
Qed.

Lemma control_ids images (items : list (string * cat_info)) :
  control_id <$> omap (control_of images) items =
  filter (λ cat, group_of cat images ≠ []) items.*1.
Proof.
  induction items as [|[k info] items IH]; [done|].
  cbn [omap list_omap fmap list_fmap fst]. unfold control_of at 1. cbn [fst snd].
  change (list_omap _ _ ?f items) with (omap f items).
  change (list_fmap _ _ ?f items) with (f <$> items).
  destruct (group_of k images) as [|img g] eqn:Hg; cbn [length Nat.ltb Nat.leb].
  - by rewrite filter_cons_False by (rewrite Hg; intros H; by apply H).
  - rewrite filter_cons_True by (by rewrite Hg).
    rewrite fmap_cons. cbn [control_id]. by rewrite IH.
Qed.

(** C5. The fragment that is written is, in this order: the first control,
    the controls of the categories with a non-empty group in the order of
    the table ([members], [temple], [fuji], [travel], [accommodation],
    [local], [misc]), the end of the filters and the start of the grid, the
    blocks of the categories in the order of the table, the end of the
    grid. A block carries the category of its group and the path of its
    picture; within a category the blocks follow the order of the input
    list, which for the script is the sorted directory listing, so that
    every group is in ascending order. *)
Theorem output_follows_table_order (images : list string) :
  ∃ parts alt_of,
    html_parts images = Some parts ∧
    parts = [FiltersOpen (length images)] ++
            omap (control_for images) CATEGORIES ++
            [FiltersClose; GridOpen] ++
            mjoin ((λ cat, gallery_item cat <$> group_of cat images) <$>
                   keys CATEGORIES) ++
            [GridClose] ∧
    join nl (render_part <$> parts) =
      shown_page (length images) (controls_of images)
        (mjoin ((λ cat_id,
                   (λ img, Block cat_id
                             ("assets/images/gallery/converted/" +:+ img)
                             (alt_of img)) <$> group_of cat_id images)
                <$> ["members"; "temple"; "fuji"; "travel"; "accommodation";
                     "local"; "misc"])) ∧
    blocks_in_table_order alt_of images =
      mjoin ((λ cat_id,
                (λ img, Block cat_id
                          ("assets/images/gallery/converted/" +:+ img)
                          (alt_of img)) <$> group_of cat_id images)
             <$> ["members"; "temple"; "fuji"; "travel"; "accommodation";
                  "local"; "misc"]) ∧
    control_id <$> controls_of images =
      filter (λ cat, group_of cat images ≠ [])
        ["members"; "temple"; "fuji"; "travel"; "accommodation"; "local";
         "misc"] ∧
    button_ids parts =
      filter (λ cat, group_of cat images ≠ []) (keys CATEGORIES) ∧
    button_ids parts `sublist_of` keys CATEGORIES ∧
    item_blocks parts =
      mjoin ((λ cat, gallery_item cat <$> group_of cat images) <$>
             keys CATEGORIES) ∧
    (∀ cat, group_of cat images `sublist_of` images) ∧
    (∀ entries cat,
        images = sorted (glob_suffix ".jpg" entries) →
        StronglySorted path_le (group_of cat images)) ∧
    (∀ w entries,
        converted_dir w = Some entries →
        images = sorted (glob_suffix ".jpg" entries) →
        images ≠ [] →
        ∃ w', generate_gallery_html w = Some w' ∧
              files w' !! output_file =
                Some (shown_page (length images) (controls_of images)
                        (blocks_in_table_order alt_of images))).
Proof.
  eexists _, alt_text. split; [apply html_parts_layout|].
  destruct (html_parts_contents images _ (html_parts_layout images))
    as (_ & Hids & _ & _ & Hitems).
  split; [done|]. split.
  { apply rendered_page, html_parts_layout. }
  split; [done|].
  split; [apply control_ids|]. split; [done|]. split.
  { rewrite Hids. apply sublist_filter. }
  split; [done|]. split.
  { intros cat. apply sublist_filter. }
  split.
  { intros entries cat ->.
    eapply StronglySorted_sublist; [apply sublist_filter|apply sorted_spec]. }
  intros w entries Hdir Himages Hne.
  rewrite <- (rendered_page images _ (html_parts_layout images)).
  exact (generate_gallery_html_renders images _ w entries
           (html_parts_layout images) Hdir Himages Hne).
Qed.

(** The order of the table is neither the alphabetical order of the
    identifiers nor an order by count. *)
Lemma table_order_example :
  let images := sorted ["temple-1.jpg"; "fuji-3.jpg"; "members-2.jpg";
                        "fuji-1.jpg"; "members-1.jpg"; "fuji-2.jpg"] in
  (button_ids <$> html_parts images) = Some ["members"; "temple"; "fuji"] ∧
  (button_counts <$> html_parts images) = Some [2; 1; 3].
Proof. split; reflexivity. Qed.

End ordering.

(** ** No image *)

Section no_image.

(** C7 (as amended). With no image the script reports it and stops: nothing
    is rendered, no file is written, the output file stays as it was. *)
Theorem no_images_no_fragment (w : world) (entries : list string) :
  converted_dir w = Some entries →
  glob_suffix ".jpg" entries = [] →
  generate_gallery_html w = Some (print "❌ No images found!" w) ∧
  ∀ w', generate_gallery_html w = Some w' →
        files w' = files w ∧
        stdout w' = stdout w ++ ["❌ No images found!"].
Proof.
  intros Hdir Hnone. unfold generate_gallery_html. rewrite Hdir, Hnone.
  split; [done|]. intros w' Heq. apply (inj Some) in Heq. by subst w'.
Qed.

(** The theorem at a directory that holds a text file only. *)
Lemma no_images_no_fragment_witness :
  generate_gallery_html (World (Some ["notes.txt"]) ∅ []) =
    Some (print "❌ No images found!" (World (Some ["notes.txt"]) ∅ [])) ∧
  ∀ w', generate_gallery_html (World (Some ["notes.txt"]) ∅ []) = Some w' →
        files w' = ∅ ∧ stdout w' = [] ++ ["❌ No images found!"].
Proof.
  apply (no_images_no_fragment (World (Some ["notes.txt"]) ∅ []) ["notes.txt"]).
  - reflexivity.
  - reflexivity.
Defined.

(** C7, counterexample to the sentence as written: on a directory without
    pictures no fragment is written at all, so there is no grid, empty or
    not, in the output file. *)
Lemma zero_images_counterexample :
  ¬ ∃ w' parts,
      generate_gallery_html (World (Some ["notes.txt"]) ∅ []) = Some w' ∧
      files w' !! output_file = Some (join nl (render_part <$> parts)) ∧
      GridOpen ∈ parts ∧ item_blocks parts = [] ∧ button_ids parts = [].
Proof.
  intros (w' & parts & Hrun & Hfile & _).
  apply (inj Some) in Hrun. subst w'. discriminate Hfile.
Qed.

End no_image.


(** ** The splice *)

Section splice.

Lemma markers_not_found (html_content : string) :
  marker_absent start_marker html_content ∨
  marker_absent end_marker html_content →
  ((find html_content start_marker =? -1) ||
   (find html_content end_marker =? -1))%Z = true.
Proof.
  unfold marker_absent. intros [Habs|Habs]; apply find_absent in Habs;
    rewrite Habs; [done|]. apply orb_true_r.
Qed.

(** C6 (as amended). When the start marker or the end marker does not occur
    in the text of [index.html] as it is read, that is with its line endings
    translated, [update_gallery] does not return [True] and writes no file,
    and neither does the [__main__] block around it; when the fragment file
    can be read, the call prints the message and returns [False]. *)
Theorem splice_missing_marker_no_write (w : world) (stored : string) :
  files w !! "index.html" = Some stored →
  marker_absent start_marker (universal_newlines stored) ∨
  marker_absent end_marker (universal_newlines stored) →
  (update_gallery w).1 ≠ Returned true ∧
  files (update_gallery w).2 = files w ∧
  files (update_gallery_main w) = files w ∧
  (∀ gallery_html,
      files w !! "gallery_generated.html" = Some gallery_html →
      update_gallery w =
        (Returned false, print "❌ Could not find gallery section markers!" w)).
Proof.
  intros Hindex Habsent. apply markers_not_found in Habsent.
  unfold update_gallery_main, update_gallery, read_file.
  rewrite Hindex, Habsent.
  destruct (files w !! "gallery_generated.html") as [gallery_html|]; cbn.
  - repeat split; try done. 
  - repeat split; done.
Qed.

(** The theorem at a page that has the start marker and lacks the end
    marker. *)
Lemma splice_missing_marker_no_write_witness :
  (update_gallery page_without_end_marker).1 ≠ Returned true ∧
  files (update_gallery page_without_end_marker).2 =
    files page_without_end_marker ∧
  files (update_gallery_main page_without_end_marker) =
    files page_without_end_marker ∧
  (∀ gallery_html,
      files page_without_end_marker !! "gallery_generated.html" =
        Some gallery_html →
      update_gallery page_without_end_marker =
        (Returned false,
         print "❌ Could not find gallery section markers!"
               page_without_end_marker)).
Proof.
  apply (splice_missing_marker_no_write page_without_end_marker
           ("<body>" +:+ start_marker +:+ "</body>")).
  - reflexivity.
  - right. reflexivity.
Defined.

(** For a page without carriage return the text that is read is the text
    that is stored: a marker that does not occur in the page is not
    found. *)
Lemma splice_missing_marker_plain_page (w : world) (stored : string) :
  files w !! "index.html" = Some stored →
  no_carriage_return stored = true →
  marker_absent start_marker stored ∨ marker_absent end_marker stored →
  (update_gallery w).1 ≠ Returned true ∧
  files (update_gallery w).2 = files w.
Proof.
  intros Hindex Hplain Habsent. apply markers_not_found in Habsent.
  unfold update_gallery, read_file.
  rewrite Hindex, (universal_newlines_plain stored Hplain), Habsent.
  by destruct (files w !! "gallery_generated.html") as [gallery_html|].
Qed.

(** C6, counterexample to the sentence as written: in a page whose lines
    end with a carriage return and a line feed the end marker does not
    occur; the page is read with its line endings translated, the marker is
    found, and the page is written anew. *)
Lemma crlf_page_counterexample :
  files page_with_crlf !! "index.html" =
    Some ("<body>" +:+ chr 13 +:+ nl +:+ start_marker +:+ " old" +:+
          end_marker_crlf +:+ "</body>") ∧
  marker_absent end_marker
    ("<body>" +:+ chr 13 +:+ nl +:+ start_marker +:+ " old" +:+
     end_marker_crlf +:+ "</body>") ∧
  (update_gallery page_with_crlf).1 = Returned true ∧
  files (update_gallery page_with_crlf).2 !! "index.html" =
    Some ("<body>" +:+ nl +:+ "NEW" +:+ closing_text +:+ "</body>") ∧
  files (update_gallery page_with_crlf).2 !! "index.html" ≠
    files page_with_crlf !! "index.html".
Proof.
  split; [reflexivity|]. split; [reflexivity|]. split; [reflexivity|].
  split; [reflexivity|]. vm_compute. discriminate.
Qed.

(** With both markers present the text between them is replaced. *)
Lemma splice_example :
  (update_gallery page_with_markers).1 = Returned true ∧
  files (update_gallery page_with_markers).2 !! "index.html" =
    Some ("<body>" +:+ "NEW" +:+ closing_text +:+ "</body>").
Proof. split; reflexivity. Qed.

End splice.

(** ** The directory scans *)

Section scans.

Lemma elem_of_glob_suffix (suffix img : string) (entries : list string) :
  img ∈ glob_suffix suffix entries ↔ img ∈ entries ∧ endswith suffix img = true.
Proof. unfold glob_suffix. rewrite list_elem_of_filter. tauto. Qed.

Lemma elem_of_sorted (img : string) (l : list string) :
  img ∈ sorted l ↔ img ∈ l.
Proof. unfold sorted. by rewrite merge_sort_Permutation. Qed.

Lemma elem_of_scan_extensions (exts entries : list string) (img : string) :
  img ∈ scan_extensions exts entries ↔
  img ∈ entries ∧
  ∃ ext, ext ∈ exts ∧
         (endswith ext img = true ∨ endswith (upper ext) img = true).
Proof.
  induction exts as [|e exts IH]; cbn [scan_extensions].
  - split; [by intros ?%elem_of_nil|]. intros (_ & ext & ?%elem_of_nil & _). done.
  - rewrite !elem_of_app, !elem_of_glob_suffix, IH. split.
    + intros [[? ?]|[[? ?]|(? & ext & ? & ?)]].
      * split; [done|]. exists e. split; [left|by left].
      * split; [done|]. exists e. split; [left|by right].
      * split; [done|]. exists ext. split; [by right|done].
    + intros (? & ext & [->|?]%elem_of_cons & Hends).
      * destruct Hends; [by left|by right; left].
      * right; right. split; [done|]. by exists ext.
Qed.

(** The two scans in closed form: [generate_image_list.py] globs each of the
    five extensions as written and in upper case, [generate_gallery.py]
    globs [.jpg] as written. *)
Lemma scans_in_closed_form (entries : list string) (img : string) :
  (img ∈ image_names entries ↔
   img ∈ entries ∧
   ∃ ext, ext ∈ image_extensions ∧
          (endswith ext img = true ∨ endswith (upper ext) img = true)) ∧
  (img ∈ sorted (glob_suffix ".jpg" entries) ↔
   img ∈ entries ∧ endswith ".jpg" img = true).
Proof.
  split.
  - unfold image_names. by rewrite elem_of_sorted, elem_of_scan_extensions.
  - by rewrite elem_of_sorted, elem_of_glob_suffix.
Qed.

(** C8. The scan of [generate_image_list.py] globs every extension twice, as
    written and in upper case, to find the image files whatever the case of
    their extension, and misses the extensions in mixed case: the directory
    entry [photo.Jpg] carries the extension [.jpg], the entries [photo.jpg]
    and [photo.JPG] are scanned, and [photo.Jpg] is not. *)
Theorem mixed_case_extension_not_scanned :
  "photo.Jpg" ∈ ["photo.jpg"; "photo.JPG"; "photo.Jpg"] ∧
  has_image_extension "photo.Jpg" ∧
  image_names ["photo.jpg"; "photo.JPG"; "photo.Jpg"] =
    ["photo.JPG"; "photo.jpg"] ∧
  ("photo.Jpg" ∉ image_names ["photo.jpg"; "photo.JPG"; "photo.Jpg"]).
Proof.
  split; [by right; right; left|]. split.
  - exists ".jpg". split; [left|reflexivity].
  - split; [reflexivity|]. apply (bool_decide_unpack _). vm_compute. exact I.
Qed.

(** An upper-case or a [.png] name is scanned by [generate_image_list.py]
    and not by [generate_gallery.py]. *)
Lemma scan_examples :
  image_names ["b.PNG"; "a.JPG"; "c.Jpeg"; "d.gif"; "e.txt"] =
    ["a.JPG"; "b.PNG"; "d.gif"] ∧
  sorted (glob_suffix ".jpg" ["b.PNG"; "a.JPG"; "c.jpg"; "d.gif"]) = ["c.jpg"].
Proof. split; reflexivity. Qed.

End scans.

(** ** Removing duplicates *)

Section dedup.

Implicit Types (images acc : list string) (seen : gset string).

(** The loop appends to [unique_images] the first occurrences of the images
    that have not been seen. *)
Lemma dedup_loop_spec images acc seen :
  dedup_loop images acc seen =
  acc ++ filter (λ img, img ∉ seen) (first_occurrences images).
Proof.
  revert acc seen. induction images as [|img images IH]; intros acc seen.
  - by rewrite app_nil_r.
  - cbn [dedup_loop first_occurrences]. destruct (decide (img ∈ seen)) as [Hin|Hnot].
    + rewrite IH, filter_cons_False by (intros H; by apply H).
      f_equal. rewrite list_filter_filter. apply list_filter_iff.
      intros x. split; [|tauto]. intros Hx. split; [done|]. by intros ->.
    + rewrite IH, filter_cons_True by done. rewrite <- app_assoc. cbn.
      do 2 f_equal. rewrite list_filter_filter. apply list_filter_iff.
      intros x. rewrite not_elem_of_union, not_elem_of_singleton. tauto.
Qed.

Lemma unique_images_first_occurrences images :
  unique_images images = first_occurrences images.
Proof.
  unfold unique_images. rewrite dedup_loop_spec. cbn.
  induction (first_occurrences images) as [|x l IH]; [done|].
  rewrite filter_cons_True by apply not_elem_of_empty. by rewrite IH.
Qed.

Lemma elem_of_first_occurrences (x : string) images :
  x ∈ first_occurrences images ↔ x ∈ images.
Proof.
  induction images as [|y images IH]; [done|]. cbn [first_occurrences].
  rewrite !elem_of_cons, list_elem_of_filter, IH.
  destruct (decide (x = y)); tauto.
Qed.

Lemma NoDup_first_occurrences images : NoDup (first_occurrences images).
Proof.
  induction images as [|y images IH]; [constructor|]. cbn [first_occurrences].
  apply NoDup_cons. split; [|by apply NoDup_filter].
  rewrite list_elem_of_filter. tauto.
Qed.

Lemma first_index_cons (x y : string) images :
  first_index x (y :: images) = if decide (y = x) then 0 else S (first_index x images).
Proof.
  cbn [first_index]. destruct (String.eqb_spec y x); by case_decide.
Qed.

(** The order of the first occurrences is the order of the first indices. *)
Lemma first_occurrences_order (a b : string) images :
  a ≠ b →
  comes_before a b (first_occurrences images) ↔
  a ∈ images ∧ b ∈ images ∧ first_index a images < first_index b images.
Proof.
  unfold comes_before. intros Hab.
  induction images as [|y images IH]; cbn [first_occurrences].
  { split; [|by intros (?%elem_of_nil & _)].
    intros Hsub. apply sublist_nil_r in Hsub. discriminate Hsub. }
  rewrite !first_index_cons, !elem_of_cons. split.
  - intros [Hsub|(l' & Heq & Hsub)]%sublist_cons_r;
      [|injection Heq as <- <-].
    + assert ([a; b] `sublist_of` first_occurrences images) as Hsub'
        by (etrans; [exact Hsub|apply sublist_filter]).
      apply IH in Hsub' as (Ha & Hb & Hlt).
      assert (a ∈ filter (λ z, z ≠ y) (first_occurrences images)) as Hay.
      { eapply elem_of_sublist; [|exact Hsub]. left. }
      assert (b ∈ filter (λ z, z ≠ y) (first_occurrences images)) as Hby.
      { eapply elem_of_sublist; [|exact Hsub]. right. left. }
      apply list_elem_of_filter in Hay as [Hay _].
      apply list_elem_of_filter in Hby as [Hby _].
      rewrite !decide_False by done. split; [by right|]. split; [by right|lia].
    + assert (b ∈ filter (λ z, z ≠ a) (first_occurrences images)) as Hb.
      { eapply elem_of_sublist; [|exact Hsub]. left. }
      apply list_elem_of_filter in Hb as [Hba Hb].
      rewrite elem_of_first_occurrences in Hb.
      rewrite decide_True, decide_False by done.
      split; [by left|]. split; [by right|lia].
  - intros (Ha & Hb & Hlt). destruct (decide (y = a)) as [->|Hya].
    + apply sublist_skip. apply sublist_cons_l.
      destruct Hb as [->|Hb]; [done|].
      assert (b ∈ filter (λ z, z ≠ a) (first_occurrences images)) as Hin.
      { apply list_elem_of_filter. split; [done|].
        by apply elem_of_first_occurrences. }
      apply list_elem_of_split in Hin as (l1 & l2 & ->).
      exists l1, l2. split; [done|]. apply sublist_nil_l.
    + destruct (decide (y = b)) as [->|Hyb]; [lia|].
      destruct Ha as [->|Ha]; [done|]. destruct Hb as [->|Hb]; [done|].
      apply sublist_cons.
      assert ([a; b] `sublist_of` first_occurrences images) as Hsub
        by (apply IH; repeat split; [done..|lia]).
      assert (filter (λ z, z ≠ y) [a; b] = [a; b]) as <-.
      { by rewrite filter_cons_True, filter_cons_True by done. }
      clear IH. induction Hsub as [|x l1 l2 Hsub IHs|x l1 l2 Hsub IHs].
      * done.
      * rewrite !(filter_cons _ x). case_decide; [by apply sublist_skip|done].
      * rewrite (filter_cons _ x). case_decide; [by apply sublist_cons|done].
Qed.

(** C10. The loop keeps one copy of every filename, the first one: the
    result has no duplicate, holds exactly the filenames of the input, is
    the list of first occurrences, and two distinct filenames stand in it in
    the order of their first occurrences in the input. *)
Theorem unique_images_keeps_first_occurrences images :
  NoDup (unique_images images) ∧
  (∀ img, img ∈ unique_images images ↔ img ∈ images) ∧
  unique_images images = first_occurrences images ∧
  (∀ a b, a ≠ b →
     (comes_before a b (unique_images images) ↔
      a ∈ images ∧ b ∈ images ∧ first_index a images < first_index b images)).
Proof.
  rewrite unique_images_first_occurrences. split; [apply NoDup_first_occurrences|].
  split; [intros img; apply elem_of_first_occurrences|]. split; [done|].
  intros a b. apply first_occurrences_order.
Qed.

Lemma unique_images_example :
  unique_images ["b.jpg"; "a.jpg"; "b.jpg"; "c.jpg"; "a.jpg"] =
    ["b.jpg"; "a.jpg"; "c.jpg"].
Proof. reflexivity. Qed.

End dedup.

(** * Further properties of the scripts *)

(** ** The splice when the markers are found *)

Section splice_found.

Lemma update_gallery_found (w : world) (fragment document : string) :
  files w !! "gallery_generated.html" = Some fragment →
  files w !! "index.html" = Some document →
  find (universal_newlines document) start_marker ≠ (-1)%Z →
  find (universal_newlines document) end_marker ≠ (-1)%Z →
  update_gallery w =
    (Returned true,
     print "📸 Added 134 images organized into 7 categories"
       (print "✅ Gallery section updated successfully!"
          (write_file "index.html"
             (slice_to (Z.to_nat (find (universal_newlines document)
                                       start_marker))
                       (universal_newlines document) +:+
              universal_newlines fragment +:+ closing_text +:+
              slice_from (Z.to_nat (find (universal_newlines document)
                                         end_marker +
                                    Z.of_nat (String.length end_marker)))
                         (universal_newlines document)) w))).
Proof.
  intros Hfrag Hdoc Hs He. unfold update_gallery, read_file.
  rewrite Hfrag, Hdoc.
  destruct (Z.eqb_spec (find (universal_newlines document) start_marker) (-1));
    [done|].
  destruct (Z.eqb_spec (find (universal_newlines document) end_marker) (-1));
    [done|]. done.
Qed.

(** X1. The page and the fragment are read with their line endings
    translated. In the page as read, the region from the start marker
    through the end marker is replaced by the fragment as read and the
    closing text; what stands before the start marker and after the end
    marker is kept, and no other file changes. *)
Theorem splice_replaces_region (w : world) (fragment document A M B : string) :
  files w !! "gallery_generated.html" = Some fragment →
  files w !! "index.html" = Some document →
  universal_newlines document =
    A +:+ start_marker +:+ M +:+ end_marker +:+ B →
  find (A +:+ start_marker +:+ M +:+ end_marker +:+ B) start_marker =
    Z.of_nat (String.length A) →
  find (A +:+ start_marker +:+ M +:+ end_marker +:+ B) end_marker =
    Z.of_nat (String.length (A +:+ start_marker +:+ M)) →
  (update_gallery w).1 = Returned true ∧
  files (update_gallery w).2 =
    <["index.html" :=
        A +:+ universal_newlines fragment +:+ closing_text +:+ B]> (files w).
Proof.
  intros Hfrag Hdoc Hread Hs He.
  rewrite (update_gallery_found w fragment _ Hfrag Hdoc)
    by (rewrite Hread; lia).
  split; [done|]. cbn [snd files print write_file]. f_equal.
  rewrite Hread, Hs, He, Nat2Z.id, slice_to_app. do 3 f_equal.
  replace (Z.to_nat (Z.of_nat (String.length (A +:+ start_marker +:+ M)) +
                     Z.of_nat (String.length end_marker)))
    with (String.length (((A +:+ start_marker +:+ M) +:+ end_marker)))
    by (rewrite (string_length_app _ end_marker); lia).
  trans (slice_from (String.length ((A +:+ start_marker +:+ M) +:+ end_marker))
           (((A +:+ start_marker +:+ M) +:+ end_marker) +:+ B)).
  - f_equal. by rewrite !string_app_assoc.
  - apply slice_from_app.
Qed.

(** The theorem at a page whose lines end with a carriage return and a line
    feed. *)
Lemma splice_replaces_region_witness :
  (update_gallery page_with_crlf).1 = Returned true ∧
  files (update_gallery page_with_crlf).2 =
    <["index.html" :=
        ("<body>" +:+ nl) +:+ universal_newlines "NEW" +:+ closing_text +:+
        "</body>"]>
      (files page_with_crlf).
Proof.
  apply (splice_replaces_region page_with_crlf "NEW"
           ("<body>" +:+ chr 13 +:+ nl +:+ start_marker +:+ " old" +:+
            end_marker_crlf +:+ "</body>")
           ("<body>" +:+ nl) " old" "</body>").
  - reflexivity.
  - reflexivity.
  - reflexivity.
  - reflexivity.
  - reflexivity.
Defined.

(** X2. The end marker is searched from the start of the page, not from the
    start marker: when it stands first in the page as read, nothing is
    removed, the page is cut at the start marker, and the text between the
    two markers is written a second time after the fragment. *)
Theorem splice_swapped_markers (w : world) (fragment document A M B : string) :
  files w !! "gallery_generated.html" = Some fragment →
  files w !! "index.html" = Some document →
  universal_newlines document =
    A +:+ end_marker +:+ M +:+ start_marker +:+ B →
  find (A +:+ end_marker +:+ M +:+ start_marker +:+ B) end_marker =
    Z.of_nat (String.length A) →
  find (A +:+ end_marker +:+ M +:+ start_marker +:+ B) start_marker =
    Z.of_nat (String.length (A +:+ end_marker +:+ M)) →
  (update_gallery w).1 = Returned true ∧
  files (update_gallery w).2 !! "index.html" =
    Some ((A +:+ end_marker +:+ M) +:+ universal_newlines fragment +:+
          closing_text +:+ (M +:+ start_marker +:+ B)).
Proof.
  intros Hfrag Hdoc Hread He Hs.
  rewrite (update_gallery_found w fragment _ Hfrag Hdoc)
    by (rewrite Hread; lia).
  split; [done|]. cbn [snd files print write_file].
  rewrite lookup_insert_eq, Hread. do 2 f_equal.
  - rewrite Hs, Nat2Z.id.
    trans (slice_to (String.length (A +:+ end_marker +:+ M))
             ((A +:+ end_marker +:+ M) +:+ start_marker +:+ B)).
    + f_equal. by rewrite !string_app_assoc.
    + apply slice_to_app.
  - do 2 f_equal. rewrite He.
    replace (Z.to_nat (Z.of_nat (String.length A) +
                       Z.of_nat (String.length end_marker)))
      with (String.length (A +:+ end_marker))
      by (rewrite string_length_app; lia).
    trans (slice_from (String.length (A +:+ end_marker))
             ((A +:+ end_marker) +:+ M +:+ start_marker +:+ B)).
    + f_equal. by rewrite !string_app_assoc.
    + apply slice_from_app.
Qed.

Lemma splice_swapped_markers_witness :
  (update_gallery page_with_swapped_markers).1 = Returned true ∧
  files (update_gallery page_with_swapped_markers).2 !! "index.html" =
    Some (("<body>" +:+ end_marker +:+ " mid ") +:+
          universal_newlines ("NEW" +:+ chr 13) +:+ closing_text +:+
          (" mid " +:+ start_marker +:+ "</body>")).
Proof.
  apply (splice_swapped_markers page_with_swapped_markers
           ("NEW" +:+ chr 13)
           ("<body>" +:+ end_marker_crlf +:+ " mid " +:+ start_marker +:+
            "</body>")
           "<body>" " mid " "</body>").
  - reflexivity.
  - reflexivity.
  - reflexivity.
  - reflexivity.
  - reflexivity.
Defined.

Lemma closing_text_has_end_marker :
  closing_text = PyStr.nl +:+ "      " +:+ end_marker.
Proof. reflexivity. Qed.

Lemma update_gallery_other_files (w : world) (path : string) :
  path ≠ "index.html" →
  files (update_gallery w).2 !! path = files w !! path.
Proof.
  intros Hpath. unfold update_gallery, read_file.
  destruct (files w !! "gallery_generated.html") as [fragment|]; [|done].
  destruct (files w !! "index.html") as [document|]; [|done].
  destruct ((find (universal_newlines document) start_marker =? -1) ||
            (find (universal_newlines document) end_marker =? -1))%Z; [done|].
  cbn [snd files print write_file]. by rewrite lookup_insert_ne.
Qed.

(** X3. [update_gallery] writes to no file but [index.html], and to that one
    only when it returns [True]; the directory is not touched. *)
Theorem update_gallery_frame (w : world) :
  converted_dir (update_gallery w).2 = converted_dir w ∧
  (∀ path, path ≠ "index.html" →
           files (update_gallery w).2 !! path = files w !! path) ∧
  ((update_gallery w).1 ≠ Returned true → files (update_gallery w).2 = files w).
Proof.
  split; [|split; [apply update_gallery_other_files|]].
  - unfold update_gallery, read_file.
    destruct (files w !! "gallery_generated.html") as [fragment|]; [|done].
    destruct (files w !! "index.html") as [document|]; [|done].
    by destruct ((find (universal_newlines document) start_marker =? -1) ||
                 (find (universal_newlines document) end_marker =? -1))%Z.
  - unfold update_gallery, read_file.
    destruct (files w !! "gallery_generated.html") as [fragment|]; [|done].
    destruct (files w !! "index.html") as [document|]; [|done].
    by destruct ((find (universal_newlines document) start_marker =? -1) ||
                 (find (universal_newlines document) end_marker =? -1))%Z.
Qed.

Lemma update_gallery_keeps_markers (w : world) (fragment : string) :
  files w !! "gallery_generated.html" = Some fragment →
  contains start_marker fragment = true →
  (update_gallery w).1 = Returned true →
  ∃ document,
    files (update_gallery w).2 !! "index.html" = Some document ∧
    contains start_marker document = true ∧
    contains end_marker document = true.
Proof.
  intros Hfrag Hstart. unfold update_gallery, read_file. rewrite Hfrag.
  destruct (files w !! "index.html") as [document|]; [|done].
  destruct ((find (universal_newlines document) start_marker =? -1) ||
            (find (universal_newlines document) end_marker =? -1))%Z; [done|].
  intros _. cbn [snd files print write_file]. rewrite lookup_insert_eq.
  eexists. split; [done|]. split.
  - by apply contains_app_r, contains_app_l, universal_newlines_keeps.
  - apply contains_app_r, contains_app_r, contains_app_l.
    rewrite closing_text_has_end_marker.
    apply contains_app_r, contains_app_r, contains_refl.
Qed.

(** With the fragment in place and both markers in the page, the update
    returns [True]. *)
Lemma update_gallery_succeeds (w : world) (fragment document : string) :
  files w !! "gallery_generated.html" = Some fragment →
  files w !! "index.html" = Some document →
  contains start_marker document = true →
  contains end_marker document = true →
  (update_gallery w).1 = Returned true.
Proof.
  intros Hfrag Hdoc Hs He.
  by rewrite (update_gallery_found w fragment document)
    by (done || by apply find_present, universal_newlines_keeps).
Qed.

(** X4. After a successful update the page holds the end marker again, and
    the start marker when the fragment holds it: the update can then be run
    again and succeeds again. *)
Theorem update_gallery_can_be_repeated (w : world) (fragment : string) :
  files w !! "gallery_generated.html" = Some fragment →
  contains start_marker fragment = true →
  (update_gallery w).1 = Returned true →
  (∃ document,
      files (update_gallery w).2 !! "index.html" = Some document ∧
      contains start_marker document = true ∧
      contains end_marker document = true) ∧
  (update_gallery (update_gallery w).2).1 = Returned true.
Proof.
  intros Hfrag Hstart Hok.
  destruct (update_gallery_keeps_markers w fragment Hfrag Hstart Hok)
    as (document & Hdoc & Hs & He).
  split; [by exists document|].
  apply (update_gallery_succeeds _ fragment document); [|done..].
  by rewrite update_gallery_other_files.
Qed.

Lemma update_gallery_can_be_repeated_witness :
  (∃ document,
      files (update_gallery page_with_marked_fragment).2 !! "index.html" =
        Some document ∧
      contains start_marker document = true ∧
      contains end_marker document = true) ∧
  (update_gallery (update_gallery page_with_marked_fragment).2).1 = Returned true.
Proof.
  apply (update_gallery_can_be_repeated page_with_marked_fragment
           (start_marker +:+ ">pictures</div>")).
  - reflexivity.
  - reflexivity.
  - reflexivity.
Defined.

End splice_found.

(** ** From the generator to the splice *)

Section pipeline.

Lemma render_opening_has_marker (total : nat) :
  contains start_marker (render_part (FiltersOpen total)) = true.
Proof. reflexivity. Qed.

Lemma join_head_contains (p sep x : string) (rest : list string) :
  contains p x = true → contains p (join sep (x :: rest)) = true.
Proof.
  intros Hx. destruct rest as [|y rest]; [done|].
  cbn [join]. by apply contains_app_l.
Qed.

Lemma fragment_has_start_marker (images : list string) (parts : list part) :
  html_parts images = Some parts →
  contains start_marker (join nl (render_part <$> parts)) = true.
Proof.
  rewrite html_parts_layout. intros Heq. apply (inj Some) in Heq. subst parts.
  rewrite fmap_app. apply join_head_contains, render_opening_has_marker.
Qed.

Lemma print_breakdown_run (items : list (string * cat_info))
    (m : gmap string (list string)) (w : world) :
  (∀ rule, rule ∈ items → is_Some (m !! rule.1)) →
  ∃ w' lines, print_breakdown items m w = Some w' ∧
              files w' = files w ∧
              converted_dir w' = converted_dir w ∧
              stdout w' = stdout w ++ lines.
Proof.
  revert w. induction items as [|[k info] items IH]; intros w Hall.
  - exists w, []. by rewrite app_nil_r.
  - destruct (Hall (k, info)) as [g Hg]; [left|]. cbn [fst] in Hg.
    cbn [print_breakdown]. rewrite Hg. cbn [mbind option_bind].
    match goal with |- ∃ w' lines, print_breakdown _ _ ?w1 = _ ∧ _ =>
      destruct (IH w1 ltac:(intros rule Hr; apply Hall; by right))
        as (w' & lines & Hrun & Hf & Hd & Hout) end.
    destruct (0 <? length g)%nat; cbn [print converted_dir files stdout] in *.
    + eexists w', _. rewrite Hout, <- app_assoc. done.
    + by exists w', lines.
Qed.

(** The three ways a run of [generate_gallery_html] ends: every one returns,
    keeps the directory and prints; the files are untouched, or the output
    file alone is replaced. *)
Lemma generate_gallery_html_run (w : world) :
  ∃ w' lines,
    generate_gallery_html w = Some w' ∧
    converted_dir w' = converted_dir w ∧
    stdout w' = stdout w ++ lines ∧ lines ≠ [] ∧
    (files w' = files w ∨
     ∃ text, files w' = <[output_file := text]> (files w)).
Proof.
  unfold generate_gallery_html.
  destruct (converted_dir w) as [entries|] eqn:Hdir.
  - destruct (sorted (glob_suffix ".jpg" entries)) as [|img images] eqn:Himgs.
    + eexists _, [_]. cbn [print converted_dir files stdout].
      split; [done|]. split; [done|]. split; [done|]. split; [done|by left].
    + destruct (categorize_all_spec (img :: images)) as (m & Hm & Hlook).
      pose proof (html_parts_layout (img :: images)) as Hparts.
      unfold html_parts in Hparts. rewrite Hm in Hparts |- *.
      cbn [mbind option_bind] in Hparts |- *. rewrite Hparts.
      cbn [mbind option_bind].
      match goal with
      | |- context [print_breakdown CATEGORIES m ?w0] =>
          destruct (print_breakdown_run CATEGORIES m w0)
            as (w' & lines & -> & Hf & Hd & Hout)
      end.
      { intros rule Hr. rewrite Hlook, decide_True by by apply rule_key.
        eauto. }
      cbn [print write_file converted_dir files stdout] in Hf, Hd, Hout.
      eexists w', _. split; [done|]. split; [by rewrite Hd|].
      split; [by rewrite Hout, <- !app_assoc|]. split; [done|].
      right. by eexists.
  - eexists _, [_]. cbn [print converted_dir files stdout].
    split; [done|]. split; [done|]. split; [done|]. split; [done|by left].
Qed.

(** X5. The run of [generate_gallery_html] in full: it raises nothing, leaves
    the directory as it is, prints at least one line and writes to no file but
    its output file. *)
Theorem generate_gallery_html_frame (w : world) :
  ∃ w', generate_gallery_html w = Some w' ∧
        converted_dir w' = converted_dir w ∧
        (∀ path, path ≠ output_file → files w' !! path = files w !! path) ∧
        (∃ lines, stdout w' = stdout w ++ lines ∧ lines ≠ []).
Proof.
  destruct (generate_gallery_html_run w)
    as (w' & lines & Hrun & Hdir & Hout & Hlines & Hfiles).
  exists w'. split; [done|]. split; [done|]. split; [|by exists lines].
  intros path Hpath. destruct Hfiles as [->|[text ->]]; [done|].
  by rewrite lookup_insert_ne.
Qed.

(** X6. A page that holds both markers is updated with success by the
    fragment the generator writes, and can be updated again. *)
Theorem generate_then_update (w : world) (entries : list string)
    (document : string) :
  converted_dir w = Some entries →
  sorted (glob_suffix ".jpg" entries) ≠ [] →
  files w !! "index.html" = Some document →
  contains start_marker document = true →
  contains end_marker document = true →
  ∃ w1, generate_gallery_html w = Some w1 ∧
        (update_gallery w1).1 = Returned true ∧
        (update_gallery (update_gallery w1).2).1 = Returned true.
Proof.
  intros Hdir Hne Hdoc Hs He.
  destruct (generate_gallery_html_writes w entries Hdir Hne)
    as (w1 & parts & Hrun & Hparts & Hfiles).
  exists w1. split; [done|].
  assert (files w1 !! "gallery_generated.html" =
          Some (join nl (render_part <$> parts))) as Hfrag
    by (rewrite Hfiles; apply lookup_insert_eq).
  assert (files w1 !! "index.html" = Some document) as Hdoc1
    by (rewrite Hfiles, lookup_insert_ne; done).
  assert ((update_gallery w1).1 = Returned true) as Hok
    by (by apply (update_gallery_succeeds w1
                    (join nl (render_part <$> parts)) document)).
  split; [done|].
  assert (contains start_marker (join nl (render_part <$> parts)) = true)
    as Hstart by (by eapply fragment_has_start_marker).
  destruct (update_gallery_keeps_markers w1 _ Hfrag Hstart Hok)
    as (document' & Hdoc' & Hs' & He').
  apply (update_gallery_succeeds _ (join nl (render_part <$> parts)) document');
    [|done..].
  by rewrite update_gallery_other_files.
Qed.

Lemma generate_then_update_witness :
  ∃ w1, generate_gallery_html site_with_pictures = Some w1 ∧
        (update_gallery w1).1 = Returned true ∧
        (update_gallery (update_gallery w1).2).1 = Returned true.
Proof.
  apply (generate_then_update site_with_pictures
           ["temple-gate.jpg"; "notes.txt"; "fuji-view.jpg"]
           ("<body>" +:+ start_marker +:+ " old" +:+ end_marker +:+ "</body>")).
  - reflexivity.
  - vm_compute. discriminate.
  - reflexivity.
  - reflexivity.
  - reflexivity.
Defined.

End pipeline.

(** ** More on the categorizer *)

Section categorizer_more.

Lemma lower_char_idem (c : ascii) : lower_char (lower_char c) = lower_char c.
Proof. destruct c as [[] [] [] [] [] [] [] []]; reflexivity. Qed.

Lemma lower_upper_char (c : ascii) : lower_char (upper_char c) = lower_char c.
Proof. destruct c as [[] [] [] [] [] [] [] []]; reflexivity. Qed.

Lemma lower_idem (s : string) : lower (lower s) = lower s.
Proof.
  induction s as [|c s IH]; [done|]. cbn. by rewrite lower_char_idem, IH.
Qed.

Lemma lower_upper (s : string) : lower (upper s) = lower s.
Proof.
  induction s as [|c s IH]; [done|]. cbn. by rewrite lower_upper_char, IH.
Qed.

(** X7. The category of an ASCII filename does not depend on the case of
    its letters: the lower-cased and the upper-cased filename get the
    category of the filename. *)
Theorem categorize_image_ignores_case (filename : string) :
  ascii_only filename = true →
  categorize_image (lower filename) = categorize_image filename ∧
  categorize_image (upper filename) = categorize_image filename.
Proof.
  intros _. unfold categorize_image, categorize_image_in.
  by rewrite lower_idem, lower_upper.
Qed.

Lemma categorize_image_ignores_case_witness :
  categorize_image (lower "Mount-Fuji-1.JPG") =
    categorize_image "Mount-Fuji-1.JPG" ∧
  categorize_image (upper "Mount-Fuji-1.JPG") =
    categorize_image "Mount-Fuji-1.JPG".
Proof.
  apply (categorize_image_ignores_case "Mount-Fuji-1.JPG").
  reflexivity.
Defined.

(** A string that holds a pattern holds every part of the pattern. *)
Lemma contains_part (a p b s : string) :
  contains (a +:+ p +:+ b) s = true → contains p s = true.
Proof.
  intros (pre & post & ->)%contains_inv.
  replace (pre +:+ (a +:+ p +:+ b) +:+ post)
    with ((pre +:+ a) +:+ p +:+ (b +:+ post))
    by (by rewrite !string_app_assoc).
  apply contains_app_mid.
Qed.

Lemma contains_head_temple (s : string) :
  contains "temple-" s = false → contains "head-temple-" s = false.
Proof.
  intros Hs. destruct (contains "head-temple-" s) eqn:Hh; [|done].
  by rewrite (contains_part "head-" "temple-" "" s) in Hs.
Qed.

Lemma contains_mount_fuji (s : string) :
  contains "fuji-" s = false → contains "mount-fuji-" s = false.
Proof.
  intros Hs. destruct (contains "mount-fuji-" s) eqn:Hh; [|done].
  by rewrite (contains_part "mount-" "fuji-" "" s) in Hs.
Qed.

(** X8. Three keywords of the table never decide: ['head-temple-'] and
    ['mount-fuji-'] hold another keyword of their own rule, ['CX-'] is not
    lower case. The categorizer over the table without them returns what
    [categorize_image] returns. *)
Theorem categorize_image_effective_table (filename : string) :
  categorize_image filename = categorize_image_in CATEGORIES_effective filename.
Proof.
  unfold categorize_image, categorize_image_in.
  pose proof (contains_lower_capital "C" "X-" filename eq_refl) as HCX.
  pose proof (contains_head_temple (lower filename)) as Htemple.
  pose proof (contains_mount_fuji (lower filename)) as Hfuji.
  revert HCX Htemple Hfuji. generalize (lower filename) as fl.
  intros fl HCX Htemple Hfuji.
  cbn [CATEGORIES CATEGORIES_effective categorize_loop String.eqb Ascii.eqb
       Bool.eqb patterns any_pattern_in].
  rewrite HCX.
  destruct (contains "temple-" fl) eqn:Ht;
    [|rewrite ?(Htemple eq_refl)];
    (destruct (contains "fuji-" fl) eqn:Hf; [|rewrite ?(Hfuji eq_refl)]);
    repeat match goal with
           | |- context [contains ?p fl] => destruct (contains p fl)
           end; reflexivity.
Qed.

End categorizer_more.

(** ** Every image is rendered once *)

Section rendered_once.

Implicit Types (images : list string) (ks : list string).

Lemma groups_Permutation ks images :
  NoDup ks →
  (∀ img, img ∈ images → categorize_image img ∈ ks) →
  mjoin ((λ k, group_of k images) <$> ks) ≡ₚ images.
Proof.
  intros Hnd. revert images.
  induction Hnd as [|k ks Hk Hnd IH]; intros images Hin.
  - destruct images as [|img images]; [done|].
    exfalso. eapply not_elem_of_nil, (Hin img). left.
  - rewrite fmap_cons.
    change (mjoin (?x :: ?l)) with (x ++ mjoin l).
    assert ((λ k', group_of k' images) <$> ks =
            (λ k', group_of k' (filter (λ img, ¬ categorize_image img = k) images))
              <$> ks) as ->.
    { apply Forall_fmap_ext, Forall_forall. intros k' Hk'.
      unfold group_of. rewrite list_filter_filter. apply list_filter_iff.
      intros img. split; [|tauto]. intros <-. split; [done|]. by intros <-. }
    rewrite IH.
    + apply (filter_app_complement (λ img, categorize_image img = k)).
    + intros img [Hne Himg]%list_elem_of_filter.
      apply Hin, elem_of_cons in Himg as [?|?]; done.
Qed.

(** The blocks in the order of the table are the blocks of the images in
    that order, each under the category of its own filename. *)
Lemma blocks_under_own_category (alt_of : string → string) images ks :
  mjoin ((λ cat_id, (λ img, Block cat_id
                              ("assets/images/gallery/converted/" +:+ img)
                              (alt_of img)) <$> group_of cat_id images)
         <$> ks) =
  (λ img, Block (categorize_image img)
            ("assets/images/gallery/converted/" +:+ img) (alt_of img)) <$>
    mjoin ((λ k, group_of k images) <$> ks).
Proof.
  induction ks as [|k ks IH]; [done|]. rewrite !fmap_cons.
  change (mjoin (?x :: ?l)) with (x ++ mjoin l).
  rewrite fmap_app, IH. f_equal.
  apply Forall_fmap_ext, Forall_forall.
  by intros img [<- _]%list_elem_of_filter.
Qed.

(** X9. The grid of the fragment that is written holds one block per input
    image: the blocks are, in some order, the blocks of the images, each
    with the category of its own filename as [data-category] and the path
    of the picture as link target and as source; no image is dropped and
    none is written twice. *)
Theorem every_image_rendered_once images :
  ∃ parts alt_of shown,
    html_parts images = Some parts ∧
    shown ≡ₚ images ∧
    join nl (render_part <$> parts) =
      shown_page (length images) (controls_of images)
        ((λ img, Block (categorize_image img)
                   ("assets/images/gallery/converted/" +:+ img) (alt_of img))
           <$> shown) ∧
    (∀ w entries,
        converted_dir w = Some entries →
        images = sorted (glob_suffix ".jpg" entries) →
        images ≠ [] →
        ∃ w', generate_gallery_html w = Some w' ∧
              files w' !! output_file =
                Some (shown_page (length images) (controls_of images)
                        ((λ img, Block (categorize_image img)
                                   ("assets/images/gallery/converted/" +:+ img)
                                   (alt_of img)) <$> shown))).
Proof.
  exists ([FiltersOpen (length images)] ++
          omap (control_for images) CATEGORIES ++
          [FiltersClose; GridOpen] ++
          mjoin (blocks_for images <$> keys CATEGORIES) ++
          [GridClose]),
    alt_text, (mjoin ((λ k, group_of k images) <$> keys CATEGORIES)).
  split; [apply html_parts_layout|]. split.
  { apply groups_Permutation; [apply keys_NoDup|].
    intros img _. apply categorize_image_key. }
  assert (join nl (render_part <$>
            [FiltersOpen (length images)] ++
            omap (control_for images) CATEGORIES ++
            [FiltersClose; GridOpen] ++
            mjoin (blocks_for images <$> keys CATEGORIES) ++
            [GridClose]) =
          shown_page (length images) (controls_of images)
            ((λ img, Block (categorize_image img)
                       ("assets/images/gallery/converted/" +:+ img)
                       (alt_text img)) <$>
             mjoin ((λ k, group_of k images) <$> keys CATEGORIES))) as Htext.
  { rewrite (rendered_page images) by apply html_parts_layout.
    unfold blocks_in_table_order.
    by rewrite (blocks_under_own_category alt_text images
                  ["members"; "temple"; "fuji"; "travel"; "accommodation";
                   "local"; "misc"]). }
  split; [done|].
  intros w entries Hdir Himages Hne. rewrite <- Htext.
  exact (generate_gallery_html_renders images _ w entries
           (html_parts_layout images) Hdir Himages Hne).
Qed.

End rendered_once.

(** ** The alternative text *)

Section alt_texts.

Lemma endswith_inv (p s : string) :
  endswith p s = true → ∃ base, s = base +:+ p.
Proof.
  induction s as [|c s IH]; cbn [endswith].
  - rewrite orb_false_r. intros ->%String.eqb_eq. by exists "".
  - intros [->%String.eqb_eq|Hs]%orb_true_iff; [by exists ""|].
    destruct (IH Hs) as [base ->]. by exists (String c base).
Qed.

Lemma rfind_char_jpg (base : string) :
  rfind_char (ascii_of_nat 46) (base +:+ ".jpg") = Some (String.length base).
Proof.
  induction base as [|c base IH]; [done|].
  rewrite string_app_cons. cbn [rfind_char String.length]. by rewrite IH.
Qed.

(** The stem of a scanned picture is its name without [.jpg]; only the name
    [.jpg] itself is its own stem. *)
Lemma stem_jpg (base : string) :
  stem (base +:+ ".jpg") = if decide (base = "") then ".jpg" else base.
Proof.
  unfold stem. rewrite rfind_char_jpg, string_length_app.
  destruct base as [|c base]; [done|]. rewrite decide_False by done.
  cbn [String.length].
  replace (0 <? S (String.length base))%nat with true
    by (symmetry; apply Nat.ltb_lt; lia).
  replace (S (String.length base) <? S (String.length base) + 4 - 1)%nat with true
    by (symmetry; apply Nat.ltb_lt; lia).
  apply (slice_to_app (String c base) ".jpg").
Qed.

Lemma length_replace_char (a b : ascii) (s : string) :
  String.length (replace_char a b s) = String.length s.
Proof. induction s as [|c s IH]; [done|]. cbn. by rewrite IH. Qed.

Lemma length_title_from (prev : bool) (s : string) :
  String.length (title_from prev s) = String.length s.
Proof.
  revert prev. induction s as [|c s IH]; intros prev; [done|]. cbn.
  destruct (is_upper c || is_lower c); cbn; by rewrite IH.
Qed.

Lemma contains_char_cons (c a : ascii) (s : string) :
  contains (String c "") (String a s) =
  Ascii.eqb c a || contains (String c "") s.
Proof. cbn. by destruct (Ascii.eqb c a). Qed.

Lemma replace_char_removes (a b : ascii) (s : string) :
  a ≠ b → contains (String a "") (replace_char a b s) = false.
Proof.
  intros Hab. induction s as [|c s IH]; [done|].
  cbn [replace_char]. rewrite contains_char_cons, IH, orb_false_r.
  destruct (Ascii.eqb_spec c a) as [->|Hca]; apply Ascii.eqb_neq; congruence.
Qed.

Lemma replace_char_keeps_out (c a b : ascii) (s : string) :
  b ≠ c → contains (String c "") s = false →
  contains (String c "") (replace_char a b s) = false.
Proof.
  intros Hbc. induction s as [|x s IH]; [done|].
  cbn [replace_char]. rewrite !contains_char_cons.
  intros [Hx Hs]%orb_false_iff. rewrite IH, orb_false_r by done.
  destruct (Ascii.eqb x a); [|done]. apply Ascii.eqb_neq. congruence.
Qed.

Lemma cased_stays_cased (x : ascii) :
  is_upper x || is_lower x = true →
  is_upper (lower_char x) || is_lower (lower_char x) = true ∧
  is_upper (upper_char x) || is_lower (upper_char x) = true.
Proof. destruct x as [[] [] [] [] [] [] [] []]; cbn; intros H; done. Qed.

Lemma title_from_keeps_out (c : ascii) (prev : bool) (s : string) :
  is_upper c || is_lower c = false →
  contains (String c "") s = false →
  contains (String c "") (title_from prev s) = false.
Proof.
  intros Hc. revert prev. induction s as [|x s IH]; intros prev; [done|].
  cbn [title_from]. rewrite contains_char_cons.
  intros [Hx Hs]%orb_false_iff.
  destruct (is_upper x || is_lower x) eqn:Hcased;
    rewrite contains_char_cons, IH, orb_false_r by done; [|done].
  destruct (cased_stays_cased x Hcased) as [Hl Hu].
  apply Ascii.eqb_neq. intros ->. destruct prev; congruence.
Qed.

(** X10. The alternative text of a scanned picture with an ASCII name is
    made from its name without [.jpg]: it has as many characters and holds
    neither a hyphen nor an underscore. *)
Theorem alt_text_of_scanned (entries : list string) (img : string) :
  img ∈ sorted (glob_suffix ".jpg" entries) →
  img ≠ ".jpg" →
  ascii_only img = true →
  ∃ base, img = base +:+ ".jpg" ∧
          stem img = base ∧
          String.length (alt_text img) = String.length base ∧
          contains "-" (alt_text img) = false ∧
          contains "_" (alt_text img) = false.
Proof.
  intros [_ Hjpg]%elem_of_sorted%elem_of_glob_suffix Hne _.
  destruct (endswith_inv _ _ Hjpg) as [base ->]. exists base.
  assert (stem (base +:+ ".jpg") = base) as Hstem.
  { rewrite stem_jpg. case_decide; [by subst|done]. }
  split; [done|]. split; [done|]. unfold alt_text, title. rewrite Hstem.
  split; [by rewrite length_title_from, !length_replace_char|]. split.
  - apply title_from_keeps_out; [done|].
    apply replace_char_keeps_out; [done|]. by apply replace_char_removes.
  - apply title_from_keeps_out; [done|]. by apply replace_char_removes.
Qed.

Lemma alt_text_of_scanned_witness :
  ∃ base, "head-temple_1.jpg" = base +:+ ".jpg" ∧
          stem "head-temple_1.jpg" = base ∧
          String.length (alt_text "head-temple_1.jpg") = String.length base ∧
          contains "-" (alt_text "head-temple_1.jpg") = false ∧
          contains "_" (alt_text "head-temple_1.jpg") = false.
Proof.
  apply (alt_text_of_scanned ["notes.txt"; "head-temple_1.jpg"]).
  - vm_compute. left.
  - discriminate.
  - reflexivity.
Defined.

End alt_texts.

(** ** The image list has no duplicates *)

Section image_list.

Lemma endswith_two (p q s : string) :
  endswith p s = true → endswith q s = true →
  endswith p q = true ∨ endswith q p = true.
Proof.
  induction s as [|c s IH]; cbn [endswith].
  - rewrite !orb_false_r. intros <-%String.eqb_eq <-%String.eqb_eq. by left.
  - intros [<-%String.eqb_eq|Hp]%orb_true_iff [<-%String.eqb_eq|Hq]%orb_true_iff.
    + left. cbn [endswith]. by rewrite String.eqb_refl.
    + right. cbn [endswith]. by rewrite Hq, orb_true_r.
    + left. cbn [endswith]. by rewrite Hp, orb_true_r.
    + by apply IH.
Qed.

Lemma glob_suffix_disjoint (p q img : string) (entries : list string) :
  endswith p q = false → endswith q p = false →
  img ∈ glob_suffix p entries → img ∉ glob_suffix q entries.
Proof.
  intros Hpq Hqp [_ Hp]%elem_of_glob_suffix [_ Hq]%elem_of_glob_suffix.
  destruct (endswith_two p q img Hp Hq); congruence.
Qed.

Lemma NoDup_glob_suffix (p : string) (entries : list string) :
  NoDup entries → NoDup (glob_suffix p entries).
Proof. apply NoDup_filter. Qed.

(** No name is matched by two of the ten patterns, so that a listing
    without duplicates is scanned without duplicates. *)
Lemma NoDup_scan_extensions (entries : list string) :
  NoDup entries → NoDup (scan_extensions image_extensions entries).
Proof.
  intros Hnd. cbn [image_extensions scan_extensions]. rewrite app_nil_r.
  repeat (apply NoDup_app; split; [by apply NoDup_glob_suffix|]; split;
          [intros img Himg; rewrite ?not_elem_of_app; repeat split;
           (eapply glob_suffix_disjoint; [| |exact Himg]; reflexivity)|]).
  by apply NoDup_glob_suffix.
Qed.

Lemma filter_other_id (x : string) (l : list string) :
  x ∉ l → filter (λ y, y ≠ x) l = l.
Proof.
  induction l as [|y l IH]; [done|].
  intros [Hxy Hx]%not_elem_of_cons.
  rewrite filter_cons_True by done. by rewrite IH.
Qed.

Lemma first_occurrences_NoDup (l : list string) :
  NoDup l → first_occurrences l = l.
Proof.
  induction 1 as [|x l Hx Hnd IH]; [done|]. cbn [first_occurrences].
  by rewrite IH, filter_other_id.
Qed.

(** X11. The names written to [image_list.js] come in ascending order and,
    for a directory listing without duplicates, without duplicates: the loop
    of [generate_gallery_urls.py] that removes duplicates then changes
    nothing. *)
Theorem image_names_need_no_dedup (entries : list string) :
  NoDup entries →
  StronglySorted path_le (image_names entries) ∧
  NoDup (image_names entries) ∧
  unique_images (image_names entries) = image_names entries.
Proof.
  intros Hnd.
  assert (NoDup (image_names entries)) as Hnames.
  { unfold image_names, sorted. rewrite merge_sort_Permutation.
    by apply NoDup_scan_extensions. }
  split; [apply sorted_spec|]. split; [done|].
  by rewrite unique_images_first_occurrences, first_occurrences_NoDup.
Qed.

Lemma image_names_need_no_dedup_witness :
  StronglySorted path_le (image_names ["b.PNG"; "a.jpg"; "notes.txt"; "c.gif"]) ∧
  NoDup (image_names ["b.PNG"; "a.jpg"; "notes.txt"; "c.gif"]) ∧
  unique_images (image_names ["b.PNG"; "a.jpg"; "notes.txt"; "c.gif"]) =
    image_names ["b.PNG"; "a.jpg"; "notes.txt"; "c.gif"].
Proof.
  apply (image_names_need_no_dedup ["b.PNG"; "a.jpg"; "notes.txt"; "c.gif"]).
  apply (bool_decide_unpack _). vm_compute. exact I.
Defined.

End image_list.

(** ** Writing the image list and reading it back *)

Section round_trip.

Lemma slice_from_length_app (a b : string) (j : nat) :
  slice_from (String.length a + j) (a +:+ b) = slice_from j b.
Proof.
  induction a as [|x a IH]; [done|]. rewrite string_app_cons. apply IH.
Qed.

Lemma slice_from_lt_app (a b : string) (j : nat) :
  j < String.length a →
  slice_from j (a +:+ b) = slice_from j a +:+ b.
Proof.
  revert j. induction a as [|x a IH]; intros j Hj; [cbn in Hj; lia|].
  destruct j as [|j]; [done|]. rewrite string_app_cons. cbn [slice_from].
  apply IH. cbn in Hj. lia.
Qed.

Lemma no_start_app (p a a' : string) :
  no_start p a → no_start p a' → no_start p (a +:+ a').
Proof.
  intros Ha Ha' b j Hj. rewrite string_app_assoc.
  destruct (decide (j < String.length a)) as [Hlt|Hge]; [by apply Ha|].
  replace j with (String.length a + (j - String.length a)) by lia.
  rewrite slice_from_length_app. apply Ha'.
  rewrite string_length_app in Hj. lia.
Qed.

Lemma find_after (p a b : string) :
  no_start p a →
  find (a +:+ b) p =
    if (find b p =? -1)%Z then (-1)%Z
    else (Z.of_nat (String.length a) + find b p)%Z.
Proof.
  intros Ha. destruct (Z.eqb_spec (find b p) (-1)) as [Hb|Hb].
  - apply find_absent. apply find_absent in Hb.
    destruct (contains p (a +:+ b)) eqn:Hc; [|done].
    apply find_present in Hc.
    destruct (find_found _ _ _ eq_refl Hc) as (Hat & _ & Hlen & _).
    set (i := Z.to_nat (find (a +:+ b) p)) in *.
    destruct (decide (i < String.length a)) as [Hlt|Hge].
    + by rewrite Ha in Hat.
    + replace i with (String.length a + (i - String.length a)) in Hat by lia.
      rewrite slice_from_length_app in Hat.
      assert (contains p b = true) as Hcb; [|congruence].
      rewrite <- (slice_to_from (i - String.length a) b).
      apply contains_app_r.
      destruct (slice_from (i - String.length a) b); cbn [contains];
        by rewrite Hat.
  - destruct (find_found _ _ _ eq_refl Hb) as (Hat & Hbefore & Hlen & Hpos).
    rewrite (find_first _ _ (String.length a + Z.to_nat (find b p))).
    + lia.
    + by rewrite slice_from_length_app.
    + intros j Hj. destruct (decide (j < String.length a)) as [Hlt|Hge];
        [by apply Ha|].
      replace j with (String.length a + (j - String.length a)) by lia.
      rewrite slice_from_length_app. apply Hbefore. lia.
    + rewrite string_length_app. lia.
Qed.

Lemma no_start_nil (p : string) : no_start p "".
Proof. intros b j Hj. cbn in Hj. lia. Qed.

Lemma no_start_cons (p : string) (c : ascii) (a : string) :
  (∀ b, startswith p (String c (a +:+ b)) = false) →
  no_start p a → no_start p (String c a).
Proof.
  intros Hc Ha b [|j] Hj; [apply Hc|]. rewrite string_app_cons.
  apply Ha. cbn in Hj. lia.
Qed.

Lemma no_start_line_end (img : string) :
  contains array_closing img = false →
  no_start array_closing (img +:+ "'," +:+ nl).
Proof.
  induction img as [|c img IH]; intros Himg.
  - intros b j Hj. do 3 (destruct j as [|j]; [done|]).
    apply Nat.ltb_lt in Hj. vm_compute in Hj. discriminate Hj.
  - cbn [contains] in Himg. apply orb_false_iff in Himg as [Hc Himg].
    rewrite string_app_cons. apply no_start_cons; [|by apply IH].
    intros b. destruct img as [|d img]; cbn in Hc |- *;
      destruct (Ascii.eqb "]" c); try done.
Qed.

Lemma js_lines_cons (img : string) (names : list string) :
  js_lines (img :: names) =
  ("  '" +:+ (img +:+ "'," +:+ nl)) +:+ js_lines names.
Proof. cbn [js_lines]. by rewrite !string_app_assoc. Qed.

Lemma no_start_js_lines (names : list string) :
  Forall plain_name names → no_start array_closing (js_lines names).
Proof.
  induction 1 as [|img names (_ & Himg & _) _ IH]; [apply no_start_nil|].
  rewrite js_lines_cons. apply no_start_app; [|done].
  apply no_start_app; [|by apply no_start_line_end].
  intros b j Hj. do 3 (destruct j as [|j]; [done|]).
  apply Nat.ltb_lt in Hj. vm_compute in Hj. discriminate Hj.
Qed.

(** The regular expression finds the text between the brackets. *)
Lemma array_match_js_array (names : list string) :
  Forall plain_name names →
  array_match (js_array names) = Some (nl +:+ js_lines names).
Proof.
  intros Hnames. unfold array_match.
  change (js_array names)
    with (array_opening +:+ nl +:+ js_lines names +:+ "];").
  assert (find (array_opening +:+ nl +:+ js_lines names +:+ "];") array_opening
          = 0%Z) as ->.
  { apply (find_first _ _ 0); [apply startswith_app| |]; intros; lia. }
  cbn [Z.eqb Z.to_nat Nat.add].
  rewrite (slice_from_app array_opening).
  assert (find (nl +:+ js_lines names +:+ "];") array_closing =
          Z.of_nat (String.length (nl +:+ js_lines names))) as Hfind.
  { rewrite <- string_app_assoc, find_after.
    - change (find "];" array_closing) with 0%Z. cbn [Z.eqb]. lia.
    - apply no_start_app; [|by apply no_start_js_lines].
      intros b j Hj. destruct j as [|j]; [done|].
      apply Nat.ltb_lt in Hj. vm_compute in Hj. discriminate Hj. }
  rewrite Hfind.
  destruct (Z.eqb_spec (Z.of_nat (String.length (nl +:+ js_lines names))) (-1));
    [lia|].
  rewrite Nat2Z.id, <- string_app_assoc. by rewrite slice_to_app.
Qed.

Lemma split_on_nonempty (c : ascii) (s : string) : split_on c s ≠ [].
Proof.
  destruct s as [|x s]; [done|]. cbn [split_on].
  destruct (split_on c s); [done|]. by destruct (Ascii.eqb x c).
Qed.

(** A piece without the separator, then the separator: the piece is the
    first element of the split. *)
Lemma split_on_piece (c : ascii) (a rest : string) :
  contains (String c "") a = false →
  split_on c (a +:+ String c rest) = a :: split_on c rest.
Proof.
  induction a as [|x a IH]; intros Ha.
  - change ("" +:+ String c rest) with (String c rest). cbn [split_on].
    destruct (split_on c rest) eqn:Hrest; [by apply split_on_nonempty in Hrest|].
    by rewrite Ascii.eqb_refl.
  - rewrite contains_char_cons in Ha. apply orb_false_iff in Ha as [Hx Ha].
    rewrite string_app_cons. cbn [split_on]. rewrite IH by done.
    rewrite Ascii.eqb_sym in Hx. by rewrite Hx.
Qed.

Lemma contains_char_app (c : ascii) (a b : string) :
  contains (String c "") (a +:+ b) =
  contains (String c "") a || contains (String c "") b.
Proof.
  induction a as [|x a IH].
  - change ("" +:+ b) with b. by destruct b.
  - rewrite string_app_cons, !contains_char_cons, IH. by rewrite orb_assoc.
Qed.

Lemma js_line_one_line (img : string) :
  contains nl img = false → contains nl (js_line img) = false.
Proof.
  intros Himg. unfold js_line, nl, chr in *.
  by rewrite !contains_char_app, Himg.
Qed.

Lemma split_js_lines (names : list string) :
  Forall plain_name names →
  split_on (ascii_of_nat 10) (js_lines names) = (js_line <$> names) ++ [""].
Proof.
  induction 1 as [|img names [Himg _] _ IH]; [done|].
  assert (js_lines (img :: names) =
          js_line img +:+ String (ascii_of_nat 10) (js_lines names)) as ->.
  { cbn [js_lines]. unfold js_line. by rewrite !string_app_assoc. }
  rewrite split_on_piece by (by apply js_line_one_line).
  by rewrite IH.
Qed.

Lemma rstrip_keeps (a : string) (c : ascii) :
  is_space c = false → rstrip (a +:+ String c "") = a +:+ String c "".
Proof.
  intros Hc. induction a as [|x a IH].
  - change ("" +:+ String c "") with (String c ""). cbn. by rewrite Hc.
  - rewrite string_app_cons. cbn [rstrip]. rewrite IH. by destruct a.
Qed.

Lemma endswith_app (a p : string) : endswith p (a +:+ p) = true.
Proof.
  induction a as [|x a IH].
  - change ("" +:+ p) with p. destruct p; cbn [endswith];
      by rewrite String.eqb_refl.
  - rewrite string_app_cons. cbn [endswith]. rewrite IH. apply orb_true_r.
Qed.

(** A written line is parsed back to its name. *)
Lemma parse_js_line (img : string) (lines : list string) :
  parse_lines (js_line img :: lines) = img :: parse_lines lines.
Proof.
  cbn [parse_lines].
  assert (strip (js_line img) = String "'" (img +:+ "',")) as ->.
  { unfold strip, js_line. cbn [lstrip String.append is_space].
    change (lstrip ("  '" +:+ img +:+ "',")) with (String "'" (img +:+ "',")).
    replace (String "'" (img +:+ "',")) with ((String "'" (img +:+ "'")) +:+ ",")
      by (by rewrite string_app_cons, string_app_assoc).
    by apply rstrip_keeps. }
  cbn [startswith Ascii.eqb Bool.eqb andb].
  replace (endswith "'," (String "'" (img +:+ "',"))) with true
    by (symmetry; apply (endswith_app (String "'" img) "',")).
  cbn [andb]. f_equal. unfold slice_inner.
  cbn [slice_from String.length]. rewrite string_length_app.
  replace (S (String.length img + String.length "',") - 2 - 1)
    with (String.length img) by (cbn; lia).
  apply slice_to_app.
Qed.

Lemma parse_js_lines (names : list string) :
  parse_lines ((js_line <$> names) ++ [""]) = names.
Proof.
  induction names as [|img names IH]; [done|].
  rewrite fmap_cons. cbn [app]. by rewrite parse_js_line, IH.
Qed.

(** The text between the brackets is parsed back to the names. *)
Lemma parse_array_content (names : list string) :
  Forall plain_name names →
  parse_lines (split_on (ascii_of_nat 10) (nl +:+ js_lines names)) = names.
Proof.
  intros Hnames.
  change (nl +:+ js_lines names)
    with ("" +:+ String (ascii_of_nat 10) (js_lines names)).
  rewrite split_on_piece by done.
  rewrite split_js_lines by done.
  change (parse_lines ("" :: (js_line <$> names) ++ [""]))
    with (parse_lines ((js_line <$> names) ++ [""])).
  apply parse_js_lines.
Qed.

Lemma no_carriage_return_contains (s : string) :
  no_carriage_return s = negb (contains (chr 13) s).
Proof.
  induction s as [|c s IH]; [done|]. unfold chr in *.
  rewrite contains_char_cons, negb_orb, <- IH. cbn [no_carriage_return].
  by rewrite Ascii.eqb_sym.
Qed.

Lemma no_carriage_return_app (a b : string) :
  no_carriage_return (a +:+ b) = no_carriage_return a && no_carriage_return b.
Proof.
  induction a as [|x a IH]; [done|]. rewrite string_app_cons.
  cbn [no_carriage_return]. by rewrite IH, andb_assoc.
Qed.

(** The written list holds no carriage return: it is read as it is
    stored. *)
Lemma js_array_no_carriage_return (names : list string) :
  Forall plain_name names → no_carriage_return (js_array names) = true.
Proof.
  intros Hnames. unfold js_array.
  rewrite !no_carriage_return_app.
  assert (no_carriage_return (js_lines names) = true) as ->; [|done].
  induction Hnames as [|img names (_ & _ & Himg) _ IH]; [done|].
  cbn [js_lines]. rewrite !no_carriage_return_app, IH.
  by rewrite (no_carriage_return_contains img), Himg.
Qed.

(** X12. The list written by [generate_image_list.py] is read back by
    [generate_gallery_urls.py] as it was, provided that no name holds a line
    feed, a carriage return or the closing of the array. *)
Theorem image_list_round_trip (w : world) (names : list string) :
  Forall plain_name names →
  read_image_list (write_file "image_list.js" (js_array names) w) = Some names.
Proof.
  intros Hnames. unfold read_image_list. cbn [files write_file].
  rewrite lookup_insert_eq. cbn [fmap option_fmap option_map mbind option_bind].
  rewrite universal_newlines_plain by (by apply js_array_no_carriage_return).
  unfold parse_image_list.
  rewrite array_match_js_array by done. cbn [mbind option_bind].
  f_equal. by apply parse_array_content.
Qed.

Lemma image_list_round_trip_witness :
  read_image_list
    (write_file "image_list.js" (js_array ["a b.jpg"; "it's].PNG"; ";c.gif"])
       picture_directory) =
    Some ["a b.jpg"; "it's].PNG"; ";c.gif"].
Proof.
  apply (image_list_round_trip picture_directory
           ["a b.jpg"; "it's].PNG"; ";c.gif"]).
  repeat constructor.
Defined.

(** A name that holds a carriage return is cut in two when the list is read
    back, and neither half is parsed as a name. *)
Lemma image_list_carriage_return_example :
  read_image_list
    (write_file "image_list.js" (js_array ["a" +:+ chr 13 +:+ "b.jpg"])
       picture_directory) = Some [].
Proof. reflexivity. Qed.

(** A name that holds the closing of the array cuts the list short. *)
Lemma image_list_cut_example :
  parse_image_list (js_array ["a.jpg"; "b];.jpg"; "c.jpg"]) = Some ["a.jpg"].
Proof. reflexivity. Qed.

End round_trip.

(** ** Grouping by a key, in general *)

Section grouping_by_key.

Variable key_of : string → string.

Implicit Types (images ks : list string).

Lemma key_group_sizes ks images :
  NoDup ks → (∀ img, key_of img ∈ ks) →
  sum_list ((λ k, length (filter (λ img, key_of img = k) images)) <$> ks) =
  length images.
Proof.
  intros Hnd Hin. induction images as [|img images IH].
  - clear. induction ks as [|k l IHl]; [done|].
    rewrite fmap_cons. cbn [sum_list_with]. by rewrite IHl.
  - assert (∀ l, sum_list ((λ k, length (filter (λ i, key_of i = k) (img :: images))) <$> l)
                 = sum_list ((λ k, if decide (key_of img = k) then 1 else 0) <$> l) +
                   sum_list ((λ k, length (filter (λ i, key_of i = k) images)) <$> l))
      as ->.
    { intros l. induction l as [|k l IHl]; [done|].
      rewrite !fmap_cons. cbn [sum_list_with]. rewrite IHl.
      rewrite filter_cons. destruct (decide (key_of img = k)); cbn; lia. }
    by rewrite IH, indicator_sum_present.
Qed.

Lemma key_groups_Permutation ks images :
  NoDup ks → (∀ img, img ∈ images → key_of img ∈ ks) →
  mjoin ((λ k, filter (λ img, key_of img = k) images) <$> ks) ≡ₚ images.
Proof.
  intros Hnd. revert images.
  induction Hnd as [|k l Hk Hnd IH]; intros images Hin.
  - destruct images as [|img images]; [done|].
    exfalso. eapply not_elem_of_nil, (Hin img). left.
  - rewrite fmap_cons.
    change (mjoin (?x :: ?y)) with (x ++ mjoin y).
    assert ((λ k', filter (λ img, key_of img = k') images) <$> l =
            (λ k', filter (λ img, key_of img = k')
                     (filter (λ img, ¬ key_of img = k) images)) <$> l) as ->.
    { apply Forall_fmap_ext, Forall_forall. intros k' Hk'.
      rewrite list_filter_filter. apply list_filter_iff.
      intros img. split; [|tauto]. intros <-. split; [done|]. by intros <-. }
    rewrite IH.
    + apply (filter_app_complement (λ img, key_of img = k)).
    + intros img [Hne Himg]%list_elem_of_filter.
      apply Hin, elem_of_cons in Himg as [?|?]; done.
Qed.

End grouping_by_key.

(** ** The sections of the second gallery *)

Section url_sections.

Implicit Types (images : list string) (d : list (string * list string)).

Lemma url_keys_NoDup : NoDup url_categories.*1.
Proof. apply (bool_decide_unpack _). vm_compute. exact I. Qed.

(** The chain ends in one of the eight keys of the dict. *)
Lemma url_category_key (img : string) : url_category img ∈ url_categories.*1.
Proof.
  unfold url_category. generalize (lower img) as fl. intros fl.
  repeat match goal with
         | |- context [if ?b then _ else _] => destruct b
         end;
    apply (bool_decide_unpack _); vm_compute; exact I.
Qed.

Lemma dict_untouched (key img : string) d :
  key ∉ d.*1 →
  (λ kv, (kv.1, if decide (kv.1 = key) then kv.2 ++ [img] else kv.2)) <$> d = d.
Proof.
  induction d as [|[k v] d IH]; [done|].
  rewrite fmap_cons. cbn [fst snd fmap list_fmap].
  intros [Hk Hd]%not_elem_of_cons.
  rewrite decide_False by done. f_equal. by apply IH.
Qed.

(** Appending under a key that is present changes the list of that key and
    raises nothing. *)
Lemma dict_append_spec (key img : string) d :
  NoDup d.*1 → key ∈ d.*1 →
  dict_append key img d =
    Some ((λ kv, (kv.1, if decide (kv.1 = key) then kv.2 ++ [img] else kv.2))
            <$> d).
Proof.
  induction d as [|[k v] d IH]; [by intros _ ?%elem_of_nil|].
  rewrite fmap_cons. cbn [fst snd fmap list_fmap dict_append].
  intros [Hk Hnd]%NoDup_cons Hin.
  destruct (String.eqb_spec k key) as [->|Hne].
  - rewrite decide_True by done.
    by rewrite (dict_untouched key img d).
  - rewrite decide_False by done.
    apply elem_of_cons in Hin as [?|Hin]; [congruence|].
    change (list_fmap _ _ ?f d) with (f <$> d).
    by rewrite IH.
Qed.

Lemma url_categorize_into_spec d images :
  NoDup d.*1 → (∀ img, url_category img ∈ d.*1) →
  url_categorize_into d images =
    Some ((λ kv, (kv.1, kv.2 ++ url_group_of kv.1 images)) <$> d).
Proof.
  revert d. induction images as [|img images IH]; intros d Hnd Hkeys.
  - cbn [url_categorize_into]. f_equal. symmetry.
    rewrite <- (list_fmap_id d) at 2. apply list_fmap_ext.
    intros i [k v] _. cbn. by rewrite app_nil_r.
  - cbn [url_categorize_into]. rewrite dict_append_spec by done.
    cbn [mbind option_bind].
    rewrite IH.
    + f_equal. rewrite <- list_fmap_compose. apply list_fmap_ext.
      intros i [k v] _. cbn [compose fst snd]. f_equal.
      unfold url_group_of. rewrite filter_cons.
      destruct (decide (k = url_category img)) as [->|Hne].
      * rewrite !decide_True by done. by rewrite <- app_assoc.
      * by rewrite decide_False by done.
    + by rewrite <- list_fmap_compose.
    + intros img'. by rewrite <- list_fmap_compose.
Qed.

Lemma url_categorize_spec images :
  url_categorize_into url_categories images =
    Some ((λ k, (k, url_group_of k images)) <$> url_categories.*1).
Proof.
  rewrite url_categorize_into_spec
    by (apply url_keys_NoDup || apply url_category_key).
  reflexivity.
Qed.

Lemma section_open_cons (c : string) (n : nat) (l : list section_part) :
  section_titles (SectionOpen c n :: l) = c :: section_titles l ∧
  section_counts (SectionOpen c n :: l) = n :: section_counts l ∧
  section_items (SectionOpen c n :: l) = section_items l.
Proof. done. Qed.

Lemma section_close_cons (l : list section_part) :
  section_titles (SectionClose :: l) = section_titles l ∧
  section_counts (SectionClose :: l) = section_counts l ∧
  section_items (SectionClose :: l) = section_items l.
Proof. done. Qed.

Lemma section_items_app (c : string) (g : list string) (l : list section_part) :
  section_titles ((SectionItem c <$> g) ++ l) = section_titles l ∧
  section_counts ((SectionItem c <$> g) ++ l) = section_counts l ∧
  section_items ((SectionItem c <$> g) ++ l) =
    ((λ img, (c, img)) <$> g) ++ section_items l.
Proof.
  induction g as [|img g (IH1 & IH2 & IH3)]; [done|].
  rewrite !fmap_cons. cbn [app]. repeat split; [done..|].
  unfold section_items in *. cbn [omap list_omap]. f_equal. apply IH3.
Qed.

(** The sections of a dict that holds the groups of its keys. *)
Lemma html_sections_contents (G : string → list string) (ks : list string) :
  section_titles (html_sections ((λ k, (k, G k)) <$> ks)) =
    filter (λ k, G k ≠ []) ks ∧
  sum_list (section_counts (html_sections ((λ k, (k, G k)) <$> ks))) =
    sum_list ((λ k, length (G k)) <$> ks) ∧
  (0 ∉ section_counts (html_sections ((λ k, (k, G k)) <$> ks))) ∧
  section_items (html_sections ((λ k, (k, G k)) <$> ks)) =
    mjoin ((λ k, (λ img, (k, img)) <$> G k) <$> ks).
Proof.
  induction ks as [|k ks (IH1 & IH2 & IH3 & IH4)].
  { repeat split; try done. apply not_elem_of_nil. }
  rewrite !fmap_cons. cbn [html_sections].
  change (mjoin (?x :: ?y)) with (x ++ mjoin y).
  destruct (G k) as [|img g] eqn:Hg.
  - rewrite filter_cons_False by (rewrite Hg; intros H; by apply H).
    repeat split; (done || (cbn; by rewrite IH2)).
  - rewrite filter_cons_True by (by rewrite Hg).
    cbn [app].
    destruct (section_open_cons k (length (img :: g))
                ((SectionItem k <$> img :: g) ++
                 SectionClose :: html_sections ((λ k, (k, G k)) <$> ks)))
      as (-> & -> & ->).
    destruct (section_items_app k (img :: g)
                (SectionClose :: html_sections ((λ k, (k, G k)) <$> ks)))
      as (-> & -> & ->).
    destruct (section_close_cons (html_sections ((λ k, (k, G k)) <$> ks)))
      as (-> & -> & ->).
    rewrite IH1, IH4. repeat split; try done.
    + cbn. by rewrite IH2.
    + rewrite elem_of_cons. intros [?|?]; [done|done].
Qed.

Lemma files_print_summary d (w : world) :
  files (print_summary d w) = files w.
Proof.
  revert w. induction d as [|[k [|img g]] d IH]; intros w; cbn [print_summary];
    [done|by rewrite IH..].
Qed.

(** The run of the script on a list that parses: it raises nothing and
    writes the sections of the groups, touching no other file. *)
Lemma generate_gallery_urls_writes (w : world) images :
  read_image_list w = Some images →
  ∃ w', generate_gallery_urls w = Some w' ∧
        files w' =
          <["gallery_sections.html" :=
              join nl (render_section_part <$>
                html_sections ((λ k, (k, url_group_of k (unique_images images)))
                                 <$> url_categories.*1))]> (files w).
Proof.
  intros Hread. unfold generate_gallery_urls.
  rewrite Hread. cbn [mbind option_bind]. rewrite url_categorize_spec.
  cbn [mbind option_bind]. eexists. split; [done|].
  by rewrite files_print_summary.
Qed.

Lemma read_image_list_file (w : world) (content : string) :
  files w !! "image_list.js" = Some content →
  read_image_list w = parse_image_list (universal_newlines content).
Proof. intros Hfile. unfold read_image_list. by rewrite Hfile. Qed.

(** X13. The script raises exactly when [image_list.js] is missing or holds
    no array; otherwise it writes [gallery_sections.html] and no other file.
    *)
Theorem generate_gallery_urls_frame (w : world) :
  (generate_gallery_urls w = None ↔
   files w !! "image_list.js" = None ∨
   ∃ content, files w !! "image_list.js" = Some content ∧
              array_match content = None) ∧
  (∀ w' path, generate_gallery_urls w = Some w' →
              path ≠ "gallery_sections.html" →
              files w' !! path = files w !! path).
Proof.
  destruct (files w !! "image_list.js") as [content|] eqn:Hfile.
  - pose proof (read_image_list_file w content Hfile) as Hread.
    destruct (parse_image_list (universal_newlines content))
      as [images|] eqn:Hparse.
    + destruct (generate_gallery_urls_writes w images Hread)
        as (w' & Hrun & Hfiles).
      rewrite Hrun. split.
      * split; [done|]. intros [?|(c & [= <-] & Hnone)]; [done|].
        apply array_match_universal_newlines in Hnone.
        unfold parse_image_list in Hparse. by rewrite Hnone in Hparse.
      * intros w'' path [= <-] Hpath. by rewrite Hfiles, lookup_insert_ne.
    + assert (generate_gallery_urls w = None) as ->.
      { unfold generate_gallery_urls. by rewrite Hread. }
      split; [|done]. split; [|done]. intros _. right. exists content.
      split; [done|]. apply array_match_universal_newlines.
      unfold parse_image_list in Hparse.
      by destruct (array_match (universal_newlines content)).
  - assert (generate_gallery_urls w = None) as ->.
    { unfold generate_gallery_urls, read_image_list. by rewrite Hfile. }
    split; [|done]. split; [by left|done].
Qed.

Lemma image_names_NoDup (entries : list string) :
  NoDup entries → NoDup (image_names entries).
Proof.
  intros Hnd. unfold image_names, sorted. rewrite merge_sort_Permutation.
  by apply NoDup_scan_extensions.
Qed.

Lemma unique_images_NoDup (l : list string) : NoDup l → unique_images l = l.
Proof.
  intros Hnd. by rewrite unique_images_first_occurrences, first_occurrences_NoDup.
Qed.

(** The elements of one section are written as a reader meets them. *)
Lemma render_section (category : string) (images : list string) :
  render_section_part <$>
    ([SectionOpen category (length images)] ++
     (SectionItem category <$> images) ++ [SectionClose]) =
  shown_section url_alt_text (category, images).
Proof.
  unfold shown_section. cbn [fst snd]. rewrite !fmap_app.
  apply (f_equal2 app); [|apply (f_equal2 app); [|done]].
  - cbn [fmap list_fmap render_section_part]. f_equal.
    unfold q. by rewrite !string_app_assoc.
  - rewrite <- list_fmap_compose. apply list_fmap_ext. intros _ img _.
    cbn [compose render_section_part]. unfold q, BASE_URL.
    by rewrite !string_app_assoc.
Qed.

(** The sections that are written are the sections as a reader meets them,
    for the groups that are not empty. *)
Lemma rendered_sections (d : list (string * list string)) :
  render_section_part <$> html_sections d =
  mjoin (shown_section url_alt_text <$> filter (λ section, section.2 ≠ []) d).
Proof.
  induction d as [|[category images] d IH]; [done|].
  cbn [html_sections]. destruct images as [|img images].
  { by rewrite filter_cons_False by (intros H; by apply H). }
  rewrite filter_cons_True by done.
  change (shown_section url_alt_text <$> ?x :: ?l)
    with (shown_section url_alt_text x :: (shown_section url_alt_text <$> l)).
  change (mjoin (?x :: ?l)) with (x ++ mjoin l).
  rewrite <- IH, <- render_section, !fmap_app, <- !app_assoc. done.
Qed.

Lemma sections_filter_cons (G : string → list string) (k : string)
    (ks : list string) :
  filter (λ section : string * list string, section.2 ≠ [])
         ((λ k, (k, G k)) <$> k :: ks) =
  (if decide (G k ≠ []) then [(k, G k)] else []) ++
  filter (λ section : string * list string, section.2 ≠ [])
         ((λ k, (k, G k)) <$> ks).
Proof.
  rewrite fmap_cons, filter_cons. cbn [snd]. by destruct (decide (G k ≠ [])).
Qed.

(** What the sections of the groups that are not empty show: the images of
    every group, the keys of the groups that are not empty, the sizes of
    the groups. *)
Lemma sections_contents (G : string → list string) (ks : list string) :
  shown_images (filter (λ section, section.2 ≠ []) ((λ k, (k, G k)) <$> ks)) =
    mjoin ((λ k, (λ img, (k, img)) <$> G k) <$> ks) ∧
  (filter (λ section, section.2 ≠ []) ((λ k, (k, G k)) <$> ks)).*1 =
    filter (λ k, G k ≠ []) ks ∧
  sum_list ((λ section, length section.2) <$>
            filter (λ section, section.2 ≠ []) ((λ k, (k, G k)) <$> ks)) =
    sum_list ((λ k, length (G k)) <$> ks).
Proof.
  induction ks as [|k ks (IH1 & IH2 & IH3)]; [done|].
  rewrite sections_filter_cons, (filter_cons _ k ks).
  rewrite !fmap_cons.
  change (mjoin (?x :: ?l)) with (x ++ mjoin l).
  destruct (decide (G k ≠ [])) as [Hk|Hk]; cbn [app].
  - unfold shown_images in *. rewrite !fmap_cons.
    change (mjoin (?x :: ?l)) with (x ++ mjoin l).
    cbn [fst snd sum_list_with]. by rewrite IH1, IH2, IH3.
  - assert (G k = []) as Hnil by (destruct (G k); [done|exfalso; by apply Hk]).
    rewrite Hnil. cbn [fmap list_fmap app length sum_list_with].
    by rewrite IH1, IH2, IH3.
Qed.

Lemma sections_of_nonempty (l : list string) :
  Forall (λ section, section.2 ≠ []) (sections_of l).
Proof. apply Forall_forall. by intros x [? _]%list_elem_of_filter. Qed.

(** The run of the script on a list that parses, in terms of the text that
    is written. *)
Lemma generate_gallery_urls_shows (w : world) images :
  read_image_list w = Some images →
  ∃ w', generate_gallery_urls w = Some w' ∧
        files w' !! "gallery_sections.html" =
          Some (shown_sections url_alt_text (sections_of (unique_images images))).
Proof.
  intros Hread.
  destruct (generate_gallery_urls_writes w images Hread) as (w' & Hrun & Hfiles).
  exists w'. split; [done|].
  rewrite Hfiles, lookup_insert_eq. by rewrite rendered_sections.
Qed.

Lemma shown_images_cover (l : list string) :
  shown_images (sections_of l) ≡ₚ (λ img, (url_category img, img)) <$> l.
Proof.
  unfold sections_of.
  destruct (sections_contents (λ k, url_group_of k l) url_categories.*1)
    as (-> & _ & _).
  trans ((λ img, (url_category img, img)) <$>
         mjoin ((λ k, url_group_of k l) <$> url_categories.*1)).
  - match goal with |- ?a ≡ₚ ?b => assert (a = b) as ->; [|done] end.
    generalize (url_categories.*1). intros ks.
    induction ks as [|k ks IH]; [done|]. rewrite !fmap_cons.
    change (mjoin (?x :: ?y)) with (x ++ mjoin y).
    rewrite fmap_app, IH. f_equal.
    apply Forall_fmap_ext, Forall_forall.
    by intros img [<- _]%list_elem_of_filter.
  - apply fmap_Permutation, key_groups_Permutation;
      [apply url_keys_NoDup|intros; apply url_category_key].
Qed.

Lemma shown_counts_cover (l : list string) :
  sum_list ((λ section, length section.2) <$> sections_of l) = length l.
Proof.
  unfold sections_of.
  destruct (sections_contents (λ k, url_group_of k l) url_categories.*1)
    as (_ & _ & ->).
  apply key_group_sizes; [apply url_keys_NoDup|apply url_category_key].
Qed.

(** X14. The file that is written holds, for every section, the heading
    with the category and the number of its images and one item per image;
    the items show every distinct image of the list once, under the
    category of the chain, and the numbers of the headings add up to the
    number of distinct images. *)
Theorem url_sections_cover_unique_images (w : world) images :
  read_image_list w = Some images →
  ∃ w' alt_of sections,
    generate_gallery_urls w = Some w' ∧
    files w' !! "gallery_sections.html" = Some (shown_sections alt_of sections) ∧
    shown_images sections ≡ₚ
      (λ img, (url_category img, img)) <$> unique_images images ∧
    NoDup (shown_images sections) ∧
    sum_list ((λ section, length section.2) <$> sections) =
      length (unique_images images).
Proof.
  intros Hread.
  destruct (generate_gallery_urls_shows w images Hread) as (w' & Hrun & Hfile).
  exists w', url_alt_text, (sections_of (unique_images images)).
  split; [done|]. split; [done|].
  split; [apply shown_images_cover|]. split; [|apply shown_counts_cover].
  rewrite shown_images_cover. apply NoDup_fmap_2_strong.
  - intros a b _ _ Heq. by injection Heq.
  - rewrite unique_images_first_occurrences. apply NoDup_first_occurrences.
Qed.

Lemma url_sections_cover_unique_images_witness :
  ∃ w' alt_of sections,
    generate_gallery_urls (generate_image_list picture_directory) = Some w' ∧
    files w' !! "gallery_sections.html" = Some (shown_sections alt_of sections) ∧
    shown_images sections ≡ₚ
      (λ img, (url_category img, img)) <$>
        unique_images ["CX-100.JPG"; "members-2.jpg"; "members-ceremony-1.jpg";
                       "street.png"; "temple-gate.jpg"] ∧
    NoDup (shown_images sections) ∧
    sum_list ((λ section, length section.2) <$> sections) =
      length (unique_images ["CX-100.JPG"; "members-2.jpg";
                             "members-ceremony-1.jpg"; "street.png";
                             "temple-gate.jpg"]).
Proof.
  apply (url_sections_cover_unique_images
           (generate_image_list picture_directory)).
  reflexivity.
Defined.

(** X15. The sections of the file that is written stand in the order of the
    dict, which is not the order of the chain; a category without image has
    no section, so that no heading shows a zero count. *)
Theorem url_sections_follow_dict_order (w : world) images :
  read_image_list w = Some images →
  ∃ w' alt_of,
    generate_gallery_urls w = Some w' ∧
    files w' !! "gallery_sections.html" =
      Some (shown_sections alt_of
              (filter (λ section, section.2 ≠ [])
                 ((λ k, (k, url_group_of k (unique_images images)))
                    <$> ["Members & Group Photos"; "Head Temple & Premises";
                         "Mount Fuji Views"; "Hotels & Accommodation";
                         "Travel & Journey"; "Temple Activities";
                         "Local Places & Food";
                         "Ceremony & Special Events"]))).
Proof.
  intros Hread.
  destruct (generate_gallery_urls_shows w images Hread) as (w' & Hrun & Hfile).
  by exists w', url_alt_text.
Qed.

Lemma url_sections_follow_dict_order_witness :
  ∃ w' alt_of,
    generate_gallery_urls (generate_image_list picture_directory) = Some w' ∧
    files w' !! "gallery_sections.html" =
      Some (shown_sections alt_of
              (filter (λ section, section.2 ≠ [])
                 ((λ k, (k, url_group_of k
                              (unique_images
                                 ["CX-100.JPG"; "members-2.jpg";
                                  "members-ceremony-1.jpg"; "street.png";
                                  "temple-gate.jpg"])))
                    <$> ["Members & Group Photos"; "Head Temple & Premises";
                         "Mount Fuji Views"; "Hotels & Accommodation";
                         "Travel & Journey"; "Temple Activities";
                         "Local Places & Food";
                         "Ceremony & Special Events"]))).
Proof.
  apply (url_sections_follow_dict_order
           (generate_image_list picture_directory)).
  reflexivity.
Defined.

Lemma url_sections_example :
  (sections_of ["CX-100.JPG"; "members-2.jpg"; "members-ceremony-1.jpg";
                "street.png"; "temple-gate.jpg"]).*1 =
  ["Members & Group Photos"; "Head Temple & Premises"; "Travel & Journey";
   "Local Places & Food"; "Ceremony & Special Events"].
Proof. reflexivity. Qed.

Lemma plain_name_scan (entries : list string) :
  Forall plain_name entries → Forall plain_name (image_names entries).
Proof.
  rewrite !Forall_forall. intros Hall img Himg. apply Hall.
  unfold image_names in Himg.
  by apply elem_of_sorted, elem_of_scan_extensions in Himg as [? _].
Qed.

(** The list that [generate_image_list] writes is the list that
    [generate_gallery_urls] reads. *)
Lemma read_written_image_list (w : world) (entries : list string) :
  converted_dir w = Some entries →
  Forall plain_name entries →
  read_image_list (generate_image_list w) = Some (image_names entries).
Proof.
  intros Hdir Hplain.
  pose proof (plain_name_scan entries Hplain) as Hnames.
  rewrite (read_image_list_file _ (js_array (image_names entries)))
    by (rewrite (generate_image_list_writes w entries Hdir);
        apply lookup_insert_eq).
  rewrite universal_newlines_plain by (by apply js_array_no_carriage_return).
  unfold parse_image_list.
  rewrite array_match_js_array by done. cbn [mbind option_bind].
  f_equal. by apply parse_array_content.
Qed.

(** X16. From the directory to the second gallery: for a listing without
    duplicates whose names hold no line feed, no carriage return and no
    closing of the array, the two scripts run one after the other raise
    nothing, and the file that is written shows exactly the scanned images,
    each once under the category of the chain, with headings whose numbers
    add up to the number of scanned images. *)
Theorem image_list_pipeline (w : world) (entries : list string) :
  converted_dir w = Some entries →
  NoDup entries →
  Forall plain_name entries →
  ∃ w' alt_of sections,
    generate_gallery_urls (generate_image_list w) = Some w' ∧
    files w' !! "gallery_sections.html" = Some (shown_sections alt_of sections) ∧
    shown_images sections ≡ₚ
      (λ img, (url_category img, img)) <$> image_names entries ∧
    sum_list ((λ section, length section.2) <$> sections) =
      length (image_names entries).
Proof.
  intros Hdir Hnd Hplain.
  destruct (generate_gallery_urls_shows (generate_image_list w)
              (image_names entries)) as (w' & Hrun & Hfile).
  { by apply read_written_image_list. }
  rewrite unique_images_NoDup in Hfile by (by apply image_names_NoDup).
  exists w', url_alt_text, (sections_of (image_names entries)).
  split; [done|]. split; [done|].
  split; [apply shown_images_cover|apply shown_counts_cover].
Qed.

Lemma image_list_pipeline_witness :
  ∃ w' alt_of sections,
    generate_gallery_urls (generate_image_list picture_directory) = Some w' ∧
    files w' !! "gallery_sections.html" = Some (shown_sections alt_of sections) ∧
    shown_images sections ≡ₚ
      (λ img, (url_category img, img)) <$>
        image_names ["members-2.jpg"; "notes.txt"; "CX-100.JPG";
                     "temple-gate.jpg"; "members-ceremony-1.jpg"; "street.png"] ∧
    sum_list ((λ section, length section.2) <$> sections) =
      length (image_names ["members-2.jpg"; "notes.txt"; "CX-100.JPG";
                           "temple-gate.jpg"; "members-ceremony-1.jpg";
                           "street.png"]).
Proof.
  apply (image_list_pipeline picture_directory).
  - reflexivity.
  - apply (bool_decide_unpack _). vm_compute. exact I.
  - repeat constructor.
Defined.

End url_sections.

(** ** The counts of the counting scripts *)

Section counting_scripts.

Lemma counted_exclusive (entry : string) :
  ¬ (endswith ".jpg" entry = true ∧ endswith ".png" entry = true) ∧
  ¬ (endswith ".jpg" entry = true ∧ endswith ".PNG" entry = true) ∧
  ¬ (endswith ".png" entry = true ∧ endswith ".PNG" entry = true).
Proof.
  repeat split; intros [H1 H2];
    destruct (endswith_two _ _ _ H1 H2) as [H|H]; discriminate H.
Qed.

Lemma counted_length (entries : list string) :
  length (glob_suffix ".jpg" entries) +
  (length (glob_suffix ".png" entries) + length (glob_suffix ".PNG" entries)) =
  length (filter counted entries).
Proof.
  unfold glob_suffix. induction entries as [|e entries IH]; [done|].
  destruct (counted_exclusive e) as (X1 & X2 & X3).
  rewrite !filter_cons. unfold counted at 1.
  repeat case_decide; cbn [length]; try lia; tauto.
Qed.

Lemma report_lines_shown (names : list string) :
  report_lines names = shown_names names.
Proof. induction names as [|name names IH]; [done|]. cbn. by rewrite IH. Qed.

(** X17. [count_and_save.py] writes a report that opens with the number of
    JPG files, the number of PNG files and their sum as the total, which is
    the number of entries that end in [.jpg], [.png] or [.PNG]; the PNG
    files and the first twenty files follow, and no other file is
    written. *)
Theorem count_and_save_total (w : world) (entries : list string) :
  converted_dir w = Some entries →
  ∃ png_files first_files,
    files (count_and_save w) =
      <["image_count_result.txt" :=
          "JPG files: " +:+ pretty (length (glob_suffix ".jpg" entries)) +:+
          nl +:+
          "PNG files: " +:+ pretty (length (glob_suffix ".png" entries) +
                                   length (glob_suffix ".PNG" entries)) +:+
          nl +:+
          "Total: " +:+ pretty (length (glob_suffix ".jpg" entries) +
                               (length (glob_suffix ".png" entries) +
                                length (glob_suffix ".PNG" entries))) +:+
          nl +:+ nl +:+
          "PNG Files:" +:+ nl +:+
          shown_names png_files +:+
          nl +:+ "All files (first 20):" +:+ nl +:+
          shown_names first_files]> (files w) ∧
    length (glob_suffix ".jpg" entries) +
    (length (glob_suffix ".png" entries) + length (glob_suffix ".PNG" entries)) =
      length (filter counted entries) ∧
    png_files ≡ₚ glob_suffix ".png" entries ++ glob_suffix ".PNG" entries ∧
    length first_files = length (filter counted entries) `min` 20.
Proof.
  intros Hdir. unfold count_and_save. rewrite Hdir. cbn [glob_in].
  exists (sorted (glob_suffix ".png" entries ++ glob_suffix ".PNG" entries)),
    (firstn 20 (sorted (sorted (glob_suffix ".jpg" entries) ++
                        sorted (glob_suffix ".png" entries ++
                                glob_suffix ".PNG" entries)))).
  assert (∀ l, length (sorted l) = length l) as Hlen
    by (intros l; unfold sorted; by rewrite merge_sort_Permutation).
  split; [|split; [|split]].
  - cbn [files print write_file]. unfold count_report.
    by rewrite !report_lines_shown, !Hlen, !length_app, !Hlen, !length_app.
  - apply counted_length.
  - unfold sorted. by rewrite merge_sort_Permutation.
  - rewrite length_take, Hlen, length_app, !Hlen, length_app, counted_length.
    lia.
Qed.

Lemma count_and_save_total_witness :
  ∃ png_files first_files,
    files (count_and_save picture_directory) =
      <["image_count_result.txt" :=
          "JPG files: " +:+ pretty 3 +:+ nl +:+
          "PNG files: " +:+ pretty (1 + 0) +:+ nl +:+
          "Total: " +:+ pretty (3 + (1 + 0)) +:+ nl +:+ nl +:+
          "PNG Files:" +:+ nl +:+
          shown_names png_files +:+
          nl +:+ "All files (first 20):" +:+ nl +:+
          shown_names first_files]>
        (files picture_directory) ∧
    3 + (1 + 0) = 4 ∧
    png_files ≡ₚ ["street.png"] ++ [] ∧
    length first_files = 4 `min` 20.
Proof.
  apply (count_and_save_total picture_directory
           ["members-2.jpg"; "notes.txt"; "CX-100.JPG"; "temple-gate.jpg";
            "members-ceremony-1.jpg"; "street.png"]).
  reflexivity.
Defined.

(** X18. [force_regenerate.py] prints a total that counts the PNG files too,
    and then the generator renders the JPG files only: the fragment that is
    written opens with a first control that displays [All (n)] for the
    number [n] of JPG files that was printed, and with no JPG file nothing
    is written however many PNG files there are. *)
Theorem force_regenerate_counts (w : world) (entries : list string) :
  converted_dir w = Some entries →
  ∃ w' lines,
    force_regenerate w = Some w' ∧
    stdout w' =
      stdout w ++
      ["Found " +:+ pretty (length (glob_suffix ".jpg" entries) +
                            (length (glob_suffix ".png" entries) +
                             length (glob_suffix ".PNG" entries))) +:+
         " total images";
       "  - JPG: " +:+ pretty (length (glob_suffix ".jpg" entries));
       "  - PNG: " +:+ pretty (length (glob_suffix ".png" entries) +
                               length (glob_suffix ".PNG" entries))] ++ lines ∧
    (glob_suffix ".jpg" entries = [] → files w' = files w) ∧
    (glob_suffix ".jpg" entries ≠ [] →
     ∃ controls blocks,
       files w' !! output_file =
         Some (shown_page (length (glob_suffix ".jpg" entries))
                 controls blocks)).
Proof.
  intros Hdir. unfold force_regenerate. rewrite Hdir. cbn [glob_in].
  match goal with |- context [generate_gallery_html ?w0] => set (w3 := w0) end.
  assert (converted_dir w3 = Some entries) as Hdir3 by done.
  destruct (generate_gallery_html_run w3)
    as (w' & lines & Hrun & _ & Hout & _).
  exists w', lines. split; [done|]. split.
  { rewrite Hout. unfold w3. cbn [stdout print]. rewrite <- !app_assoc.
    cbn [app]. unfold sorted.
    by rewrite merge_sort_Permutation, !length_app. }
  split.
  - intros Hnone.
    assert (generate_gallery_html w3 = Some (print "❌ No images found!" w3))
      as Hrun'.
    { unfold generate_gallery_html. rewrite Hdir3, Hnone. done. }
    rewrite Hrun in Hrun'. by injection Hrun' as ->.
  - intros Hsome.
    assert (sorted (glob_suffix ".jpg" entries) ≠ []) as Hne.
    { intros Hnil. apply Hsome. apply Permutation_nil_r.
      rewrite <- Hnil. unfold sorted. by rewrite merge_sort_Permutation. }
    destruct (generate_gallery_html_writes w3 entries Hdir3 Hne)
      as (w'' & parts & Hrun'' & Hparts & Hfiles).
    rewrite Hrun in Hrun''. injection Hrun'' as <-.
    eexists _, _. rewrite Hfiles, lookup_insert_eq.
    rewrite (rendered_page _ _ Hparts). do 2 f_equal.
    unfold sorted. by rewrite merge_sort_Permutation.
Qed.

Lemma force_regenerate_counts_witness :
  ∃ w' lines,
    force_regenerate picture_directory = Some w' ∧
    stdout w' =
      [] ++ ["Found " +:+ pretty (3 + (1 + 0)) +:+ " total images";
             "  - JPG: " +:+ pretty 3;
             "  - PNG: " +:+ pretty (1 + 0)] ++ lines ∧
    (["members-2.jpg"; "temple-gate.jpg"; "members-ceremony-1.jpg"] = [] →
     files w' = ∅) ∧
    (["members-2.jpg"; "temple-gate.jpg"; "members-ceremony-1.jpg"] ≠ [] →
     ∃ controls blocks,
       files w' !! output_file = Some (shown_page 3 controls blocks)).
Proof.
  apply (force_regenerate_counts picture_directory
           ["members-2.jpg"; "notes.txt"; "CX-100.JPG"; "temple-gate.jpg";
            "members-ceremony-1.jpg"; "street.png"]).
  reflexivity.
Defined.

End counting_scripts.

(** ** The conversion loop *)

Section conversion_loop.

Variable convert_image : string → string + string.

Implicit Types (heic_files : list string) (st : conversion).

Lemma convert_loop_spec heic_files st :
  converted_count (convert_loop convert_image heic_files st) =
    converted_count st + length (filter (succeeds convert_image) heic_files) ∧
  failed_count (convert_loop convert_image heic_files st) =
    failed_count st +
    length (filter (λ f, ¬ succeeds convert_image f) heic_files) ∧
  written (convert_loop convert_image heic_files st) =
    written st ++
    ((λ f, stem f +:+ ".jpg") <$> filter (succeeds convert_image) heic_files) ∧
  length (printed (convert_loop convert_image heic_files st)) =
    length (printed st) + 2 * length heic_files.
Proof.
  revert st. induction heic_files as [|f heic_files IH]; intros st.
  - cbn. rewrite app_nil_r. repeat split; lia.
  - cbn [convert_loop]. rewrite !filter_cons.
    destruct (convert_image f) as [sizes|e] eqn:Hf.
    + destruct (IH (Conversion (S (converted_count st)) (failed_count st)
                      (written st ++ [stem f +:+ ".jpg"])
                      ((printed st ++
                        ["🔄 Converting: " +:+ f +:+ " → " +:+ (stem f +:+ ".jpg")]) ++
                       ["   ✅ Success! (" +:+ sizes +:+ ")"])))
        as (-> & -> & -> & ->).
      assert (succeeds convert_image f) as Hs by (by exists sizes).
      rewrite decide_True, decide_False by tauto.
      cbn [converted_count failed_count written printed length fmap list_fmap].
      rewrite !length_app, <- app_assoc. cbn [length app].
      repeat split; lia || done.
    + destruct (IH (Conversion (converted_count st) (S (failed_count st))
                      (written st)
                      ((printed st ++
                        ["🔄 Converting: " +:+ f +:+ " → " +:+ (stem f +:+ ".jpg")]) ++
                       ["   ❌ Failed: " +:+ e])))
        as (-> & -> & -> & ->).
      assert (¬ succeeds convert_image f) as Hs
        by (intros [sizes Hs]; congruence).
      rewrite decide_False, decide_True by tauto.
      cbn [converted_count failed_count written printed length].
      rewrite !length_app. cbn [length].
      repeat split; lia || done.
Qed.

(** X19. Every file found is tried once, whatever happens to the files before
    it: the two counters add up to the number of files found, the first one
    counts the conversions that succeed, and the files written are named after
    the stems of those, with the extension the gallery generator scans for. *)
Theorem conversion_accounts_for_every_file (input_dir output_location : string)
    (entries : list string) :
  let run := convert_heic_to_jpg convert_image input_dir (Some entries)
               output_location in
  let heic_files := glob_all heic_suffixes entries in
  converted_count run + failed_count run = length heic_files ∧
  converted_count run = length (filter (succeeds convert_image) heic_files) ∧
  written run =
    (λ f, stem f +:+ ".jpg") <$> filter (succeeds convert_image) heic_files ∧
  glob_suffix ".jpg" (written run) = written run.
Proof.
  intros run heic_files.
  assert (converted_count run =
            length (filter (succeeds convert_image) heic_files) ∧
          failed_count run =
            length (filter (λ f, ¬ succeeds convert_image f) heic_files) ∧
          written run =
            (λ f, stem f +:+ ".jpg") <$>
              filter (succeeds convert_image) heic_files)
    as (Hc & Hf & Hw).
  { unfold run, convert_heic_to_jpg. fold heic_files.
    destruct heic_files as [|f rest] eqn:Hfiles; [done|].
    cbn [converted_count failed_count written].
    match goal with |- context [convert_loop _ _ ?st0] =>
      destruct (convert_loop_spec (f :: rest) st0) as (-> & -> & -> & _) end.
    done. }
  split; [|split; [done|split; [done|]]].
  - rewrite Hc, Hf.
    rewrite <- (length_app (filter _ heic_files)).
    by rewrite filter_app_complement.
  - rewrite Hw. unfold glob_suffix.
    generalize (filter (succeeds convert_image) heic_files). intros l.
    induction l as [|f l IH]; [done|]. rewrite fmap_cons.
    rewrite filter_cons_True by apply endswith_app. by rewrite IH.
Qed.

End conversion_loop.

(** Two files with one stem are written to one name: the converter counts
    two conversions and leaves one picture. *)
Lemma conversion_same_stem_example :
  written (convert_heic_to_jpg example_converter "assets/images/gallery"
             (Some ["a.heic"; "bad.HEIC"; "c.txt"; "a.heif"]) "/site/converted")
    = ["a.jpg"; "a.jpg"] ∧
  converted_count (convert_heic_to_jpg example_converter "assets/images/gallery"
             (Some ["a.heic"; "bad.HEIC"; "c.txt"; "a.heif"]) "/site/converted")
    = 2.
Proof. split; reflexivity. Qed.

(** ** The chain of the second gallery *)

Section url_chain.

(** X20. An image lands under the ceremony heading in two ways only: a
    members keyword together with ['ceremony'], or ['ceremony-day-'] with no
    keyword of the six branches that are tried before it. A name such as
    [temple-ceremony-day-1.jpg] therefore stays with the temple. *)
Theorem url_ceremony_iff (img : string) :
  url_category img = "Ceremony & Special Events" ↔
  (any_in ["members-"; "member-"] (lower img) = true ∧
   contains "ceremony" (lower img) = true) ∨
  (any_in ["members-"; "member-"] (lower img) = false ∧
   any_in ["headtemple-"; "head-temple-"; "temple-premises-"; "temple-";
           "tokohibo-"; "seikado-"; "treasury-hall-"; "salmon-gate-";
           "pagoda-"] (lower img) = false ∧
   contains "mount-fuji" (lower img) = false ∧
   contains "fuji-" (lower img) = false ∧
   any_in ["hotel-"; "fujiyen-"] (lower img) = false ∧
   any_in ["hongkong-"; "narita-"; "cathay-"; "cx-"; "airport"] (lower img) = false ∧
   any_in ["gokai-"; "map-"; "butsugu-"] (lower img) = false ∧
   contains "ceremony-day-" (lower img) = true).
Proof.
  unfold url_category. generalize (lower img) as fl. intros fl.
  destruct (any_in ["members-"; "member-"] fl).
  { destruct (contains "ceremony" fl).
    - split; [intros _; by left|done].
    - split; [done|intros [[_ ?]|[? _]]; done]. }
  destruct (any_in ["headtemple-"; "head-temple-"; "temple-premises-";
                    "temple-"; "tokohibo-"; "seikado-"; "treasury-hall-";
                    "salmon-gate-"; "pagoda-"] fl);
    [split; [done|intros [[? _]|(_ & ? & _)]; done]|].
  destruct (contains "mount-fuji" fl);
    [split; [done|intros [[? _]|(_ & _ & ? & _)]; done]|].
  destruct (contains "fuji-" fl);
    [split; [done|intros [[? _]|(_ & _ & _ & ? & _)]; done]|].
  cbn [orb].
  destruct (any_in ["hotel-"; "fujiyen-"] fl);
    [split; [done|intros [[? _]|(_ & _ & _ & _ & ? & _)]; done]|].
  destruct (any_in ["hongkong-"; "narita-"; "cathay-"; "cx-"; "airport"] fl);
    [split; [done|intros [[? _]|(_ & _ & _ & _ & _ & ? & _)]; done]|].
  destruct (any_in ["gokai-"; "map-"; "butsugu-"] fl);
    [split; [done|intros [[? _]|(_ & _ & _ & _ & _ & _ & ? & _)]; done]|].
  assert (any_in ["ceremony-day-"] fl = contains "ceremony-day-" fl) as ->
    by apply orb_false_r.
  destruct (contains "ceremony-day-" fl).
  - split; [intros _; by right|done].
  - split; [done|intros [[? _]|(_ & _ & _ & _ & _ & _ & _ & ?)]; done].
Qed.

Lemma url_ceremony_example :
  url_category "temple-ceremony-day-1.jpg" = "Head Temple & Premises" ∧
  url_category "ceremony-day-1.jpg" = "Ceremony & Special Events" ∧
  url_category "member-at-ceremony.jpg" = "Ceremony & Special Events".
Proof. repeat split; reflexivity. Qed.

End url_chain.

(** ** Controls and blocks agree *)

Section controls_and_blocks.

Lemma elem_of_blocks (images ks : list string) (p : part) :
  p ∈ mjoin (blocks_for images <$> ks) ↔
  ∃ k img, k ∈ ks ∧ img ∈ group_of k images ∧ p = gallery_item k img.
Proof.
  induction ks as [|k ks IH].
  - split; [by intros ?%elem_of_nil|]. by intros (k & img & ?%elem_of_nil & _).
  - rewrite fmap_cons.
    change (mjoin (?x :: ?y)) with (x ++ mjoin y).
    rewrite elem_of_app, IH. unfold blocks_for at 1.
    rewrite list_elem_of_fmap. split.
    + intros [(img & -> & Himg)|(k' & img & Hk' & Himg & ->)].
      * exists k, img. split; [left|done].
      * exists k', img. split; [by right|done].
    + intros (k' & img & [->|Hk']%elem_of_cons & Himg & ->).
      * left. by exists img.
      * right. by exists k', img.
Qed.

(** X21. The controls and the grid agree: the category of every block has a
    control, and every control has a block of its category. *)
Theorem every_block_has_its_control (images : list string) (parts : list part)
    (cat : string) :
  html_parts images = Some parts →
  (cat ∈ button_ids parts ↔
   ∃ href src alt, GalleryItem cat href src alt ∈ parts).
Proof.
  intros Hparts.
  destruct (html_parts_contents _ _ Hparts) as (_ & Hids & _ & _ & Hitems).
  assert (∀ p, is_item p = true → (p ∈ parts ↔ p ∈ item_blocks parts)) as Hin.
  { intros p Hp. unfold item_blocks. rewrite list_elem_of_filter. tauto. }
  rewrite Hids, list_elem_of_filter. split.
  - intros [Hne Hcat].
    destruct (group_of cat images) as [|img g] eqn:Hg; [done|].
    exists (as_posix img), (as_posix img), (alt_text img).
    apply (Hin (GalleryItem cat _ _ _)); [done|].
    rewrite Hitems. apply elem_of_blocks. exists cat, img.
    split; [done|]. rewrite Hg. split; [left|done].
  - intros (href & src & alt & Hp).
    apply (Hin (GalleryItem cat _ _ _)) in Hp; [|done].
    rewrite Hitems in Hp.
    apply elem_of_blocks in Hp as (k & img & Hk & Himg & Heq).
    injection Heq as -> _ _ _. split; [|done].
    intros Hnil. rewrite Hnil in Himg. by apply elem_of_nil in Himg.
Qed.

Lemma every_block_has_its_control_witness :
  "fuji" ∈ button_ids
    [FiltersOpen 1; FilterButton "fuji" "mountain" "Mount Fuji" 1;
     FiltersClose; GridOpen; gallery_item "fuji" "fuji-view.jpg"; GridClose] ↔
  ∃ href src alt,
    GalleryItem "fuji" href src alt ∈
      [FiltersOpen 1; FilterButton "fuji" "mountain" "Mount Fuji" 1;
       FiltersClose; GridOpen; gallery_item "fuji" "fuji-view.jpg"; GridClose].
Proof.
  apply (every_block_has_its_control ["fuji-view.jpg"]).
  reflexivity.
Defined.

End controls_and_blocks.

(** ** Removing duplicates twice *)

Section dedup_again.

(** X22. Removing duplicates changes a list without duplicates in nothing, so
    that removing them a second time changes nothing; the result is never
    longer than the input. *)
Theorem unique_images_idempotent (images : list string) :
  unique_images (unique_images images) = unique_images images ∧
  (length (unique_images images) ≤ length images)%nat ∧
  (NoDup images → unique_images images = images).
Proof.
  split; [|split].
  - apply unique_images_NoDup. rewrite unique_images_first_occurrences.
    apply NoDup_first_occurrences.
  - rewrite unique_images_first_occurrences.
    induction images as [|img images IH]; [done|]. cbn [first_occurrences length].
    pose proof (length_filter (λ y, y ≠ img) (first_occurrences images)). lia.
  - apply unique_images_NoDup.
Qed.

End dedup_again.
